(** * A model of [static/js/custom.js]

    Client-side script of the college attendance management system.  The
    development embeds the attendance calculator, the colour classifier,
    the cookie reader, the row filters and the loading overlay of the
    script, and proves the properties stated about them.

    JavaScript numbers are IEEE 754 binary64 values.  They are modelled by
    [spec_float] at precision 53 and maximal exponent 1024, so that
    division by zero, [NaN], the infinities and rounding behave as they do
    in the script.  Strings are sequences of code units below 256.  The
    document is a tree of elements that the script reads and updates
    through references. *)

From Stdlib Require Import ZArith QArith Qround Qpower Lia Lqa Ascii.
From Stdlib Require Import Floats.SpecFloat.
From stdpp Require Import gmap strings list pretty.

Local Open Scope Z_scope.

(** * Part I: the script *)

(** ** JavaScript numbers *)

Module Number.

Definition prec : Z := 53.
Definition emax : Z := 1024.

Abbreviation number := spec_float.

Definition NaN : number := S754_nan.
Definition Infinity : number := S754_infinity false.

(** Integer literals of the script ([0], [65], [75], [100], ...). *)
Definition lit (z : Z) : number := binary_normalize prec emax z 0 false.

Definition add (x y : number) : number := SFadd prec emax x y.
Definition mul (x y : number) : number := SFmul prec emax x y.
Definition div (x y : number) : number := SFdiv prec emax x y.

(** [x < y]: false as soon as an operand is [NaN]. *)
Definition lt (x y : number) : bool :=
  match SFcompare x y with
  | Some Lt => true
  | _ => false
  end.

(** [x >= y]: the negation of [x < y], except that it is false when the
    comparison is undefined. *)
Definition ge (x y : number) : bool :=
  match SFcompare x y with
  | Some Lt => false
  | Some _ => true
  | None => false
  end.

(** [x <= y] is [y >= x]. *)
Definition le (x y : number) : bool := ge y x.

(** [x === y] on numbers: [NaN] differs from itself, [+0 === -0]. *)
Definition strict_eq (x y : number) : bool :=
  match SFcompare x y with
  | Some Eq => true
  | _ => false
  end.

(** [x++] stores [x + 1]. *)
Definition incr (x : number) : number := add x (lit 1).

Definition is_nan (x : number) : bool :=
  match x with
  | S754_nan => true
  | _ => false
  end.

Definition is_finite (x : number) : bool :=
  match x with
  | S754_zero _ | S754_finite _ _ _ => true
  | _ => false
  end.

(** The values a JavaScript number can take: canonical mantissa and
    exponent in range. *)
Definition valid (x : number) : bool := valid_binary prec emax x.

(** The real number a finite value stands for (and 0 for the others). *)
Definition real_value (x : number) : Q :=
  match x with
  | S754_finite false m e => inject_Z (Zpos m) * 2 ^ e
  | S754_finite true m e => - (inject_Z (Zpos m) * 2 ^ e)
  | _ => 0
  end.

#[global] Instance number_eq_dec : EqDecision number.
Proof. solve_decision. Defined.

End Number.

Import Number.

(** ** Outcomes and the host environment *)

(** An evaluation returns a value or throws. *)
Inductive completion (A : Type) : Type :=
  | Normal (a : A)
  | Throw (error : string).

Arguments Normal {A} a.
Arguments Throw {A} error.

(** Built-in functions the script calls and this development leaves to
    the browser: the printing of numbers of magnitude at least [10 ^ 21]
    (exponent notation), and the decoding of percent escapes, which
    throws a [URIError] on a malformed escape. *)
Class Host := {
  Number_toString : number -> string;
  decodeURIComponent : string -> completion string
}.

(** A host for evaluating examples: its two functions agree with the
    browser's on the arguments the examples give them (a number that is
    [10 ^ 21], strings without percent escapes). *)
Definition sample_host : Host := {|
  Number_toString := fun _ => "1e+21";
  decodeURIComponent := fun s => Normal s
|}.

(** ** Strings *)

Module JSString.

(** White space and line terminators among the code units below 256. *)
Definition is_white_space (c : ascii) : bool :=
  let n := Ascii.N_of_ascii c in
  ((9 <=? n) && (n <=? 13) || (n =? 32) || (n =? 160))%N.

Fixpoint trimStart (s : string) : string :=
  match s with
  | EmptyString => EmptyString
  | String c s' => if is_white_space c then trimStart s' else s
  end.

Fixpoint trimEnd (s : string) : string :=
  match s with
  | EmptyString => EmptyString
  | String c s' =>
      match trimEnd s' with
      | EmptyString => if is_white_space c then EmptyString else String c EmptyString
      | t => String c t
      end
  end.

(** [s.trim()] *)
Definition trim (s : string) : string := trimEnd (trimStart s).

(** [s.split(sep)] for a separator of one code unit. *)
Fixpoint split (sep : ascii) (s : string) : list string :=
  match s with
  | EmptyString => [EmptyString]
  | String c s' =>
      if Ascii.eqb c sep then EmptyString :: split sep s'
      else
        match split sep s' with
        | [] => [String c EmptyString]
        | piece :: pieces => String c piece :: pieces
        end
  end.

(** [s.substring(start, end)]: both indices are clamped to the length
    and swapped when [start > end]. *)
Definition substring (s : string) (start end_ : nat) : string :=
  let a := Nat.min start (String.length s) in
  let b := Nat.min end_ (String.length s) in
  String.substring (Nat.min a b) (Nat.max a b - Nat.min a b) s.

(** [s.substring(start)] *)
Definition substring_from (s : string) (start : nat) : string :=
  substring s start (String.length s).

Fixpoint repeat_zero (n : nat) : string :=
  match n with
  | O => EmptyString
  | S n' => String "0" (repeat_zero n')
  end.

(** The digits of the integer [n] with a point before the last [f] of
    them, padded with zeros on the left to [f + 1] digits (steps 10 of
    Number.prototype.toFixed). *)
Definition format_fixed (n : Z) (f : nat) : string :=
  let m := pretty (Z.to_N n) in
  if (f =? 0)%nat then m
  else
    let k := String.length m in
    let m := if (k <=? f)%nat then repeat_zero (f + 1 - k) +:+ m else m in
    let k := String.length m in
    let a := substring m 0 (k - f) in
    let b := substring_from m (k - f) in
    a +:+ "." +:+ b.

(** [x.toFixed(fractionDigits)] (ECMA-262, Number.prototype.toFixed). *)
Definition toFixed `{Host} (x : number) (fractionDigits : nat) : string :=
  match x with
  | S754_nan => "NaN"
  | S754_infinity false => "Infinity"
  | S754_infinity true => "-Infinity"
  | _ =>
      let v := real_value x in
      let s := if Qle_bool 0 v then "" else "-" in
      let v := if Qle_bool 0 v then v else (- v)%Q in
      if Qle_bool (inject_Z (10 ^ 21)) v then s +:+ Number_toString (SFabs x)
      else
        (* the integer n for which n / 10^f - v is closest to zero,
           the larger one when there are two *)
        let n := Qfloor (v * inject_Z (10 ^ Z.of_nat fractionDigits) + (1 # 2)) in
        s +:+ format_fixed n fractionDigits
  end.

(** The rational a decimal numeral [-ddd.ddd] denotes. *)
Definition digit_value (c : ascii) : option N :=
  let n := Ascii.N_of_ascii c in
  if ((48 <=? n) && (n <=? 57))%N then Some (n - 48)%N else None.

Fixpoint digits_value (s : string) (acc : N) : option N :=
  match s with
  | EmptyString => Some acc
  | String c s' =>
      match digit_value c with
      | Some d => digits_value s' (10 * acc + d)%N
      | None => None
      end
  end.

Definition unsigned_decimal_value (s : string) : option Q :=
  match split "." s with
  | [ip] =>
      if String.eqb ip "" then None
      else (fun n => Z.of_N n # 1) <$> digits_value ip 0
  | [ip; fp] =>
      if String.eqb (ip +:+ fp) "" then None
      else (fun n => Z.of_N n # Z.to_pos (10 ^ Z.of_nat (String.length fp)))
             <$> digits_value (ip +:+ fp) 0
  | _ => None
  end.

Definition decimal_value (s : string) : option Q :=
  match s with
  | String "-" s' => Qopp <$> unsigned_decimal_value s'
  | _ => unsigned_decimal_value s
  end.

End JSString.

(** ** Attendance calculator *)

Module Attendance.
Import JSString.

(** The values [calculateAttendance] returns: the number [0] or the
    string produced by [toFixed]. *)
Inductive value : Type :=
  | VNumber (x : number)
  | VString (s : string).

(** The number a returned value denotes, when it denotes one. *)
Definition numeric_value (v : value) : option Q :=
  match v with
  | VNumber x => if is_finite x then Some (real_value x) else None
  | VString s => decimal_value s
  end.

(** *** [calculateAttendance] *)

Definition calculateAttendance `{Host} (totalClasses attendedClasses : number)
    : value :=
  if strict_eq totalClasses (lit 0) then VNumber (lit 0)
  else VString (toFixed (mul (div attendedClasses totalClasses) (lit 100)) 2).

(** *** [while] loops

    [while_loop cond body n st] runs [while (cond) body] from [st] and
    allows the body to execute at most [n] times; [None] means that the
    allowance was exhausted with the condition still true. *)
Section While.
Context {St : Type}.
Variable cond : St -> bool.
Variable body : St -> St.

Fixpoint while_loop (n : nat) (st : St) : option St :=
  if cond st then
    match n with
    | O => None
    | S n' => while_loop n' (body st)
    end
  else Some st.
End While.

(** *** [calculateRequiredClasses] *)

Record locals := Locals {
  required : number;
  futureTotal : number;
  futureAttended : number
}.

Definition loop_cond (targetPercentage : number) (st : locals) : bool :=
  lt (mul (div (futureAttended st) (futureTotal st)) (lit 100)) targetPercentage
  && lt (required st) (lit 100).

Definition loop_body (st : locals) : locals :=
  let futureTotal' := incr (futureTotal st) in
  let futureAttended' := incr (futureAttended st) in
  let required' := incr (required st) in
  Locals required' futureTotal' futureAttended'.

Definition loop_init (currentTotal currentAttended : number) : locals :=
  Locals (lit 0) currentTotal currentAttended.

(** The function with an explicit allowance of loop iterations. *)
Definition calculateRequiredClasses_within (n : nat)
    (currentTotal currentAttended targetPercentage : number) : option number :=
  required <$> while_loop (loop_cond targetPercentage) loop_body n
                 (loop_init currentTotal currentAttended).

(** One hundred iterations always suffice: the loop never asks for
    more, whatever the arguments. *)
Definition calculateRequiredClasses :=
  calculateRequiredClasses_within 100.

(** The projection the loop simulates: the value of a variable after
    [k] executions of the body, each of which increments it, and the
    attendance percentage computed from the projected counts. *)
Definition projected (x : number) (k : nat) : number := Nat.iter k incr x.

Definition projectedPercentage (currentTotal currentAttended : number)
    (k : nat) : number :=
  mul (div (projected currentAttended k) (projected currentTotal k)) (lit 100).

(** *** [getAttendanceColor] *)

Definition getAttendanceColor (percentage : number) : string :=
  if ge percentage (lit 75) then "success"
  else if ge percentage (lit 65) then "warning"
  else "danger".

End Attendance.

(** ** The document *)

Module DOM.
Import JSString.

(** An element: its tag, its attributes other than [style] ([id],
    [class], [data-*], ...), the declarations of its inline style, which
    is what the [style] attribute holds, and its child elements in
    document order. *)
#[warnings="-register-all"]
Inductive element : Type := Element {
  tagName : string;
  attributes : gmap string string;
  style : gmap string string;
  children : list element
}.

(** The part of the page the script works on: the cookie string and
    the elements under [<body>]. *)
Record document := Document {
  cookie : string;
  body : list element
}.

(** A reference to an element of the document: the indices of the
    children to follow from [<body>]. *)
Definition ref := list nat.

Definition set_attribute (name v : string) (el : element) : element :=
  Element (tagName el) (<[name := v]> (attributes el)) (style el) (children el).

Definition set_children (cs : list element) (el : element) : element :=
  Element (tagName el) (attributes el) (style el) cs.

(** [el.style.display]: the empty string when the inline style has no
    [display] declaration. *)
Definition display (el : element) : string := default "" (style el !! "display").

(** [el.style.display = v]: the empty string removes the declaration. *)
Definition set_display (v : string) (el : element) : element :=
  Element (tagName el) (attributes el)
    (if String.eqb v "" then delete "display" (style el)
     else <["display" := v]> (style el))
    (children el).

(** [el.dataset.name] reads the attribute [data-name]. *)
Definition dataset (el : element) (name : string) : option string :=
  attributes el !! ("data-" +:+ name).

(** *** Access by reference *)

Fixpoint lookup_ref (r : ref) (forest : list element) : option element :=
  match r with
  | [] => None
  | i :: r' =>
      match forest !! i with
      | Some el =>
          match r' with
          | [] => Some el
          | _ => lookup_ref r' (children el)
          end
      | None => None
      end
  end.

Fixpoint update_ref (f : element -> element) (r : ref) (forest : list element)
    : list element :=
  match r with
  | [] => forest
  | i :: r' =>
      match r' with
      | [] => alter f i forest
      | _ => alter (fun el => set_children (update_ref f r' (children el)) el) i forest
      end
  end.

Fixpoint remove_ref (r : ref) (forest : list element) : list element :=
  match r with
  | [] => forest
  | i :: r' =>
      match r' with
      | [] => delete i forest
      | _ => alter (fun el => set_children (remove_ref r' (children el)) el) i forest
      end
  end.

(** *** Selection in document order *)

Section Select.
Variable P : element -> bool.

Fixpoint select_element (el : element) : list ref :=
  (if P el then [ [] ] else [])
  ++ (fix select_children (i : nat) (cs : list element) : list ref :=
        match cs with
        | [] => []
        | c :: cs' =>
            ((i ::.) <$> select_element c) ++ select_children (S i) cs'
        end) O (children el).

Fixpoint select_forest (i : nat) (forest : list element) : list ref :=
  match forest with
  | [] => []
  | c :: cs => ((i ::.) <$> select_element c) ++ select_forest (S i) cs
  end.
End Select.

Inductive selector : Type :=
  | HasAttribute (name : string)        (* [name] *)
  | HasId (id : string).                (* #id *)

Definition matches (sel : selector) (el : element) : bool :=
  match sel with
  | HasAttribute name => bool_decide (is_Some (attributes el !! name))
  | HasId id => bool_decide (attributes el !! "id" = Some id)
  end.

(** *** The script's view of the document: state and exceptions *)

Definition M (A : Type) : Type := document -> completion (A * document).

Definition ret {A} (a : A) : M A := fun d => Normal (a, d).

Definition bind {A B} (m : M A) (k : A -> M B) : M B :=
  fun d =>
    match m d with
    | Normal (a, d') => k a d'
    | Throw e => Throw e
    end.

Definition lift {A} (c : completion A) : M A :=
  fun d =>
    match c with
    | Normal a => Normal (a, d)
    | Throw e => Throw e
    end.

Declare Scope dom_scope.
Delimit Scope dom_scope with dom.
Notation "x <- m ;; k" := (bind m (fun x => k))
  (at level 100, m at next level, right associativity) : dom_scope.
Notation "m ;; k" := (bind m (fun _ => k))
  (at level 100, right associativity) : dom_scope.
Local Open Scope dom_scope.

(** [document.cookie] *)
Definition document_cookie : M string := fun d => Normal (cookie d, d).

(** [document.querySelectorAll(sel)]: a static list of references. *)
Definition querySelectorAll (sel : selector) : M (list ref) :=
  fun d => Normal (select_forest (matches sel) O (body d), d).

(** [document.getElementById(id)]: the first match, or [null]. *)
Definition getElementById (id : string) : M (option ref) :=
  fun d => Normal (head (select_forest (matches (HasId id)) O (body d)), d).

(** [row.dataset.name] *)
Definition get_dataset (row : ref) (name : string) : M (option string) :=
  fun d => Normal (lookup_ref row (body d) ≫= (fun el => dataset el name), d).

(** [row.style.display = v] *)
Definition assign_display (row : ref) (v : string) : M unit :=
  fun d => Normal (tt, Document (cookie d) (update_ref (set_display v) row (body d))).

(** [document.body.appendChild(el)] for an element not yet in the
    document. *)
Definition body_appendChild (el : element) : M unit :=
  fun d => Normal (tt, Document (cookie d) (body d ++ [el])).

(** [el.remove()] *)
Definition remove (r : ref) : M unit :=
  fun d => Normal (tt, Document (cookie d) (remove_ref r (body d))).

(** [list.forEach(f)] *)
Fixpoint forEach {A} (l : list A) (f : A -> M unit) : M unit :=
  match l with
  | [] => ret tt
  | x :: l' => f x ;; forEach l' f
  end.

(** *** Filter functions *)

Definition filterByDay (day : string) : M unit :=
  rows <- querySelectorAll (HasAttribute "data-day") ;;
  forEach rows (fun row =>
    row_day <- get_dataset row "day" ;;
    if String.eqb day "all" || bool_decide (row_day = Some day)
    then assign_display row ""
    else assign_display row "none").

Definition filterByStatus (status : string) : M unit :=
  rows <- querySelectorAll (HasAttribute "data-status") ;;
  forEach rows (fun row =>
    row_status <- get_dataset row "status" ;;
    if String.eqb status "all" || bool_decide (row_status = Some status)
    then assign_display row ""
    else assign_display row "none").

Definition filterBySemester (semester : string) : M unit :=
  rows <- querySelectorAll (HasAttribute "data-semester") ;;
  forEach rows (fun row =>
    row_semester <- get_dataset row "semester" ;;
    if String.eqb semester "all" || bool_decide (row_semester = Some semester)
    then assign_display row ""
    else assign_display row "none").

(** *** Cookie reader *)

(** The [for] loop of [getCookie] over [cookies[i]], [cookies[i+1]],
    ...: it leaves at the first entry that starts with [name=]. *)
Fixpoint getCookie_loop `{Host} (name : string) (cookies : list string)
    : completion (option string) :=
  match cookies with
  | [] => Normal None
  | entry :: cookies' =>
      let cookie := trim entry in
      if String.eqb (substring cookie 0 (String.length name + 1)) (name +:+ "=")
      then
        match decodeURIComponent (substring_from cookie (String.length name + 1)) with
        | Normal cookieValue => Normal (Some cookieValue)
        | Throw e => Throw e
        end
      else getCookie_loop name cookies'
  end.

Definition getCookie `{Host} (name : string) : M (option string) :=
  c <- document_cookie ;;
  if negb (String.eqb c "") then
    let cookies := split ";" c in
    lift (getCookie_loop name cookies)
  else ret None.

(** *** Loading overlay *)

(** [document.createElement(tag)] *)
Definition createElement (tag : string) : element := Element tag ∅ ∅ [].

(** The element that the markup [<div class="spinner"></div>] denotes. *)
Definition spinner : element :=
  set_attribute "class" "spinner" (createElement "div").

Definition showLoading : M unit :=
  let overlay := createElement "div" in
  let overlay := set_attribute "id" "loadingOverlay" overlay in
  let overlay := set_attribute "class" "spinner-overlay" overlay in
  let overlay := set_children [spinner] overlay in   (* innerHTML *)
  body_appendChild overlay.

Definition hideLoading : M unit :=
  overlay <- getElementById "loadingOverlay" ;;
  match overlay with
  | Some overlay => remove overlay
  | None => ret tt
  end.

End DOM.

(** ** Utility functions *)

Module Utility.
Import JSString.

(** *** [getAttendanceStatus] *)

Definition getAttendanceStatus (percentage : number) : string :=
  if ge percentage (lit 75) then "Good"
  else if ge percentage (lit 65) then "Warning"
  else "Critical".

(** *** [parseInt]

    [parseInt(string)] without a radix: white space at the start is
    skipped, then a sign, then [0x] or [0X], which selects radix 16;
    the digits that follow are read up to the first character that is
    not one.  The number returned is the integer read, rounded to the
    format. *)

(** The value of [c] as a digit in the given radix. *)
Definition radix_digit (radix : N) (c : ascii) : option N :=
  let n := Ascii.N_of_ascii c in
  let v :=
    if ((48 <=? n) && (n <=? 57))%N then Some (n - 48)%N
    else if ((97 <=? n) && (n <=? 122))%N then Some (n - 87)%N
    else if ((65 <=? n) && (n <=? 90))%N then Some (n - 55)%N
    else None in
  match v with
  | Some d => if (d <? radix)%N then Some d else None
  | None => None
  end.

(** The integer that the digits at the start of [s] denote; [acc] is
    the value of the digits read so far, [None] before the first. *)
Fixpoint leading_digits (radix : N) (s : string) (acc : option N) : option N :=
  match s with
  | EmptyString => acc
  | String c s' =>
      match radix_digit radix c with
      | Some d => leading_digits radix s' (Some (radix * default 0%N acc + d)%N)
      | None => acc
      end
  end.

Definition parseInt (string : string) : number :=
  let input := trimStart string in
  let '(sign, input) :=
    match input with
    | String "-" rest => (true, rest)
    | String "+" rest => (false, rest)
    | _ => (false, input)
    end in
  let '(radix, input) :=
    match input with
    | String "0" (String x rest) =>
        if Ascii.eqb x "x" || Ascii.eqb x "X" then (16%N, rest) else (10%N, input)
    | _ => (10%N, input)
    end in
  match leading_digits radix input None with
  | None => NaN
  | Some N0 => S754_zero sign
  | Some (Npos mathInt) =>
      binary_normalize prec emax (cond_Zopp sign (Zpos mathInt)) 0 false
  end.

(** *** The remainder [n % d]

    The result has the sign of [n] and is exact. *)
Definition rem (n d : number) : number :=
  match n, d with
  | S754_nan, _ | _, S754_nan => NaN
  | S754_infinity _, _ => NaN
  | _, S754_zero _ => NaN
  | _, S754_infinity _ => n
  | S754_zero _, _ => n
  | S754_finite sn mn en, S754_finite _ md ed =>
      let e := Z.min en ed in
      let r := (Zpos mn * 2 ^ (en - e)) mod (Zpos md * 2 ^ (ed - e)) in
      binary_normalize prec emax (cond_Zopp sn r) e sn
  end.

(** [x || y] on a number [x]: zeros and [NaN] are falsy. *)
Definition truthy (x : number) : bool :=
  match x with
  | S754_zero _ | S754_nan => false
  | _ => true
  end.

(** *** Numbers as strings

    The integer a number is, when it is one. *)
Definition integer_value (x : number) : option Z :=
  match x with
  | S754_zero _ => Some 0
  | S754_finite s m e =>
      if 0 <=? e then Some (cond_Zopp s (Zpos m * 2 ^ e))
      else if Zpos m mod 2 ^ (- e) =? 0 then Some (cond_Zopp s (Zpos m / 2 ^ (- e)))
      else None
  | _ => None
  end.

(** [String(x)] as a template literal computes it: an integer below
    [10 ^ 21] in magnitude is printed in decimal; the printing of the
    other finite numbers is left to the host. *)
Definition toString `{Host} (x : number) : string :=
  match x with
  | S754_nan => "NaN"
  | S754_infinity false => "Infinity"
  | S754_infinity true => "-Infinity"
  | _ =>
      match integer_value x with
      | Some z => if Z.abs z <? 10 ^ 21 then pretty z else Number_toString x
      | None => Number_toString x
      end
  end.

(** *** [formatTime] *)

Definition formatTime `{Host} (timeString : string) : string :=
  let parts := split ":" timeString in
  (* [hours, minutes] = parts: a missing element is [undefined] *)
  let hours := default "undefined" (parts !! 0%nat) in
  let minutes := default "undefined" (parts !! 1%nat) in
  let hour := parseInt hours in
  let ampm := if ge hour (lit 12) then "PM" else "AM" in
  let displayHour :=
    let r := rem hour (lit 12) in
    if truthy r then r else lit 12 in
  toString displayHour +:+ ":" +:+ minutes +:+ " " +:+ ampm.

End Utility.

(** ** Regular expressions *)

Module RegExp.

(** The patterns the script uses: character classes, concatenation
    and repetition.  [Never], which matches nothing, and [Alt] arise
    when a pattern is matched. *)
Inductive regex : Type :=
  | Never
  | Empty
  | Class (cls : ascii -> bool)
  | Seq (r1 r2 : regex)
  | Alt (r1 r2 : regex)
  | Star (r : regex).

(** [r+] *)
Definition Plus (r : regex) : regex := Seq r (Star r).

(** [r{n}] *)
Fixpoint Repeat (n : nat) (r : regex) : regex :=
  match n with
  | O => Empty
  | S n' => Seq r (Repeat n' r)
  end.

(** A single character. *)
Definition Char (c : ascii) : regex := Class (Ascii.eqb c).

(** The pattern matches the empty string. *)
Fixpoint nullable (r : regex) : bool :=
  match r with
  | Never => false
  | Empty => true
  | Class _ => false
  | Seq r1 r2 => nullable r1 && nullable r2
  | Alt r1 r2 => nullable r1 || nullable r2
  | Star _ => true
  end.

(** What is left of the pattern to match once [c] has been read. *)
Fixpoint derivative (c : ascii) (r : regex) : regex :=
  match r with
  | Never => Never
  | Empty => Never
  | Class cls => if cls c then Empty else Never
  | Seq r1 r2 =>
      if nullable r1
      then Alt (Seq (derivative c r1) r2) (derivative c r2)
      else Seq (derivative c r1) r2
  | Alt r1 r2 => Alt (derivative c r1) (derivative c r2)
  | Star r1 => Seq (derivative c r1) (Star r1)
  end.

(** [/^r$/.test(s)]: the pattern matches the whole of [s]. *)
Fixpoint test (r : regex) (s : string) : bool :=
  match s with
  | EmptyString => nullable r
  | String c s' => test (derivative c r) s'
  end.

End RegExp.

(** ** Data validation *)

Module Validation.
Import JSString RegExp.

(** [[0-9]] *)
Definition digit (c : ascii) : bool :=
  let n := Ascii.N_of_ascii c in ((48 <=? n) && (n <=? 57))%N.

(** [[A-Z0-9]] *)
Definition upper_or_digit (c : ascii) : bool :=
  let n := Ascii.N_of_ascii c in
  ((65 <=? n) && (n <=? 90))%N || digit c.

(** [[^\s@]] *)
Definition not_space_or_at (c : ascii) : bool :=
  negb (is_white_space c || Ascii.eqb c "@").

(** [/^[^\s@]+@[^\s@]+\.[^\s@]+$/] *)
Definition email_pattern : regex :=
  Seq (Plus (Class not_space_or_at))
    (Seq (Char "@")
       (Seq (Plus (Class not_space_or_at))
          (Seq (Char ".") (Plus (Class not_space_or_at))))).

Definition validateEmail (email : string) : bool := test email_pattern email.

(** [/^[0-9]{10}$/] *)
Definition phone_pattern : regex := Repeat 10 (Class digit).

Definition validatePhone (phone : string) : bool := test phone_pattern phone.

(** [/^[A-Z0-9]+$/] *)
Definition roll_number_pattern : regex := Plus (Class upper_or_digit).

Definition validateRollNumber (rollNumber : string) : bool :=
  test roll_number_pattern rollNumber.

End Validation.

(** ** The sidebar *)

Module Sidebar.
Import DOM.

(** *** Class names *)

(** ASCII white space, which separates the names of a [class]
    attribute: tab, line feed, form feed, carriage return and space. *)
Definition is_ascii_space (c : ascii) : bool :=
  let n := Ascii.N_of_ascii c in
  ((n =? 9) || (n =? 10) || (n =? 12) || (n =? 13) || (n =? 32))%N.

(** The pieces of [s] between white-space characters, empty ones
    included. *)
Fixpoint pieces (s : string) : list string :=
  match s with
  | EmptyString => [EmptyString]
  | String c s' =>
      if is_ascii_space c then EmptyString :: pieces s'
      else
        match pieces s' with
        | [] => [String c EmptyString]
        | w :: ws => String c w :: ws
        end
  end.

Definition split_on_space (s : string) : list string :=
  filter (fun w => w <> EmptyString) (pieces s).

(** An ordered set: each name once, at the place of its first
    occurrence. *)
Definition ordered_set (l : list string) : list string :=
  fold_left (fun set t => if bool_decide (t ∈ set) then set else set ++ [t]) l [].

(** [el.classList] *)
Definition classList (el : element) : list string :=
  ordered_set (split_on_space (default EmptyString (attributes el !! "class"))).

(** The names of a set joined by single spaces. *)
Fixpoint serialize (set : list string) : string :=
  match set with
  | [] => EmptyString
  | [t] => t
  | t :: set' => t +:+ " " +:+ serialize set'
  end.

(** [el.classList.toggle(token)], for a token that is a valid name:
    the token is removed if it is in the set and added at the end if
    not, and the [class] attribute is set to the names of the new set. *)
Definition classList_toggle (token : string) (el : element) : element :=
  let set := classList el in
  if bool_decide (token ∈ set)
  then set_attribute "class" (serialize (filter (fun t => t <> token) set)) el
  else set_attribute "class" (serialize (set ++ [token])) el.

(** The selector [.name] *)
Definition has_class (name : string) (el : element) : bool :=
  bool_decide (name ∈ classList el).

(** [document.querySelector('.name')]: the first match, or [null]. *)
Definition querySelector_class (name : string) (d : document) : option ref :=
  head (select_forest (has_class name) O (body d)).

(** *** Inline style *)





(** *** [toggleSidebar]

    The state is the global variable [sidebarOpen] and the document.
    A call returns or throws a [TypeError], which the use of a property
    of [null] raises; the state reached is kept in both cases. *)
Record page := Page {
  sidebarOpen : bool;
  page_document : document
}.




(** *** [toggleMobileMenu] *)

Definition toggleMobileMenu : M unit :=
  fun d =>
    match querySelector_class "sidebar" d with
    | None => Throw "TypeError"
    | Some sidebar =>
        Normal (tt, Document (cookie d)
                      (update_ref (classList_toggle "active") sidebar (body d)))
    end.

End Sidebar.

(** * Part II: notions used to state and prove the properties *)

(** ** The binary64 format *)

Module Binary64.

(** The rational [m * 2 ^ e]. *)
Definition F (m e : Z) : Q := (inject_Z m * 2 ^ e)%Q.

(** A positive mantissa with the exponent the format assigns to it. *)
Definition canon (m e : Z) : Prop :=
  0 < m /\ fexp prec emax (Zdigits2 m + e) = e.

(** A positive finite number of the format. *)
Definition posfin (x : number) : Prop :=
  exists (p : positive) (e : Z),
    x = S754_finite false p e /\ canon (Zpos p) e /\ e <= emax - prec.

(** A result that is [+0], a positive finite number of the format, or
    [+Infinity]. *)
Definition nonneg_result (x : number) : Prop :=
  x = S754_zero false \/ posfin x \/ x = S754_infinity false.

(** The mantissa of the largest finite number, [(2 ^ 53 - 1) * 2 ^ 971]. *)
Definition max_mantissa : positive := 9007199254740991.

(** Some bit has been shifted out, or the value was inexact before. *)
Definition inexact (mrs : shr_record) : bool := shr_r mrs || shr_s mrs.

(** [shifted k a b]: [b] is [a] shifted right by [k] bits. *)
Definition shifted (k : Z) (a b : shr_record) : Prop :=
  shr_m b = shr_m a / 2 ^ k
  /\ (inexact b = true -> inexact a = true \/ shr_m a mod 2 ^ k <> 0).

(** The result of [binary_round_aux], from the mantissa [m1] and the
    exponent [e1] reached after the first shift and the rounding step. *)
Definition renormalized (s : bool) (m1 e1 : Z) : number :=
  let n2 := Z.max (fexp prec emax (Zdigits2 m1 + e1) - e1) 0 in
  match m1 / 2 ^ n2 with
  | Z0 => S754_zero s
  | Zpos p =>
      if e1 + n2 <=? emax - prec then S754_finite s p (e1 + n2)
      else S754_infinity s
  | Zneg _ => S754_nan
  end.

(** A canonical mantissa and exponent as a number: infinite when the
    exponent is out of range. *)
Definition rounded (s : bool) (p : positive) (e : Z) : number :=
  if e <=? emax - prec then S754_finite s p e else S754_infinity s.

(** The exponent at which [SFdiv] computes the integer quotient. *)
Definition div_exponent (m1 e1 m2 e2 : Z) : Z :=
  Z.min (fexp prec emax (Zdigits2 m1 + e1 - (Zdigits2 m2 + e2))) (e1 - e2).

End Binary64.

(** ** Decimal numerals *)

Module Numerals.

(** A string without a decimal point. *)
Fixpoint no_point (s : string) : bool :=
  match s with
  | EmptyString => true
  | String c s' => negb (Ascii.eqb c ".") && no_point s'
  end.

(** The last two digits of [n]. *)
Definition last_two (n : N) : string :=
  String (pretty_N_char ((n `div` 10) `mod` 10)%N)
    (String (pretty_N_char (n `mod` 10)%N) EmptyString).

(** [n] is the integer nearest to [w], the larger one when two integers
    are equally near. *)
Definition nearest_integer (n : Z) (w : Q) : Prop :=
  (w - (1 # 2) < inject_Z n /\ inject_Z n <= w + (1 # 2))%Q.

End Numerals.

(** ** Trees of elements *)

Module Tree.
Import DOM.

(** The update of [update_ref] seen from the element it goes through:
    the element itself for the empty reference, one of its descendants
    otherwise. *)
Definition update_in (f : element -> element) (r : ref) (el : element) : element :=
  match r with
  | [] => f el
  | _ => set_children (update_ref f r (children el)) el
  end.

(** [g] applied to the tag, attributes and style of every element of a
    tree. *)
Fixpoint map_element (g : element -> element) (el : element) : element :=
  match el with
  | Element t a s cs =>
      let el' := g el in
      Element (tagName el') (attributes el') (style el')
        (map (map_element g) cs)
  end.

(** [h] applied to the elements that [P] selects, the others kept. *)
Definition on_selected (P : element -> bool) (h : element -> element)
    (el : element) : element :=
  if P el then h el else el.

(** [update_ref] as a step of a pass over a list of references. *)
Definition update_at (h : element -> element) (forest : list element) (r : ref)
    : list element :=
  update_ref h r forest.

(** What a filter does to a row: [v] is the argument of the filter,
    [key] the name under [dataset]. *)
Definition row_action (key v : string) (el : element) : element :=
  set_display
    (if String.eqb v "all" || bool_decide (dataset el key = Some v)
     then "" else "none") el.

(** What a filter does to an element: rows are the elements that carry
    the attribute [attr]. *)
Definition filter_element (attr key v : string) (el : element) : element :=
  if matches (HasAttribute attr) el then row_action key v el else el.

(** An element without the [display] declaration of its inline style. *)
Definition erase_display (el : element) : element :=
  Element (tagName el) (attributes el) (delete "display" (style el)) (children el).

(** Two forests that differ at most in [display] declarations: the same
    elements in the same order, with the same tags, attributes and
    other style declarations. *)
Definition same_but_display (f1 f2 : list element) : Prop :=
  map (map_element erase_display) f1 = map (map_element erase_display) f2.

(** A step of the script that changes nothing but [display]
    declarations: it returns normally, and every selector that does
    not test the [style] attribute finds the same elements in the same
    order afterwards. *)
Definition changes_display_only (m : M unit) (d : document) : Prop :=
  exists d' : document,
    m d = Normal (tt, d')
    /\ cookie d' = cookie d
    /\ same_but_display (body d') (body d)
    /\ forall sel : selector,
         sel <> HasAttribute "style" ->
         select_forest (matches sel) O (body d')
         = select_forest (matches sel) O (body d).

(** The number of elements that [P] selects in the tree of [el]. *)
Definition weight (P : element -> bool) (el : element) : nat :=
  length (select_element P el).

(** Removing an element that [P] selects takes it and the selected
    elements below it out of the selection, and nothing else. *)
Definition removable (P : element -> bool) (forest : list element) : Prop :=
  forall r : ref,
    r ∈ select_forest P O forest ->
    exists el : element,
      lookup_ref r forest = Some el /\ P el = true
      /\ (length (select_forest P O (remove_ref r forest)) + weight P el
          = length (select_forest P O forest))%nat.

(** The number of elements of the document that a selector matches. *)
Definition count (sel : selector) (d : document) : nat :=
  length (select_forest (matches sel) O (body d)).

(** The overlay element that [showLoading] builds. *)
Definition overlay : element :=
  set_children [spinner]
    (set_attribute "class" "spinner-overlay"
       (set_attribute "id" "loadingOverlay" (createElement "div"))).

(** A table for examples: three attendance rows, the second of them
    hidden, and a row without [data-*] attributes. *)
Definition sample_row (day status : string) : element :=
  set_attribute "data-status" status
    (set_attribute "data-day" day (createElement "tr")).

Definition sample_table : document :=
  Document ""
    [ Element "table" ∅ ∅
        [ sample_row "mon" "present";
          set_display "none" (sample_row "mon" "absent");
          sample_row "tue" "absent";
          createElement "tr" ] ].

(** The [display] of the children of each element of the body, after
    a step of the script. *)
Definition displays (c : completion (unit * document)) : list (list string) :=
  match c with
  | Normal (_, d) => (fun el => display <$> children el) <$> body d
  | Throw _ => []
  end.

(** An entry of the cookie string that, trimmed, starts with [name=]. *)
Definition entry_matches (name entry : string) : bool :=
  String.prefix (name +:+ "=") (JSString.trim entry).

End Tree.

(** ** The order of numbers *)

Module Order.

(** The place of a number other than [NaN] in the order that the
    comparisons of the script test: the infinities at the ends, the
    zeros together in the middle, the finite numbers by exponent and
    then by mantissa. *)
Definition key (x : number) : option (Z * Z * Z) :=
  match x with
  | S754_nan => None
  | S754_infinity true => Some (-2, 0, 0)
  | S754_finite true m e => Some (-1, - e, - Zpos m)
  | S754_zero _ => Some (0, 0, 0)
  | S754_finite false m e => Some (1, e, Zpos m)
  | S754_infinity false => Some (2, 0, 0)
  end.

Definition key_compare (a b : Z * Z * Z) : comparison :=
  let '(a1, a2, a3) := a in
  let '(b1, b2, b3) := b in
  match a1 ?= b1 with
  | Eq => match a2 ?= b2 with
          | Eq => a3 ?= b3
          | c => c
          end
  | c => c
  end.

Definition key_lt (a b : Z * Z * Z) : Prop := key_compare a b = Lt.
Definition key_le (a b : Z * Z * Z) : Prop := key_compare a b <> Gt.

(** The three classes of [getAttendanceColor] and [getAttendanceStatus],
    from the worst to the best. *)
Definition color_rank (c : string) : nat :=
  if String.eqb c "success" then 2
  else if String.eqb c "warning" then 1
  else 0.

Definition status_rank (c : string) : nat :=
  if String.eqb c "Good" then 2
  else if String.eqb c "Warning" then 1
  else 0.

End Order.

(** ** Characters of a string *)

Module Text.

(** [c] does not occur in [s]. *)
Fixpoint without (c : ascii) (s : string) : bool :=
  match s with
  | EmptyString => true
  | String x s' => negb (Ascii.eqb x c) && without c s'
  end.

(** Every character of [s] is in the class. *)
Fixpoint all (cls : ascii -> bool) (s : string) : bool :=
  match s with
  | EmptyString => true
  | String c s' => cls c && all cls s'
  end.

(** The number of occurrences of [c] in [s]. *)
Fixpoint occurrences (c : ascii) (s : string) : nat :=
  match s with
  | EmptyString => O
  | String x s' => (if Ascii.eqb x c then 1 else 0) + occurrences c s'
  end.

End Text.

(** ** The three row filters *)

Module Rows.
Import DOM.

Inductive filter : Type := Day | Status | Semester.

(** The attribute a filter selects its rows by. *)
Definition filter_attribute (f : filter) : string :=
  match f with
  | Day => "data-day"
  | Status => "data-status"
  | Semester => "data-semester"
  end.

(** The name under [dataset] that it compares with its argument. *)
Definition filter_key (f : filter) : string :=
  match f with
  | Day => "day"
  | Status => "status"
  | Semester => "semester"
  end.

Definition run_filter (f : filter) (v : string) : M unit :=
  match f with
  | Day => filterByDay v
  | Status => filterByStatus v
  | Semester => filterBySemester v
  end.

(** The rows a filter called with [v] shows. *)
Definition shown (f : filter) (v : string) (el : element) : bool :=
  String.eqb v "all" || bool_decide (attributes el !! filter_attribute f = Some v).

End Rows.

(** ** Cookie entries *)

Module Cookies.
Import JSString Text.

(** The name of a cookie entry: the text before its first [=], once
    the entry is trimmed; none when the entry has no [=]. *)
Definition cookie_key (entry : string) : option string :=
  match split "=" (trim entry) with
  | k :: _ :: _ => Some k
  | _ => None
  end.

(** The value of a hexadecimal digit. *)
Definition hex_value (c : ascii) : option N :=
  let n := Ascii.N_of_ascii c in
  if ((48 <=? n) && (n <=? 57))%N then Some (n - 48)%N
  else if ((65 <=? n) && (n <=? 70))%N then Some (n - 55)%N
  else if ((97 <=? n) && (n <=? 102))%N then Some (n - 87)%N
  else None.

(** [decodeURIComponent] on the strings in which every [%] begins the
    escape of a character below 128 or a malformed escape: a character
    other than [%] is copied, [%] with two hexadecimal digits of value
    below 128 gives the character of that code, and [%] without two
    hexadecimal digits after it is a malformed escape, for which the
    function throws a [URIError].  An escaped byte from 128 on begins
    a UTF-8 sequence of several escapes, whose character this function
    does not compute: it answers such strings with the error as well,
    and is not to be used on them. *)
Fixpoint decode (s : string) : completion string :=
  match s with
  | EmptyString => Normal EmptyString
  | String c rest =>
      if Ascii.eqb c "%" then
        match rest with
        | String high (String low rest') =>
            match hex_value high, hex_value low with
            | Some h, Some l =>
                if (16 * h + l <? 128)%N then
                  match decode rest' with
                  | Normal r => Normal (String (Ascii.ascii_of_N (16 * h + l)) r)
                  | Throw e => Throw e
                  end
                else Throw "URIError"
            | _, _ => Throw "URIError"
            end
        | _ => Throw "URIError"
        end
      else
        match decode rest with
        | Normal r => Normal (String c r)
        | Throw e => Throw e
        end
  end.

(** A host for examples with percent escapes: [decodeURIComponent]
    as above, numbers printed as by [sample_host]. *)
Definition escape_host : Host := {|
  Number_toString := @Number_toString sample_host;
  decodeURIComponent := decode
|}.

End Cookies.

(** ** The strings a pattern matches *)

Module Language.
Import RegExp Text.

Inductive lang : regex -> string -> Prop :=
  | lang_empty : lang Empty ""
  | lang_class (cls : ascii -> bool) (c : ascii) :
      cls c = true -> lang (Class cls) (String c "")
  | lang_seq (r1 r2 : regex) (s1 s2 : string) :
      lang r1 s1 -> lang r2 s2 -> lang (Seq r1 r2) (s1 +:+ s2)
  | lang_alt_l (r1 r2 : regex) (s : string) : lang r1 s -> lang (Alt r1 r2) s
  | lang_alt_r (r1 r2 : regex) (s : string) : lang r2 s -> lang (Alt r1 r2) s
  | lang_star_nil (r : regex) : lang (Star r) ""
  | lang_star_cons (r : regex) (s1 s2 : string) :
      lang r s1 -> lang (Star r) s2 -> lang (Star r) (s1 +:+ s2).

(** A string of characters that are neither white space nor [@], with
    at least one character. *)
Definition word (s : string) : Prop :=
  s <> "" /\ all Validation.not_space_or_at s = true.

End Language.

(** ** The twelve-hour clock *)

Module Clock.

(** The hour [h] in two digits. *)
Definition two_digits (h : nat) : string :=
  if (h <? 10)%nat then "0" +:+ pretty h else pretty h.

(** The hour of the twelve-hour clock: 12 for 0 and 12. *)
Definition hour12 (h : nat) : nat :=
  if (h mod 12 =? 0)%nat then 12%nat else (h mod 12)%nat.

Definition meridiem (h : nat) : string :=
  if (h <? 12)%nat then "AM" else "PM".

End Clock.

(** ** Elements seen without their children *)

Module Shape.
Import DOM.

(** The tag, the attributes and the inline style of an element. *)
Definition fields (el : element) : string * gmap string string * gmap string string :=
  (tagName el, attributes el, style el).


End Shape.

(** ** Class names and sample pages *)

Module Classes.
Import DOM Sidebar Text.

(** A class name: not empty, without white space. *)
Definition valid_name (t : string) : Prop :=
  t <> "" /\ all (fun c => negb (is_ascii_space c)) t = true.

(** A set of class names, as [classList] holds it. *)
Definition valid_set (set : list string) : Prop :=
  NoDup set /\ Forall valid_name set.

(** A page with a sidebar and a main content, the sidebar open. *)
Definition sample_page : page :=
  Page true
    (Document ""
       [ set_attribute "class" "sidebar" (createElement "nav");
         set_attribute "class" "main-content" (createElement "div") ]).

End Classes.

(** * Part III: properties *)

Import Binary64 Numerals Tree.

(** ** Loops *)

Section WhileFacts.
Context {St : Type}.
Variable cond : St -> bool.
Variable body : St -> St.

(** A loop whose condition first fails after [k] executions of the body
    returns the state reached then, whatever allowance of at least [k]
    executions it is given. *)
Lemma while_loop_exit (k : nat) : forall (st : St) (n : nat),
  (forall j, (j < k)%nat -> cond (Nat.iter j body st) = true) ->
  cond (Nat.iter k body st) = false ->
  (k <= n)%nat ->
  Attendance.while_loop cond body n st = Some (Nat.iter k body st).
Proof.
  induction k as [|k IH]; intros st n Hbefore Hexit Hn.
  - simpl in Hexit. destruct n; simpl; rewrite Hexit; reflexivity.
  - destruct n as [|n]; [lia|].
    pose proof (Hbefore O ltac:(lia)) as H0. simpl in H0.
    cbn [Attendance.while_loop]. rewrite H0.
    rewrite Nat.iter_succ_r. apply IH.
    + intros j Hj. rewrite <- Nat.iter_succ_r. apply Hbefore. lia.
    + rewrite <- Nat.iter_succ_r. exact Hexit.
    + lia.
Qed.

(** A boolean predicate that is false at [n] has a least index, at most
    [n], at which it is false. *)
Lemma least_false (P : nat -> bool) (n : nat) :
  P n = false ->
  exists k, (k <= n)%nat /\ P k = false /\ forall j, (j < k)%nat -> P j = true.
Proof.
  induction n as [n IH] using lt_wf_ind. intros Hn.
  destruct (forallb P (seq 0 n)) eqn:Hall.
  - exists n. split; [lia|]. split; [exact Hn|].
    intros j Hj. rewrite forallb_forall in Hall. apply Hall.
    apply in_seq. lia.
  - assert (Hex : exists m, (m < n)%nat /\ P m = false).
    { destruct (existsb (fun m => negb (P m)) (seq 0 n)) eqn:Hsome.
      - apply existsb_exists in Hsome. destruct Hsome as (m & Hm & HP).
        apply in_seq in Hm. exists m. split; [lia|].
        destruct (P m); [discriminate|reflexivity].
      - exfalso. rewrite <- Bool.not_true_iff_false in Hall. apply Hall.
        apply forallb_forall. intros m Hm.
        destruct (P m) eqn:HP; [reflexivity|].
        rewrite <- Bool.not_true_iff_false in Hsome. exfalso. apply Hsome.
        apply existsb_exists. exists m. rewrite HP. auto. }
    destruct Hex as (m & Hm & HPm).
    destruct (IH m Hm HPm) as (k & Hk & HPk & Hleast).
    exists k. split; [lia|]. auto.
Qed.
End WhileFacts.

(** ** The required-classes loop *)

Section RequiredClasses.
Import Attendance.

(** The counter [required] holds the exact integers 0, 1, ..., 100. *)
Lemma counter_table :
  forallb (fun k =>
    bool_decide (projected (lit 0) k = lit (Z.of_nat k))
    && Bool.eqb (lt (lit (Z.of_nat k)) (lit 100)) (k <? 100)%nat
    && le (lit (Z.of_nat k)) (lit 100)) (seq 0 101) = true.
Proof. vm_compute. reflexivity. Qed.

Lemma counter_facts (k : nat) :
  (k <= 100)%nat ->
  projected (lit 0) k = lit (Z.of_nat k)
  /\ lt (lit (Z.of_nat k)) (lit 100) = (k <? 100)%nat
  /\ le (lit (Z.of_nat k)) (lit 100) = true.
Proof.
  intros Hk. pose proof counter_table as T.
  rewrite forallb_forall in T. specialize (T k).
  assert (Hin : In k (seq 0 101)) by (apply in_seq; lia).
  apply T in Hin. apply andb_prop in Hin as [Hin H3].
  apply andb_prop in Hin as [H1 H2].
  apply bool_decide_eq_true in H1. apply Bool.eqb_prop in H2. auto.
Qed.

Lemma loop_state (t a : number) (k : nat) :
  Nat.iter k loop_body (loop_init t a)
  = Locals (projected (lit 0) k) (projected t k) (projected a k).
Proof.
  induction k as [|k IH]; [reflexivity|].
  cbn [Nat.iter nat_rect]. unfold Nat.iter in IH. rewrite IH. reflexivity.
Qed.

Lemma loop_cond_state (t a p : number) (k : nat) :
  (k <= 100)%nat ->
  loop_cond p (Nat.iter k loop_body (loop_init t a))
  = lt (projectedPercentage t a k) p && (k <? 100)%nat.
Proof.
  intros Hk. rewrite loop_state. unfold loop_cond. cbn [required futureTotal futureAttended].
  destruct (counter_facts k Hk) as (-> & -> & _). reflexivity.
Qed.

(** The run of the loop: it leaves after some [k <= 100] executions of
    the body, with [required = k]; the comparison of the loop condition
    held for every smaller count and, when [k < 100], fails at [k]. *)
Lemma calculateRequiredClasses_run (t a p : number) :
  exists k : nat,
    (k <= 100)%nat
    /\ (forall n, (100 <= n)%nat ->
          calculateRequiredClasses_within n t a p = Some (lit (Z.of_nat k)))
    /\ (forall j, (j < k)%nat -> lt (projectedPercentage t a j) p = true)
    /\ ((k < 100)%nat -> lt (projectedPercentage t a k) p = false).
Proof.
  set (P := fun j => loop_cond p (Nat.iter j loop_body (loop_init t a))).
  assert (H100 : P 100%nat = false).
  { unfold P. rewrite loop_cond_state by lia. apply andb_false_r. }
  destruct (least_false P 100 H100) as (k & Hk & Hexit & Hbefore).
  exists k. split; [exact Hk|]. split; [|split].
  - intros n Hn. unfold calculateRequiredClasses_within.
    rewrite (while_loop_exit _ _ k) by (auto; lia).
    rewrite loop_state.
    change (Some (projected (lit 0) k) = Some (lit (Z.of_nat k))).
    destruct (counter_facts k Hk) as (-> & _). reflexivity.
  - intros j Hj. specialize (Hbefore j Hj). unfold P in Hbefore.
    rewrite loop_cond_state in Hbefore by lia.
    apply andb_prop in Hbefore. tauto.
  - intros Hlt. unfold P in Hexit. rewrite loop_cond_state in Hexit by lia.
    apply Nat.ltb_lt in Hlt. rewrite Hlt, andb_true_r in Hexit. exact Hexit.
Qed.

End RequiredClasses.

(** ** Comparisons *)

Lemma lit_0 : lit 0 = S754_zero false.
Proof. reflexivity. Qed.

Lemma lit_1 : lit 1 = S754_finite false 4503599627370496 (-52).
Proof. vm_compute. reflexivity. Qed.

Lemma lit_65 : lit 65 = S754_finite false 4573968371548160 (-46).
Proof. vm_compute. reflexivity. Qed.

Lemma lit_75 : lit 75 = S754_finite false 5277655813324800 (-46).
Proof. vm_compute. reflexivity. Qed.

Lemma lit_100 : lit 100 = S754_finite false 7036874417766400 (-46).
Proof. vm_compute. reflexivity. Qed.

(** A comparison is undefined exactly when an operand is [NaN]. *)
Lemma SFcompare_None (x y : number) :
  SFcompare x y = None <-> is_nan x = true \/ is_nan y = true.
Proof.
  destruct x as [sx|sx| |sx mx ex], y as [sy|sy| |sy my ey]; simpl;
    intuition discriminate.
Qed.

Lemma ge_true_lt (x y : number) : ge x y = true -> lt x y = false.
Proof. unfold ge, lt. destruct (SFcompare x y) as [[]|]; congruence. Qed.

Lemma lt_true_ge (x y : number) : lt x y = true -> ge x y = false.
Proof. unfold ge, lt. destruct (SFcompare x y) as [[]|]; congruence. Qed.

(** On numbers other than [NaN], [>=] is the negation of [<]. *)
Lemma ge_negb_lt (x y : number) :
  is_nan x = false -> is_nan y = false -> ge x y = negb (lt x y).
Proof.
  intros Hx Hy. unfold ge, lt.
  destruct (SFcompare x y) as [[]|] eqn:E; try reflexivity.
  apply SFcompare_None in E. destruct E; congruence.
Qed.

Lemma ge_not_nan (x y : number) :
  ge x y = true -> is_nan x = false /\ is_nan y = false.
Proof.
  unfold ge. destruct (SFcompare x y) as [c|] eqn:E; [|discriminate].
  intros _. destruct x, y; simpl in *; try discriminate; auto.
Qed.

Lemma compare_cont_Eq (m c : positive) :
  PosDef.Pos.compare_cont Eq m c = Pos.compare m c.
Proof. reflexivity. Qed.

Lemma lt_65_lt_75 (p : number) :
  lt p (lit 65) = true -> lt p (lit 75) = true.
Proof.
  rewrite lit_65, lit_75. unfold lt.
  destruct p as [s|s| |s m e]; cbn [SFcompare].
  1-3: try (destruct s; congruence); auto.
  destruct s; [congruence|].
  destruct (e ?= -46); [|congruence|congruence].
  rewrite !compare_cont_Eq.
  destruct (Pos.compare m 4573968371548160) eqn:E; [congruence| |congruence].
  intros _.
  assert (H : (m < 5277655813324800)%positive)
    by (eapply Pos.lt_trans; [exact E | reflexivity]).
  rewrite ?compare_cont_Eq. rewrite H. reflexivity.
Qed.

(** ** The colour classifier *)

Section AttendanceColor.
Import Attendance.

Lemma getAttendanceColor_success (p : number) :
  getAttendanceColor p = "success" <-> ge p (lit 75) = true.
Proof.
  unfold getAttendanceColor.
  destruct (ge p (lit 75)); [tauto|].
  destruct (ge p (lit 65)); split; discriminate.
Qed.

Lemma getAttendanceColor_warning (p : number) :
  getAttendanceColor p = "warning"
  <-> le (lit 65) p = true /\ lt p (lit 75) = true.
Proof.
  unfold getAttendanceColor, le.
  destruct (ge p (lit 75)) eqn:H75.
  - apply ge_true_lt in H75. rewrite H75. split; [discriminate|].
    intros [_ ?]; discriminate.
  - destruct (ge p (lit 65)) eqn:H65.
    + split; [intros _|reflexivity]. split; [reflexivity|].
      apply ge_not_nan in H65 as [Hp _].
      rewrite ge_negb_lt in H75 by (rewrite ?lit_75; auto).
      destruct (lt p (lit 75)); [reflexivity|discriminate].
    + split; [discriminate|]. intros [? _]; discriminate.
Qed.

Lemma getAttendanceColor_danger (p : number) :
  getAttendanceColor p = "danger"
  <-> lt p (lit 65) = true \/ is_nan p = true.
Proof.
  unfold getAttendanceColor. split.
  - destruct (ge p (lit 75)); [discriminate|].
    destruct (ge p (lit 65)) eqn:H65; [discriminate|]. intros _.
    destruct (is_nan p) eqn:Hp; [auto|left].
    rewrite ge_negb_lt in H65 by (rewrite ?lit_65; auto).
    destruct (lt p (lit 65)); [reflexivity|discriminate].
  - intros [Hlt|Hnan].
    + rewrite (lt_true_ge _ _ (lt_65_lt_75 p Hlt)), (lt_true_ge _ _ Hlt).
      reflexivity.
    + destruct p; try discriminate. reflexivity.
Qed.

End AttendanceColor.

(** ** Rounding to binary64 *)

Section Digits.

Lemma fexp_eq (e : Z) : fexp prec emax e = Z.max (e - 53) (-1074).
Proof. reflexivity. Qed.

Lemma digits2_pos_bounds (p : positive) :
  2 ^ (Zpos (digits2_pos p) - 1) <= Zpos p < 2 ^ Zpos (digits2_pos p).
Proof.
  induction p as [p IH|p IH|]; cbn [digits2_pos].
  - rewrite Pos2Z.inj_succ.
    replace (Z.succ (Zpos (digits2_pos p)) - 1) with (Z.succ (Zpos (digits2_pos p) - 1)) by lia.
    rewrite !Z.pow_succ_r by lia. lia.
  - rewrite Pos2Z.inj_succ.
    replace (Z.succ (Zpos (digits2_pos p)) - 1) with (Z.succ (Zpos (digits2_pos p) - 1)) by lia.
    rewrite !Z.pow_succ_r by lia. lia.
  - cbn. lia.
Qed.

Lemma Zdigits2_bounds (m : Z) :
  0 < m -> 2 ^ (Zdigits2 m - 1) <= m < 2 ^ Zdigits2 m.
Proof.
  destruct m as [|p|p]; try lia. intros _. apply digits2_pos_bounds.
Qed.

Lemma Zdigits2_pos (m : Z) : 0 < m -> 0 < Zdigits2 m.
Proof. destruct m; cbn; lia. Qed.

Lemma Zdigits2_unique (m k : Z) :
  2 ^ (k - 1) <= m < 2 ^ k -> 0 < k -> Zdigits2 m = k.
Proof.
  intros [Hlo Hhi] Hk.
  assert (Hm : 0 < m) by (pose proof (Z.pow_pos_nonneg 2 (k - 1)); lia).
  pose proof (Zdigits2_bounds m Hm) as [Dlo Dhi].
  pose proof (Zdigits2_pos m Hm) as Dpos.
  destruct (Z.lt_trichotomy (Zdigits2 m) k) as [H|[H|H]]; [|exact H|].
  - exfalso. assert (2 ^ Zdigits2 m <= 2 ^ (k - 1)) by (apply Z.pow_le_mono_r; lia). lia.
  - exfalso. assert (2 ^ k <= 2 ^ (Zdigits2 m - 1)) by (apply Z.pow_le_mono_r; lia). lia.
Qed.

Lemma Zdigits2_shift (m n : Z) :
  0 < m -> 0 <= n < Zdigits2 m -> Zdigits2 (m / 2 ^ n) = Zdigits2 m - n.
Proof.
  intros Hm Hn. pose proof (Zdigits2_bounds m Hm) as [Dlo Dhi].
  assert (Hp : 0 < 2 ^ n) by (apply Z.pow_pos_nonneg; lia).
  apply Zdigits2_unique; [|lia]. split.
  - apply Z.div_le_lower_bound; [lia|].
    rewrite <- Z.pow_add_r by lia. replace (n + (Zdigits2 m - n - 1)) with (Zdigits2 m - 1) by lia.
    exact Dlo.
  - apply Z.div_lt_upper_bound; [lia|].
    rewrite <- Z.pow_add_r by lia. replace (n + (Zdigits2 m - n)) with (Zdigits2 m) by lia.
    exact Dhi.
Qed.

Lemma Zdigits2_small (m n : Z) :
  0 <= m -> Zdigits2 m <= n -> m / 2 ^ n = 0.
Proof.
  intros Hm Hn. destruct (Z.eq_dec m 0) as [->|Hne].
  - apply Z.div_0_l. pose proof (Z.pow_pos_nonneg 2 n). cbn in Hn. lia.
  - pose proof (Zdigits2_bounds m ltac:(lia)) as [_ Dhi].
    pose proof (Zdigits2_pos m ltac:(lia)).
    apply Z.div_small. split; [lia|].
    assert (2 ^ Zdigits2 m <= 2 ^ n) by (apply Z.pow_le_mono_r; lia). lia.
Qed.

Lemma Zdigits2_mono (a b : Z) : 0 <= a <= b -> Zdigits2 a <= Zdigits2 b.
Proof.
  intros [Ha Hab]. destruct (Z.eq_dec a 0) as [->|Hne].
  - destruct b; cbn; lia.
  - pose proof (Zdigits2_bounds a ltac:(lia)) as [Alo _].
    pose proof (Zdigits2_bounds b ltac:(lia)) as [_ Bhi].
    pose proof (Zdigits2_pos a ltac:(lia)) as Apos.
    destruct (Z_lt_le_dec (Zdigits2 b) (Zdigits2 a)) as [H|H]; [exfalso|exact H].
    assert (2 ^ Zdigits2 b <= 2 ^ (Zdigits2 a - 1)).
    { pose proof (Zdigits2_pos b ltac:(lia)). apply Z.pow_le_mono_r; lia. }
    lia.
Qed.

End Digits.

Section Shifts.

Lemma shifted_trans (j k : Z) (a b c : shr_record) :
  0 <= j -> 0 <= k -> shifted j a b -> shifted k b c -> shifted (j + k) a c.
Proof.
  intros Hj Hk [Hab Iab] [Hbc Ibc].
  assert (Pj : 0 < 2 ^ j) by (apply Z.pow_pos_nonneg; lia).
  assert (Pk : 0 < 2 ^ k) by (apply Z.pow_pos_nonneg; lia).
  split.
  - rewrite Hbc, Hab, Z.pow_add_r by lia. apply Z.div_div; lia.
  - intros Hc. destruct (Ibc Hc) as [Hb|Hb].
    + destruct (Iab Hb) as [Ha|Ha]; [left; exact Ha|right].
      intros Hz. apply Ha.
      rewrite Z.pow_add_r in Hz by lia.
      apply Z.mod_divide in Hz; [|lia]. apply Z.mod_divide; [lia|].
      destruct Hz as [q Hq]. exists (q * 2 ^ k). lia.
    + right. intros Hz. apply Hb. rewrite Hab.
      rewrite Z.pow_add_r in Hz by lia.
      apply Z.mod_divide in Hz; [|lia]. destruct Hz as [q Hq].
      apply Z.mod_divide; [lia|]. exists q.
      replace (shr_m a) with (q * 2 ^ k * 2 ^ j) by lia.
      apply Z.div_mul. lia.
Qed.

Lemma shr_1_shifted (mrs : shr_record) :
  0 <= shr_m mrs -> shifted 1 mrs (shr_1 mrs).
Proof.
  destruct mrs as [m r s]. cbn [shr_m]. intros Hm.
  unfold shifted, inexact.
  destruct m as [|[p|p|]|p]; cbn [shr_1 shr_m shr_r shr_s]; try lia;
    change (2 ^ 1) with 2.
  - split; [reflexivity|]. rewrite orb_false_l. auto.
  - pose proof (Pos2Z.inj_xI p) as E.
    split; [|intros _; right]; Z.div_mod_to_equations; lia.
  - pose proof (Pos2Z.inj_xO p) as E.
    split; [Z.div_mod_to_equations; lia|]. rewrite orb_false_l. auto.
  - split; [reflexivity|]. intros _. right. intros H. vm_compute in H. discriminate.
Qed.

Lemma shr_1_nonneg (mrs : shr_record) :
  0 <= shr_m mrs -> 0 <= shr_m (shr_1 mrs).
Proof.
  intros Hm. destruct (shr_1_shifted mrs Hm) as [-> _].
  apply Z.div_pos; lia.
Qed.

Lemma iter_pos_shr_1 (p : positive) : forall mrs : shr_record,
  0 <= shr_m mrs ->
  shifted (Zpos p) mrs (SpecFloat.iter_pos shr_1 p mrs)
  /\ 0 <= shr_m (SpecFloat.iter_pos shr_1 p mrs).
Proof.
  induction p as [p IH|p IH|]; intros mrs Hm; cbn [SpecFloat.iter_pos].
  - pose proof (shr_1_shifted mrs Hm) as S1.
    pose proof (shr_1_nonneg mrs Hm) as N1.
    destruct (IH _ N1) as [S2 N2]. destruct (IH _ N2) as [S3 N3].
    split; [|exact N3].
    replace (Zpos p~1) with (1 + Zpos p + Zpos p) by lia.
    eapply shifted_trans; [lia|lia| |exact S3].
    eapply shifted_trans; [lia|lia|exact S1|exact S2].
  - destruct (IH _ Hm) as [S2 N2]. destruct (IH _ N2) as [S3 N3].
    split; [|exact N3].
    replace (Zpos p~0) with (Zpos p + Zpos p) by lia.
    eapply shifted_trans; [lia|lia|exact S2|exact S3].
  - split; [apply shr_1_shifted|apply shr_1_nonneg]; exact Hm.
Qed.

Lemma shifted_refl (mrs : shr_record) : shifted 0 mrs mrs.
Proof.
  split; [|auto]. change (2 ^ 0) with 1. symmetry. apply Z.div_1_r.
Qed.

(** [shr] divides the mantissa by [2 ^ n] and adds [n] to the exponent
    when [n] is positive, and does nothing otherwise. *)
Lemma shr_spec (mrs : shr_record) (e n : Z) :
  0 <= shr_m mrs ->
  shifted (Z.max n 0) mrs (fst (shr mrs e n))
  /\ 0 <= shr_m (fst (shr mrs e n))
  /\ snd (shr mrs e n) = e + Z.max n 0.
Proof.
  intros Hm. destruct n as [|p|p]; cbn [shr fst snd].
  - split; [apply shifted_refl|]. split; [exact Hm|]. lia.
  - destruct (iter_pos_shr_1 p mrs Hm) as [S1 N1].
    rewrite Z.max_l by lia. auto.
  - rewrite Z.max_r by lia. split; [apply shifted_refl|]. split; [exact Hm|]. lia.
Qed.

Lemma shr_record_of_loc_m (m : Z) (l : location) :
  shr_m (shr_record_of_loc m l) = m.
Proof. destruct l as [|[]]; reflexivity. Qed.

Lemma shr_record_of_loc_inexact (m : Z) (l : location) :
  inexact (shr_record_of_loc m l) = true -> l <> loc_Exact.
Proof. destruct l as [|[]]; cbn; congruence. Qed.

(** Rounding to nearest, ties to even, keeps the mantissa or adds one,
    and adds one only when the value was not exact. *)
Lemma round_nearest_even_cases (mrs : shr_record) :
  let m1 := round_nearest_even (shr_m mrs) (loc_of_shr_record mrs) in
  m1 = shr_m mrs \/ (m1 = shr_m mrs + 1 /\ inexact mrs = true).
Proof.
  destruct mrs as [m [|] [|]]; cbn; auto.
  destruct (Z.even m); auto.
Qed.

End Shifts.

Section RoundAux.

Lemma binary_round_aux_unfold (s : bool) (m e : Z) (l : location) :
  0 <= m ->
  let n1 := Z.max (fexp prec emax (Zdigits2 m + e) - e) 0 in
  let ms := m / 2 ^ n1 in
  exists m1 : Z,
    (m1 = ms \/ (m1 = ms + 1 /\ (l <> loc_Exact \/ m mod 2 ^ n1 <> 0)))
    /\ binary_round_aux prec emax s m e l = renormalized s m1 (e + n1).
Proof.
  intros Hm n1 ms. unfold binary_round_aux, shr_fexp.
  pose proof (shr_spec (shr_record_of_loc m l) e
                (fexp prec emax (Zdigits2 m + e) - e)) as S1.
  rewrite shr_record_of_loc_m in S1. specialize (S1 Hm).
  destruct (shr (shr_record_of_loc m l) e _) as [mrs' e'].
  cbn [fst snd] in S1. destruct S1 as ([Sm Si] & N1 & ->).
  rewrite shr_record_of_loc_m in Sm, Si.
  fold n1 in Sm, Si |- *. fold ms in Sm.
  set (m1 := round_nearest_even (shr_m mrs') (loc_of_shr_record mrs')).
  assert (Hm1 : m1 = ms \/ (m1 = ms + 1 /\ (l <> loc_Exact \/ m mod 2 ^ n1 <> 0))).
  { destruct (round_nearest_even_cases mrs') as [H|[H I]]; fold m1 in H.
    - left. congruence.
    - right. split; [congruence|].
      destruct (Si I) as [I'|I']; [left|right; exact I'].
      apply shr_record_of_loc_inexact in I'. exact I'. }
  exists m1. split; [exact Hm1|].
  assert (Hm1' : 0 <= m1).
  { assert (0 <= ms) by (apply Z.div_pos; [lia|apply Z.pow_pos_nonneg; lia]).
    destruct Hm1 as [->|[-> _]]; lia. }
  pose proof (shr_spec (shr_record_of_loc m1 loc_Exact) (e + n1)
                (fexp prec emax (Zdigits2 m1 + (e + n1)) - (e + n1))) as S2.
  cbn [shr_record_of_loc shr_m] in S2. specialize (S2 Hm1').
  cbn [shr_record_of_loc].
  destruct (shr _ (e + n1) _) as [mrs'' e''].
  cbn [fst snd] in S2. destruct S2 as ([Sm2 _] & N2 & ->).
  cbn [shr_m] in Sm2. unfold renormalized. rewrite Sm2. reflexivity.
Qed.

End RoundAux.

(** ** Values *)

Section Values.
Local Open Scope Q_scope.

Lemma pow2_pos (e : Z) : 0 < 2 ^ e.
Proof. apply Qpower_0_lt. reflexivity. Qed.

Lemma pow2_add (a b : Z) : 2 ^ (a + b) == 2 ^ a * 2 ^ b.
Proof. apply Qpower_plus. discriminate. Qed.

Lemma pow2_Z (k : Z) : (0 <= k)%Z -> 2 ^ k == inject_Z (2 ^ k).
Proof. intros Hk. rewrite Zpower_Qpower by exact Hk. reflexivity. Qed.

Lemma pow2_le (a b : Z) : (a <= b)%Z -> 2 ^ a <= 2 ^ b.
Proof. intros H. apply Qpower_le_compat_l; [exact H|discriminate]. Qed.

Lemma pow2_lt (a b : Z) : (a < b)%Z -> 2 ^ a < 2 ^ b.
Proof. intros H. apply Qpower_lt_compat_l; [exact H|reflexivity]. Qed.

Lemma F_shift (m e k : Z) : (0 <= k)%Z -> F (m * 2 ^ k) e == F m (e + k).
Proof.
  intros Hk. unfold F. rewrite inject_Z_mult, <- pow2_Z by exact Hk.
  rewrite pow2_add. ring.
Qed.

Lemma F_le (m m' e : Z) : (m <= m')%Z -> F m e <= F m' e.
Proof.
  intros H. unfold F. apply Qmult_le_compat_r.
  - rewrite <- Zle_Qle. exact H.
  - apply Qlt_le_weak, pow2_pos.
Qed.

Lemma F_lt (m m' e : Z) : (m < m')%Z -> F m e < F m' e.
Proof.
  intros H. unfold F. apply Qmult_lt_compat_r.
  - apply pow2_pos.
  - rewrite <- Zlt_Qlt. exact H.
Qed.

Lemma F_lt_inv (m m' e : Z) : F m e < F m' e -> (m < m')%Z.
Proof.
  intros H. destruct (Z_lt_le_dec m m') as [Hlt|Hle]; [exact Hlt|].
  apply (F_le _ _ e) in Hle. exfalso. apply (Qlt_not_le _ _ H Hle).
Qed.

Lemma F_le_inv (m m' e : Z) : F m e <= F m' e -> (m <= m')%Z.
Proof.
  intros H. destruct (Z_le_gt_dec m m') as [Hle|Hgt]; [exact Hle|].
  assert (Hlt : (m' < m)%Z) by lia.
  apply (F_lt _ _ e) in Hlt. exfalso. apply (Qlt_not_le _ _ Hlt H).
Qed.

Lemma F_lt_pow (m e d : Z) : (0 <= d)%Z -> (m < 2 ^ d)%Z -> F m e < 2 ^ (d + e).
Proof.
  intros Hd H. rewrite pow2_add, pow2_Z by exact Hd.
  apply (F_lt _ _ e) in H. exact H.
Qed.

Lemma F_ge_pow (m e d : Z) : (0 <= d)%Z -> (2 ^ d <= m)%Z -> 2 ^ (d + e) <= F m e.
Proof.
  intros Hd H. rewrite pow2_add, pow2_Z by exact Hd.
  apply (F_le _ _ e) in H. exact H.
Qed.

Lemma F_nonneg (m e : Z) : (0 <= m)%Z -> 0 <= F m e.
Proof.
  intros H. unfold F. apply Qmult_le_0_compat.
  - change 0 with (inject_Z 0). rewrite <- Zle_Qle. exact H.
  - apply Qlt_le_weak, pow2_pos.
Qed.

(** Dividing the mantissa by [2 ^ k] and adding [k] to the exponent
    does not increase the value, and decreases it when bits are lost. *)
Lemma F_div_le (m e k : Z) : (0 <= k)%Z -> F (m / 2 ^ k) (e + k) <= F m e.
Proof.
  intros Hk. rewrite <- F_shift by exact Hk. apply F_le.
  assert (0 < 2 ^ k)%Z by (apply Z.pow_pos_nonneg; lia).
  rewrite Z.mul_comm. apply Z.mul_div_le. lia.
Qed.

Lemma F_div_lt (m e k : Z) :
  (0 <= k)%Z -> (m mod 2 ^ k <> 0)%Z -> F (m / 2 ^ k) (e + k) < F m e.
Proof.
  intros Hk Hmod. rewrite <- F_shift by exact Hk. apply F_lt.
  assert (0 < 2 ^ k)%Z by (apply Z.pow_pos_nonneg; lia).
  pose proof (Z.div_mod m (2 ^ k) ltac:(lia)).
  pose proof (Z.mod_pos_bound m (2 ^ k) ltac:(lia)). lia.
Qed.

End Values.

(** ** Canonical mantissas *)

Section Canonical.

Lemma canonical_mantissa_canon (p : positive) (e : Z) :
  canonical_mantissa prec emax p e = true <-> canon (Zpos p) e.
Proof.
  unfold canonical_mantissa, canon. cbn [Zdigits2].
  rewrite Z.eqb_eq. intuition lia.
Qed.

Lemma canon_digits (m e : Z) :
  canon m e ->
  Zdigits2 m <= 53 /\ -1074 <= e /\ (-1074 < e -> Zdigits2 m = 53).
Proof. unfold canon. rewrite fexp_eq. lia. Qed.

(** Canonical numbers are ordered by their exponents first. *)
Lemma canon_lt (m1 e1 m2 e2 : Z) :
  canon m1 e1 -> canon m2 e2 -> e1 < e2 -> (F m1 e1 < F m2 e2)%Q.
Proof.
  intros C1 C2 He.
  pose proof (canon_digits _ _ C1) as (D1 & E1 & _).
  pose proof (canon_digits _ _ C2) as (_ & _ & D2). specialize (D2 ltac:(lia)).
  destruct C1 as [P1 _], C2 as [P2 _].
  pose proof (Zdigits2_bounds m1 P1) as [_ B1].
  pose proof (Zdigits2_bounds m2 P2) as [B2 _].
  pose proof (Zdigits2_pos m1 P1) as Dp.
  apply Qlt_le_trans with (2 ^ (Zdigits2 m1 + e1))%Q.
  - apply F_lt_pow; [lia|exact B1].
  - apply Qle_trans with (2 ^ (Zdigits2 m2 - 1 + e2))%Q.
    + apply pow2_le. lia.
    + apply F_ge_pow; [lia|exact B2].
Qed.

(** When the exponent of the format does not change, the next mantissa
    is canonical too; otherwise it is a power of two and half of it is
    canonical at the next exponent. *)
Lemma canon_succ (m e : Z) :
  canon m e ->
  canon (m + 1) e
  \/ (canon ((m + 1) / 2) (e + 1) /\ m + 1 = 2 * ((m + 1) / 2)
      /\ Zdigits2 (m + 1) = Zdigits2 m + 1
      /\ fexp prec emax (Zdigits2 (m + 1) + e) = e + 1).
Proof.
  intros [Hm He]. pose proof (Zdigits2_bounds m Hm) as [Lo Hi].
  pose proof (Zdigits2_pos m Hm) as Dp.
  destruct (Z.eq_dec (m + 1) (2 ^ Zdigits2 m)) as [Hpow|Hnot].
  - assert (Hd : Zdigits2 (m + 1) = Zdigits2 m + 1).
    { apply Zdigits2_unique; [|lia]. rewrite Hpow.
      replace (Zdigits2 m + 1 - 1) with (Zdigits2 m) by lia.
      split; [lia|]. apply Z.pow_lt_mono_r; lia. }
    rewrite fexp_eq in He.
    destruct (Z_le_gt_dec (Zdigits2 m + 1 + e - 53) (-1074)) as [Hsub|Hnorm].
    + left. split; [lia|]. rewrite Hd, fexp_eq. lia.
    + right.
      assert (Hhalf : (m + 1) / 2 = 2 ^ (Zdigits2 m - 1)).
      { rewrite Hpow. replace (Zdigits2 m) with (Z.succ (Zdigits2 m - 1)) at 1 by lia.
        rewrite Z.pow_succ_r by lia. rewrite Z.mul_comm. apply Z.div_mul. lia. }
      assert (Hpos : 0 < 2 ^ (Zdigits2 m - 1)) by (apply Z.pow_pos_nonneg; lia).
      split; [|split; [|split]].
      * split; [lia|]. rewrite Hhalf.
        rewrite (Zdigits2_unique _ (Zdigits2 m)).
        -- rewrite fexp_eq. lia.
        -- split; [lia|]. apply Z.pow_lt_mono_r; lia.
        -- lia.
      * rewrite Hhalf, Hpow.
        replace (Zdigits2 m) with (Z.succ (Zdigits2 m - 1)) at 1 by lia.
        apply Z.pow_succ_r. lia.
      * exact Hd.
      * rewrite Hd, fexp_eq. lia.
  - left. split; [lia|].
    rewrite (Zdigits2_unique (m + 1) (Zdigits2 m)); [exact He| |lia].
    split; lia.
Qed.

End Canonical.

(** ** The rounding function *)

Section RoundSpec.

Lemma first_shift (m e : Z) :
  0 <= m -> e <= fexp prec emax (Zdigits2 m + e) ->
  let e1 := fexp prec emax (Zdigits2 m + e) in
  let ms := m / 2 ^ (e1 - e) in
  0 <= ms /\ (0 < ms -> canon ms e1) /\ (ms = 0 -> e1 = -1074).
Proof.
  intros Hm He e1 ms.
  assert (Hn : 0 <= e1 - e) by (unfold e1; lia).
  assert (Hp : 0 < 2 ^ (e1 - e)) by (apply Z.pow_pos_nonneg; lia).
  split; [apply Z.div_pos; lia|].
  destruct (Z.eq_dec m 0) as [->|Hne].
  - assert (Hms : ms = 0) by (apply Z.div_0_l; lia).
    split; [lia|]. intros _. unfold e1 in *. cbn [Zdigits2] in *.
    rewrite fexp_eq in *. lia.
  - pose proof (Zdigits2_pos m ltac:(lia)) as Dp.
    destruct (Z_lt_le_dec (e1 - e) (Zdigits2 m)) as [Hlt|Hge].
    + pose proof (Zdigits2_shift m (e1 - e) ltac:(lia) ltac:(lia)) as Hd.
      fold ms in Hd.
      assert (Hms : 0 < ms).
      { destruct (Z.eq_dec ms 0) as [Hz|Hz]; [|pose proof (Z.div_pos m (2 ^ (e1 - e))); lia].
        rewrite Hz in Hd. cbn [Zdigits2] in Hd. lia. }
      split; [|lia]. intros _. split; [exact Hms|].
      rewrite Hd. replace (Zdigits2 m - (e1 - e) + e1) with (Zdigits2 m + e) by lia.
      reflexivity.
    + assert (Hms : ms = 0) by (apply Zdigits2_small; lia).
      split; [lia|]. intros _. unfold e1 in *. rewrite fexp_eq in *. lia.
Qed.

Lemma renormalized_canon (s : bool) (p : positive) (e1 : Z) :
  canon (Zpos p) e1 -> renormalized s (Zpos p) e1 = rounded s p e1.
Proof.
  intros [_ He]. unfold renormalized. rewrite He, Z.sub_diag.
  cbn [Z.max Z.compare]. change (2 ^ 0) with 1. rewrite Z.div_1_r, Z.add_0_r.
  reflexivity.
Qed.

Lemma renormalized_half (s : bool) (m1 : Z) (p : positive) (e1 : Z) :
  m1 = 2 * Zpos p ->
  fexp prec emax (Zdigits2 m1 + e1) = e1 + 1 ->
  renormalized s m1 e1 = rounded s p (e1 + 1).
Proof.
  intros Hm He. unfold renormalized. rewrite He.
  replace (e1 + 1 - e1) with 1 by lia. cbn [Z.max Z.compare].
  change (2 ^ 1) with 2. rewrite Hm, Z.mul_comm, Z.div_mul by lia.
  reflexivity.
Qed.

(** [binary_round_aux s m e l] truncates [m * 2 ^ e] to the exponent of
    the format, adds at most one unit in the last place, adding it only
    when the truncated value is below the value being rounded, and
    returns the result as a canonical number. *)
Theorem binary_round_aux_spec (s : bool) (m e : Z) (l : location) :
  0 <= m -> e <= fexp prec emax (Zdigits2 m + e) ->
  let e1 := fexp prec emax (Zdigits2 m + e) in
  let ms := m / 2 ^ (e1 - e) in
  exists m1 : Z,
    (m1 = ms \/ (m1 = ms + 1 /\ (l <> loc_Exact \/ m mod 2 ^ (e1 - e) <> 0)))
    /\ (m1 = 0 -> binary_round_aux prec emax s m e l = S754_zero s)
    /\ (0 < m1 -> exists (p : positive) (e2 : Z),
          (F (Zpos p) e2 == F m1 e1)%Q
          /\ canon (Zpos p) e2
          /\ binary_round_aux prec emax s m e l = rounded s p e2).
Proof.
  intros Hm He e1 ms.
  destruct (binary_round_aux_unfold s m e l Hm) as (m1 & Hm1 & Heq).
  rewrite Z.max_l in Hm1, Heq by (fold e1; lia).
  fold e1 in Hm1, Heq. replace (e + (e1 - e)) with e1 in Heq by lia.
  fold ms in Hm1.
  destruct (first_shift m e Hm He) as (Hms & Hcanon & Hzero).
  fold e1 in Hcanon, Hzero. fold ms in Hms, Hcanon, Hzero.
  exists m1. split; [exact Hm1|]. rewrite Heq. split.
  - intros ->. unfold renormalized. rewrite Z.div_0_l; [reflexivity|].
    pose proof (Z.pow_pos_nonneg 2 (Z.max (fexp prec emax (Zdigits2 0 + e1) - e1) 0)).
    lia.
  - intros Hpos.
    assert (Hc : canon m1 e1
                 \/ (canon (m1 / 2) (e1 + 1) /\ m1 = 2 * (m1 / 2)
                     /\ fexp prec emax (Zdigits2 m1 + e1) = e1 + 1)).
    { destruct Hm1 as [->|[-> _]].
      - left. apply Hcanon. exact Hpos.
      - destruct (Z.eq_dec ms 0) as [Hz|Hz].
        + left. rewrite Hz. rewrite (Hzero Hz). split; [lia|reflexivity].
        + destruct (canon_succ ms e1 (Hcanon ltac:(lia))) as [C|(C & E & _ & X)];
            [left; exact C|right; auto]. }
    destruct Hc as [C|(C & E & X)].
    + destruct m1 as [|p|p]; try lia.
      exists p, e1. split; [reflexivity|]. split; [exact C|].
      apply renormalized_canon. exact C.
    + destruct C as [Hh Ch].
      destruct (m1 / 2) as [|p|p] eqn:Ehalf; try lia.
      exists p, (e1 + 1). split; [|split; [split; assumption|]].
      * rewrite E. rewrite <- (F_shift (Zpos p) e1 1) by lia.
        change (2 ^ 1) with 2. rewrite (Z.mul_comm 2). reflexivity.
      * apply renormalized_half; assumption.
Qed.

End RoundSpec.

Section RoundBounds.

Lemma rounded_cases (s : bool) (p : positive) (e : Z) :
  (e <= emax - prec /\ rounded s p e = S754_finite s p e)
  \/ (emax - prec < e /\ rounded s p e = S754_infinity s).
Proof.
  unfold rounded. destruct (Z.leb_spec e (emax - prec)); [left|right]; auto.
Qed.

(** The result of rounding is a number of the format. *)
Lemma binary_round_aux_valid (s : bool) (m e : Z) (l : location) :
  0 <= m -> e <= fexp prec emax (Zdigits2 m + e) ->
  valid (binary_round_aux prec emax s m e l) = true.
Proof.
  intros Hm He.
  destruct (binary_round_aux_spec s m e l Hm He) as (m1 & Hm1 & Hzero & Hpos).
  assert (H0 : 0 <= m1).
  { destruct (first_shift m e Hm He) as (Hms & _). destruct Hm1 as [->|[-> _]]; lia. }
  destruct (Z.eq_dec m1 0) as [Hz|Hz].
  - rewrite (Hzero Hz). reflexivity.
  - destruct (Hpos ltac:(lia)) as (p & e2 & _ & C & ->).
    destruct (rounded_cases s p e2) as [[Hb ->]|[_ ->]]; [|reflexivity].
    unfold valid. cbn [valid_binary]. unfold bounded.
    apply andb_true_intro. split.
    + apply canonical_mantissa_canon. exact C.
    + apply Z.leb_le. exact Hb.
Qed.

(** Rounding does not cross a number of the format from below: if the
    value is at most the canonical number [mB * 2 ^ eB], so is the
    result, which is finite. *)
Lemma binary_round_aux_upper (s : bool) (m e : Z) (l : location) (mB eB : Z) :
  0 <= m -> e <= fexp prec emax (Zdigits2 m + e) ->
  canon mB eB -> eB <= emax - prec ->
  (F m e <= F mB eB)%Q ->
  (l <> loc_Exact -> (F m e < F mB eB)%Q) ->
  binary_round_aux prec emax s m e l = S754_zero s
  \/ exists (p : positive) (e2 : Z),
       binary_round_aux prec emax s m e l = S754_finite s p e2
       /\ canon (Zpos p) e2 /\ e2 <= emax - prec
       /\ (F (Zpos p) e2 <= F mB eB)%Q.
Proof.
  intros Hm He CB HeB Hle Hlt.
  destruct (binary_round_aux_spec s m e l Hm He) as (m1 & Hm1 & Hzero & Hpos).
  destruct (first_shift m e Hm He) as (Hms & Hcanon & Hmz).
  set (e1 := fexp prec emax (Zdigits2 m + e)) in *.
  set (ms := m / 2 ^ (e1 - e)) in *.
  assert (Hk : 0 <= e1 - e) by lia.
  assert (Hdown : (F ms e1 <= F m e)%Q).
  { pose proof (F_div_le m e (e1 - e) Hk) as H.
    replace (e + (e1 - e)) with e1 in H by lia. exact H. }
  assert (Hbound : (F m1 e1 <= F mB eB)%Q).
  { destruct Hm1 as [->|[-> Hinex]].
    - eapply Qle_trans; [exact Hdown|exact Hle].
    - assert (Hstrict : (F ms e1 < F mB eB)%Q).
      { destruct Hinex as [Hl|Hmod].
        - eapply Qle_lt_trans; [exact Hdown|apply Hlt; exact Hl].
        - eapply Qlt_le_trans; [|exact Hle].
          pose proof (F_div_lt m e (e1 - e) Hk Hmod) as H.
          replace (e + (e1 - e)) with e1 in H by lia. exact H. }
      destruct (Z_le_gt_dec e1 eB) as [Hee|Hee].
      + pose proof (F_shift mB e1 (eB - e1) ltac:(lia)) as Hs.
        replace (e1 + (eB - e1)) with eB in Hs by lia.
        rewrite <- Hs in Hstrict |- *.
        apply F_lt_inv in Hstrict. apply F_le. lia.
      + exfalso. destruct (Z.eq_dec ms 0) as [Hz|Hz].
        * pose proof (canon_digits _ _ CB). specialize (Hmz Hz). lia.
        * pose proof (canon_lt mB eB ms e1 CB (Hcanon ltac:(lia)) ltac:(lia)) as H.
          apply (Qlt_irrefl (F ms e1)). eapply Qlt_trans; eauto. }
  assert (H0 : 0 <= m1) by (destruct Hm1 as [->|[-> _]]; lia).
  destruct (Z.eq_dec m1 0) as [Hz|Hz]; [left; auto|right].
  destruct (Hpos ltac:(lia)) as (p & e2 & Hv & C & ->).
  rewrite <- Hv in Hbound.
  assert (Hfit : e2 <= emax - prec).
  { destruct (Z_le_gt_dec e2 (emax - prec)) as [H|H]; [exact H|exfalso].
    pose proof (canon_lt mB eB (Zpos p) e2 CB C ltac:(lia)) as Hc.
    apply (Qlt_irrefl (F mB eB)). eapply Qlt_le_trans; eauto. }
  exists p, e2. split; [|auto].
  destruct (rounded_cases s p e2) as [[_ ->]|[Hb _]]; [reflexivity|lia].
Qed.

(** Rounding does not cross a number of the format from above: if the
    value is at least the canonical number [mB * 2 ^ eB], so is the
    result, unless it overflows. *)
Lemma binary_round_aux_lower (s : bool) (m e : Z) (l : location) (mB eB : Z) :
  0 <= m -> e <= fexp prec emax (Zdigits2 m + e) ->
  canon mB eB ->
  (F mB eB <= F m e)%Q ->
  exists (p : positive) (e2 : Z),
    binary_round_aux prec emax s m e l = rounded s p e2
    /\ canon (Zpos p) e2
    /\ (F mB eB <= F (Zpos p) e2)%Q.
Proof.
  intros Hm He CB Hle.
  destruct (binary_round_aux_spec s m e l Hm He) as (m1 & Hm1 & Hzero & Hpos).
  destruct (first_shift m e Hm He) as (Hms & Hcanon & Hmz).
  set (e1 := fexp prec emax (Zdigits2 m + e)) in *.
  set (ms := m / 2 ^ (e1 - e)) in *.
  assert (Hk : 0 <= e1 - e) by lia.
  assert (Pk : 0 < 2 ^ (e1 - e)) by (apply Z.pow_pos_nonneg; lia).
  assert (Hbound : (F mB eB <= F ms e1)%Q).
  { destruct (Z_le_gt_dec e1 eB) as [Hee|Hee].
    - pose proof (F_shift mB e1 (eB - e1) ltac:(lia)) as Hs.
      replace (e1 + (eB - e1)) with eB in Hs by lia.
      rewrite <- Hs in Hle |- *. apply F_le.
      pose proof (F_shift (mB * 2 ^ (eB - e1)) e (e1 - e) Hk) as Hs2.
      replace (e + (e1 - e)) with e1 in Hs2 by lia.
      rewrite <- Hs2 in Hle. apply F_le_inv in Hle.
      apply Z.div_le_lower_bound; lia.
    - destruct (Z.eq_dec ms 0) as [Hz|Hz].
      + pose proof (canon_digits _ _ CB). specialize (Hmz Hz). lia.
      + apply Qlt_le_weak.
        apply (canon_lt mB eB ms e1 CB (Hcanon ltac:(lia))). lia. }
  assert (HB : (0 < F mB eB)%Q).
  { destruct CB as [PB _]. apply (F_lt 0 mB eB) in PB.
    unfold F at 1 in PB. rewrite Qmult_0_l in PB. exact PB. }
  assert (Hmspos : 0 < ms).
  { apply (F_lt_inv _ _ e1). unfold F at 1. rewrite Qmult_0_l.
    eapply Qlt_le_trans; eauto. }
  assert (Hm1pos : 0 < m1) by (destruct Hm1 as [->|[-> _]]; lia).
  destruct (Hpos Hm1pos) as (p & e2 & Hv & C & ->).
  exists p, e2. split; [reflexivity|]. split; [exact C|].
  rewrite Hv. eapply Qle_trans; [exact Hbound|]. apply F_le.
  destruct Hm1 as [->|[-> _]]; lia.
Qed.

End RoundBounds.

(** ** Multiplication *)

Section Mul.

Lemma fexp_mono (a b : Z) : a <= b -> fexp prec emax a <= fexp prec emax b.
Proof. rewrite !fexp_eq. lia. Qed.

Lemma Zdigits2_pow2 (k : Z) : 0 <= k -> Zdigits2 (2 ^ k) = k + 1.
Proof.
  intros Hk. apply Zdigits2_unique; [|lia].
  replace (k + 1 - 1) with k by lia. split; [lia|].
  apply Z.pow_lt_mono_r; lia.
Qed.

Lemma Zdigits2_mul (a b : Z) :
  0 < a -> 0 < b -> Zdigits2 a + Zdigits2 b - 1 <= Zdigits2 (a * b).
Proof.
  intros Ha Hb.
  pose proof (Zdigits2_bounds a Ha) as [La _].
  pose proof (Zdigits2_bounds b Hb) as [Lb _].
  pose proof (Zdigits2_pos a Ha). pose proof (Zdigits2_pos b Hb).
  assert (Hprod : 2 ^ (Zdigits2 a + Zdigits2 b - 2) <= a * b).
  { replace (Zdigits2 a + Zdigits2 b - 2) with ((Zdigits2 a - 1) + (Zdigits2 b - 1)) by lia.
    rewrite Z.pow_add_r by lia.
    assert (0 < 2 ^ (Zdigits2 a - 1)) by (apply Z.pow_pos_nonneg; lia).
    assert (0 < 2 ^ (Zdigits2 b - 1)) by (apply Z.pow_pos_nonneg; lia).
    nia. }
  assert (P : 0 < 2 ^ (Zdigits2 a + Zdigits2 b - 2)) by (apply Z.pow_pos_nonneg; lia).
  pose proof (Zdigits2_mono _ _ (conj (Z.lt_le_incl _ _ P) Hprod)) as M.
  rewrite Zdigits2_pow2 in M by lia. lia.
Qed.

Lemma mul_exponent_ok (mx ex my ey : Z) :
  canon mx ex -> canon my ey ->
  ex + ey <= fexp prec emax (Zdigits2 (mx * my) + (ex + ey)).
Proof.
  intros [Px Cx] [Py Cy].
  pose proof (Zdigits2_mul mx my Px Py) as D.
  pose proof (Zdigits2_pos mx Px). pose proof (Zdigits2_pos my Py).
  rewrite fexp_eq in *. lia.
Qed.

Lemma F_mul (mx ex my ey : Z) : (F (mx * my) (ex + ey) == F mx ex * F my ey)%Q.
Proof. unfold F. rewrite inject_Z_mult, pow2_add. ring. Qed.

(** The product of two positive numbers of the format whose exact
    product is at most the canonical number [mB * 2 ^ eB] is [+0] or a
    positive number of the format that is at most [mB * 2 ^ eB]. *)
Lemma mul_upper (px : positive) (ex : Z) (py : positive) (ey : Z) (mB eB : Z) :
  canon (Zpos px) ex -> canon (Zpos py) ey ->
  canon mB eB -> eB <= emax - prec ->
  (F (Zpos px) ex * F (Zpos py) ey <= F mB eB)%Q ->
  mul (S754_finite false px ex) (S754_finite false py ey) = S754_zero false
  \/ exists (p : positive) (e2 : Z),
       mul (S754_finite false px ex) (S754_finite false py ey)
       = S754_finite false p e2
       /\ canon (Zpos p) e2 /\ e2 <= emax - prec
       /\ (F (Zpos p) e2 <= F mB eB)%Q.
Proof.
  intros Cx Cy CB HeB Hle.
  change (mul (S754_finite false px ex) (S754_finite false py ey))
    with (binary_round_aux prec emax false (Zpos px * Zpos py) (ex + ey) loc_Exact).
  apply binary_round_aux_upper; auto.
  - lia.
  - apply mul_exponent_ok; assumption.
  - rewrite F_mul. exact Hle.
  - congruence.
Qed.

End Mul.

(** ** Division *)

Section Div.

Lemma new_location_exact (n k : Z) : new_location n k <> loc_Exact -> k <> 0.
Proof.
  intros H ->. apply H. unfold new_location, new_location_even, new_location_odd.
  destruct (Z.even n); reflexivity.
Qed.

Lemma SFdiv_core_binary_eq (m1 e1 m2 e2 : Z) :
  let e' := div_exponent m1 e1 m2 e2 in
  let m' := m1 * 2 ^ (e1 - e2 - e') in
  SFdiv_core_binary prec emax m1 e1 m2 e2
  = (m' / m2, e', new_location m2 (m' mod m2)).
Proof.
  intros e' m'. unfold SFdiv_core_binary. fold (div_exponent m1 e1 m2 e2). fold e'.
  assert (Hs : 0 <= e1 - e2 - e') by (unfold e', div_exponent; lia).
  assert (Hm' : match e1 - e2 - e' with
                | Z0 => m1
                | Zpos _ => Z.shiftl m1 (e1 - e2 - e')
                | Zneg _ => 0
                end = m').
  { unfold m'. destruct (e1 - e2 - e') as [|p|p] eqn:E.
    - change (2 ^ 0) with 1. lia.
    - apply Z.shiftl_mul_pow2. lia.
    - lia. }
  rewrite Hm'. unfold Z.div, Z.modulo.
  destruct (Z.div_eucl m' m2) as [q r]. reflexivity.
Qed.

Lemma div_core_spec (m1 e1 m2 e2 : Z) :
  0 < m1 -> 0 < m2 ->
  let e' := div_exponent m1 e1 m2 e2 in
  let m' := m1 * 2 ^ (e1 - e2 - e') in
  0 <= m' / m2
  /\ e' <= fexp prec emax (Zdigits2 (m' / m2) + e')
  /\ (F (m' / m2) e' * F m2 e2 <= F m1 e1)%Q
  /\ (m' mod m2 <> 0 -> (F (m' / m2) e' * F m2 e2 < F m1 e1)%Q).
Proof.
  intros H1 H2 e' m'.
  assert (Hs : 0 <= e1 - e2 - e') by (unfold e', div_exponent; lia).
  assert (Ps : 0 < 2 ^ (e1 - e2 - e')) by (apply Z.pow_pos_nonneg; lia).
  assert (Hm' : 0 < m') by (unfold m'; nia).
  assert (Hq : 0 <= m' / m2) by (apply Z.div_pos; lia).
  assert (Hval : (F m' (e' + e2) == F m1 e1)%Q).
  { unfold m'. rewrite F_shift by lia. replace (e' + e2 + (e1 - e2 - e')) with e1 by lia.
    reflexivity. }
  split; [exact Hq|]. split; [|split].
  - (* the quotient has enough digits *)
    pose proof (Zdigits2_bounds m1 H1) as [L1 _].
    pose proof (Zdigits2_bounds m2 H2) as [_ U2].
    pose proof (Zdigits2_pos m1 H1) as D1. pose proof (Zdigits2_pos m2 H2) as D2.
    set (d := Zdigits2 m1 + (e1 - e2 - e') - Zdigits2 m2).
    assert (Hd : d <= Zdigits2 (m' / m2)).
    { destruct (Z_le_gt_dec d 0) as [Hd0|Hd0].
      - destruct (m' / m2) eqn:E; cbn [Zdigits2]; lia.
      - assert (Hlow : 2 ^ (d - 1) <= m' / m2).
        { apply Z.div_le_lower_bound; [lia|].
          assert (E1 : 2 ^ (Zdigits2 m1 - 1) * 2 ^ (e1 - e2 - e') <= m') by (unfold m'; nia).
          rewrite <- Z.pow_add_r in E1 by lia.
          replace (Zdigits2 m1 - 1 + (e1 - e2 - e')) with (Zdigits2 m2 + (d - 1)) in E1
            by (unfold d; lia).
          rewrite Z.pow_add_r in E1 by lia.
          assert (0 < 2 ^ (d - 1)) by (apply Z.pow_pos_nonneg; lia).
          nia. }
        assert (P : 0 < 2 ^ (d - 1)) by (apply Z.pow_pos_nonneg; lia).
        pose proof (Zdigits2_mono _ _ (conj (Z.lt_le_incl _ _ P) Hlow)) as M.
        rewrite Zdigits2_pow2 in M by lia. lia. }
    apply Z.le_trans with (fexp prec emax (Zdigits2 m1 + e1 - (Zdigits2 m2 + e2))).
    + unfold e', div_exponent. lia.
    + apply fexp_mono. unfold d in Hd. lia.
  - rewrite <- F_mul, <- Hval. apply F_le.
    rewrite Z.mul_comm. apply Z.mul_div_le. exact H2.
  - intros Hr. rewrite <- F_mul, <- Hval. apply F_lt.
    pose proof (Z.div_mod m' m2 ltac:(lia)).
    pose proof (Z.mod_pos_bound m' m2 H2). lia.
Qed.

Lemma F_pos (m e : Z) : 0 < m -> (0 < F m e)%Q.
Proof.
  intros H. apply (F_lt 0 m e) in H. unfold F at 1 in H.
  rewrite Qmult_0_l in H. exact H.
Qed.

(** The quotient of two positive numbers of the format whose exact
    quotient is at most the canonical number [mB * 2 ^ eB] is [+0] or a
    positive number of the format that is at most [mB * 2 ^ eB]. *)
Lemma div_upper (px : positive) (ex : Z) (py : positive) (ey : Z) (mB eB : Z) :
  canon mB eB -> eB <= emax - prec ->
  (F (Zpos px) ex <= F mB eB * F (Zpos py) ey)%Q ->
  div (S754_finite false px ex) (S754_finite false py ey) = S754_zero false
  \/ exists (p : positive) (e2 : Z),
       div (S754_finite false px ex) (S754_finite false py ey)
       = S754_finite false p e2
       /\ canon (Zpos p) e2 /\ e2 <= emax - prec
       /\ (F (Zpos p) e2 <= F mB eB)%Q.
Proof.
  intros CB HeB Hle.
  unfold div. cbn [SFdiv]. rewrite SFdiv_core_binary_eq. cbn [xorb].
  destruct (div_core_spec (Zpos px) ex (Zpos py) ey ltac:(lia) ltac:(lia))
    as (Hq & Hexp & Hval & Hstrict).
  set (e' := div_exponent (Zpos px) ex (Zpos py) ey) in *.
  set (m' := Zpos px * 2 ^ (ex - ey - e')) in *.
  pose proof (F_pos (Zpos py) ey ltac:(lia)) as Py.
  apply binary_round_aux_upper; auto.
  - apply Qmult_le_r with (z := F (Zpos py) ey); [exact Py|].
    eapply Qle_trans; eauto.
  - intros Hl. apply new_location_exact in Hl.
    apply Qmult_lt_r with (z := F (Zpos py) ey); [exact Py|].
    eapply Qlt_le_trans; eauto.
Qed.

End Div.

(** ** Addition of one *)

Section Add.

Lemma Pos_iter_xO (d m : positive) : Zpos (Pos.iter xO m d) = Zpos m * 2 ^ Zpos d.
Proof.
  induction d as [|d IH] using Pos.peano_ind.
  - cbn [Pos.iter]. change (2 ^ 1) with 2. lia.
  - rewrite Pos.iter_succ, Pos2Z.inj_xO, IH, Pos2Z.inj_succ, Z.pow_succ_r by lia. lia.
Qed.

Lemma shl_align_spec (m : positive) (e e' : Z) :
  Zpos (fst (shl_align m e e')) = Zpos m * 2 ^ (e - Z.min e e')
  /\ snd (shl_align m e e') = Z.min e e'.
Proof.
  unfold shl_align. destruct (e' - e) as [|d|d] eqn:E; cbn [fst snd].
  - replace (Z.min e e') with e by lia. rewrite Z.sub_diag. change (2 ^ 0) with 1. lia.
  - replace (Z.min e e') with e by lia. rewrite Z.sub_diag. change (2 ^ 0) with 1. lia.
  - replace (Z.min e e') with e' by lia. rewrite Pos_iter_xO.
    replace (e - e') with (Zpos d) by lia. lia.
Qed.

Lemma Zdigits2_mul_pow2 (m k : Z) :
  0 < m -> 0 <= k -> Zdigits2 (m * 2 ^ k) = Zdigits2 m + k.
Proof.
  intros Hm Hk. pose proof (Zdigits2_bounds m Hm) as [Lo Hi].
  pose proof (Zdigits2_pos m Hm).
  assert (P : 0 < 2 ^ k) by (apply Z.pow_pos_nonneg; lia).
  apply Zdigits2_unique; [|lia]. split.
  - replace (Zdigits2 m + k - 1) with (Zdigits2 m - 1 + k) by lia.
    rewrite Z.pow_add_r by lia. nia.
  - rewrite Z.pow_add_r by lia. nia.
Qed.

(** [binary_round] rounds [m * 2 ^ e] after aligning the mantissa. *)
Lemma binary_round_eq (s : bool) (m : positive) (e : Z) :
  exists (m' : positive) (e' : Z),
    binary_round prec emax s m e
    = binary_round_aux prec emax s (Zpos m') e' loc_Exact
    /\ (F (Zpos m') e' == F (Zpos m) e)%Q
    /\ e' <= fexp prec emax (Zdigits2 (Zpos m') + e').
Proof.
  unfold binary_round.
  set (et := fexp prec emax (Zpos (digits2_pos m) + e)).
  pose proof (shl_align_spec m e et) as [Hm He].
  destruct (shl_align m e et) as [m' e']. cbn [fst snd] in Hm, He.
  exists m', e'. split; [reflexivity|].
  assert (Hk : 0 <= e - Z.min e et) by lia.
  split.
  - rewrite Hm, F_shift by exact Hk. rewrite He.
    replace (Z.min e et + (e - Z.min e et)) with e by lia. reflexivity.
  - rewrite Hm, Zdigits2_mul_pow2 by lia. rewrite He.
    replace (Zdigits2 (Zpos m) + (e - Z.min e et) + Z.min e et)
      with (Zpos (digits2_pos m) + e) by (cbn [Zdigits2]; lia).
    fold et. lia.
Qed.

Lemma canon_one : canon 4503599627370496 (-52).
Proof. split; [lia|reflexivity]. Qed.

Lemma F_one : (F 4503599627370496 (-52) == 1)%Q.
Proof. vm_compute. reflexivity. Qed.

Lemma canon_below_max : canon 9007199254740990 971.
Proof. split; [lia|reflexivity]. Qed.

Lemma canon_max : canon (Zpos max_mantissa) 971.
Proof. split; [lia|reflexivity]. Qed.

Lemma below_max_plus_one :
  (F 9007199254740990 971 + 1 <= F (Zpos max_mantissa) 971)%Q.
Proof. vm_compute. discriminate. Qed.

Lemma incr_max : incr (S754_finite false max_mantissa 971)
                 = S754_finite false max_mantissa 971.
Proof. vm_compute. reflexivity. Qed.

(** Every positive number of the format other than the largest one is
    at most the number just below the largest one. *)
Lemma posfin_below_max (p : positive) (e : Z) :
  canon (Zpos p) e -> e <= emax - prec ->
  (p, e) <> (max_mantissa, 971) ->
  (F (Zpos p) e <= F 9007199254740990 971)%Q.
Proof.
  intros C He Hne. change (emax - prec) with 971 in He.
  destruct (Z.eq_dec e 971) as [->|He'].
  - apply F_le. pose proof (canon_digits _ _ C) as (D & _).
    pose proof (Zdigits2_bounds (Zpos p) ltac:(lia)) as [_ Hi].
    assert (Zpos p < 2 ^ 53).
    { eapply Z.lt_le_trans; [exact Hi|]. apply Z.pow_le_mono_r; lia. }
    assert (Zpos p <> Zpos max_mantissa) by congruence.
    change (2 ^ 53) with 9007199254740992 in *. unfold max_mantissa in *. lia.
  - apply Qlt_le_weak. apply canon_lt; [exact C|apply canon_below_max|lia].
Qed.

(** [x + 1] for a positive finite [x] is the rounding of the exact sum. *)
Lemma incr_finite_eq (p : positive) (e : Z) :
  exists (m' : positive) (e' : Z),
    incr (S754_finite false p e)
    = binary_round_aux prec emax false (Zpos m') e' loc_Exact
    /\ (F (Zpos m') e' == F (Zpos p) e + 1)%Q
    /\ e' <= fexp prec emax (Zdigits2 (Zpos m') + e').
Proof.
  unfold incr, add. rewrite lit_1. cbn [SFadd].
  set (ez := Z.min e (-52)).
  pose proof (shl_align_spec p e ez) as [Hx _].
  pose proof (shl_align_spec 4503599627370496 (-52) ez) as [H1 _].
  replace (Z.min e ez) with ez in Hx by (unfold ez; lia).
  replace (Z.min (-52) ez) with ez in H1 by (unfold ez; lia).
  cbn [cond_Zopp].
  destruct (Zpos (fst (shl_align p e ez))
            + Zpos (fst (shl_align 4503599627370496 (-52) ez))) as [|ps|ps] eqn:Es;
    try lia.
  cbn [binary_normalize].
  assert (Hsum : (F (Zpos ps) ez == F (Zpos p) e + 1)%Q).
  { rewrite <- Es, Hx, H1. unfold F at 1. rewrite inject_Z_plus, Qmult_plus_distr_l.
    fold (F (Zpos p * 2 ^ (e - ez)) ez).
    fold (F (4503599627370496 * 2 ^ (-52 - ez)) ez).
    rewrite !F_shift by (unfold ez; lia).
    replace (ez + (e - ez)) with e by lia.
    replace (ez + (-52 - ez)) with (-52) by lia.
    rewrite F_one. reflexivity. }
  destruct (binary_round_eq false ps ez) as (m' & e' & -> & Hv & Hexp).
  exists m', e'. split; [reflexivity|]. split; [|exact Hexp].
  rewrite Hv. exact Hsum.
Qed.

(** Incrementing a positive number of the format gives a positive
    number of the format: the sum is at least one and does not
    overflow. *)
Lemma incr_posfin (x : number) : posfin x -> posfin (incr x).
Proof.
  intros (p & e & -> & C & He).
  destruct (decide ((p, e) = (max_mantissa, 971))) as [Hmax|Hne].
  { injection Hmax as -> ->. rewrite incr_max.
    exists max_mantissa, 971. split; [reflexivity|]. split; [apply canon_max|].
    change (emax - prec) with 971. lia. }
  destruct (incr_finite_eq p e) as (m' & e' & -> & Hsum & Hexp).
  destruct (binary_round_aux_lower false (Zpos m') e' loc_Exact
              4503599627370496 (-52) ltac:(lia) Hexp canon_one)
    as (q & e2 & Hr & Cq & _).
  { rewrite Hsum, F_one. pose proof (F_pos (Zpos p) e ltac:(lia)). lra. }
  destruct (binary_round_aux_upper false (Zpos m') e' loc_Exact
              (Zpos max_mantissa) 971 ltac:(lia) Hexp canon_max)
    as [Hz|(q' & e2' & Hfin & Cq' & Hb & _)].
  - change (emax - prec) with 971. lia.
  - rewrite Hsum. eapply Qle_trans; [|apply below_max_plus_one].
    pose proof (posfin_below_max p e C He Hne). lra.
  - congruence.
  - rewrite Hz in Hr. unfold rounded in Hr.
    destruct (e2 <=? emax - prec); discriminate.
  - exists q', e2'. auto.
Qed.

End Add.

(** ** Exact results *)

Section Exact.

Lemma canon_unique (m1 e1 m2 e2 : Z) :
  canon m1 e1 -> canon m2 e2 -> (F m1 e1 == F m2 e2)%Q -> m1 = m2 /\ e1 = e2.
Proof.
  intros C1 C2 Heq.
  assert (He : e1 = e2).
  { destruct (Z.lt_trichotomy e1 e2) as [H|[H|H]]; [exfalso|exact H|exfalso].
    - pose proof (canon_lt _ _ _ _ C1 C2 H) as Hlt. rewrite Heq in Hlt.
      exact (Qlt_irrefl _ Hlt).
    - pose proof (canon_lt _ _ _ _ C2 C1 H) as Hlt. rewrite Heq in Hlt.
      exact (Qlt_irrefl _ Hlt). }
  subst e2. split; [|reflexivity].
  assert (H1 : m1 <= m2) by (apply (F_le_inv _ _ e1); rewrite Heq; apply Qle_refl).
  assert (H2 : m2 <= m1) by (apply (F_le_inv _ _ e1); rewrite Heq; apply Qle_refl).
  lia.
Qed.

(** Rounding a value that is a number of the format returns it. *)
Lemma binary_round_aux_exact (m e : Z) (l : location) (mB : positive) (eB : Z) :
  0 <= m -> e <= fexp prec emax (Zdigits2 m + e) ->
  canon (Zpos mB) eB -> eB <= emax - prec ->
  (F m e == F (Zpos mB) eB)%Q -> l = loc_Exact ->
  binary_round_aux prec emax false m e l = S754_finite false mB eB.
Proof.
  intros Hm He CB HeB Heq Hl.
  destruct (binary_round_aux_upper false m e l (Zpos mB) eB Hm He CB HeB)
    as [Hz|(p & e2 & Hfin & Cp & Hb & Hup)].
  - rewrite Heq. apply Qle_refl.
  - congruence.
  - exfalso.
    destruct (binary_round_aux_lower false m e l (Zpos mB) eB Hm He CB)
      as (q & e3 & Hr & _); [rewrite Heq; apply Qle_refl|].
    rewrite Hz in Hr. unfold rounded in Hr. destruct (e3 <=? emax - prec); discriminate.
  - destruct (binary_round_aux_lower false m e l (Zpos mB) eB Hm He CB)
      as (q & e3 & Hr & Cq & Hlow); [rewrite Heq; apply Qle_refl|].
    rewrite Hfin in Hr. unfold rounded in Hr.
    destruct (e3 <=? emax - prec); [|discriminate].
    injection Hr as Hp He2. subst q e3.
    destruct (canon_unique _ _ _ _ Cp CB) as [E1 E2].
    + apply Qle_antisym; assumption.
    + rewrite Hfin. injection E1 as E1. subst p e2. reflexivity.
Qed.

(** Positive integers below [2 ^ 53] are numbers of the format. *)
Lemma integer_canon (n : positive) :
  Zpos n < 2 ^ 53 ->
  exists (p : positive) (e : Z),
    canon (Zpos p) e /\ e <= emax - prec /\ (F (Zpos p) e == inject_Z (Zpos n))%Q.
Proof.
  intros Hn.
  pose proof (Zdigits2_bounds (Zpos n) ltac:(lia)) as [Lo Hi].
  pose proof (Zdigits2_pos (Zpos n) ltac:(lia)) as Dp.
  set (d := Zdigits2 (Zpos n)) in *.
  assert (Hd : d <= 53).
  { destruct (Z_le_gt_dec d 53) as [H|H]; [exact H|exfalso].
    assert (2 ^ 53 <= 2 ^ (d - 1)) by (apply Z.pow_le_mono_r; lia). lia. }
  assert (P : 0 < 2 ^ (53 - d)) by (apply Z.pow_pos_nonneg; lia).
  destruct (Zpos n * 2 ^ (53 - d)) as [|p|p] eqn:Ep; try lia.
  exists p, (d - 53). split; [|split].
  - split; [lia|]. rewrite <- Ep, Zdigits2_mul_pow2 by lia. fold d.
    rewrite fexp_eq. lia.
  - change (emax - prec) with 971. lia.
  - rewrite <- Ep, F_shift by lia. replace (d - 53 + (53 - d)) with 0 by lia.
    unfold F. change (2 ^ 0)%Q with 1%Q. ring.
Qed.

Lemma lit_pos (n : positive) (p : positive) (e : Z) :
  canon (Zpos p) e -> e <= emax - prec -> (F (Zpos p) e == inject_Z (Zpos n))%Q ->
  lit (Zpos n) = S754_finite false p e.
Proof.
  intros C He Hv. unfold lit. cbn [binary_normalize].
  destruct (binary_round_eq false n 0) as (m' & e' & -> & Hv' & Hexp).
  apply binary_round_aux_exact; [lia|exact Hexp|exact C|exact He| |reflexivity].
  rewrite Hv', Hv. unfold F. change (2 ^ 0)%Q with 1%Q. ring.
Qed.

(** Counting by one is exact below [2 ^ 53]. *)
Lemma incr_lit (n : Z) : 0 <= n -> n + 1 < 2 ^ 53 -> incr (lit n) = lit (n + 1).
Proof.
  intros Hn Hb. destruct n as [|n|n]; try lia.
  - vm_compute. reflexivity.
  - destruct (integer_canon n ltac:(lia)) as (p & e & C & He & Hv).
    destruct (Zpos n + 1) as [|n1|n1] eqn:En; try lia.
    destruct (integer_canon n1 ltac:(lia)) as (p1 & e1 & C1 & He1 & Hv1).
    rewrite (lit_pos n p e C He Hv), (lit_pos n1 p1 e1 C1 He1 Hv1).
    destruct (incr_finite_eq p e) as (m' & e' & -> & Hsum & Hexp).
    apply binary_round_aux_exact; [lia|exact Hexp|exact C1|exact He1| |reflexivity].
    rewrite Hsum, Hv, Hv1, <- En, inject_Z_plus. reflexivity.
Qed.

Lemma projected_lit (n : Z) (k : nat) :
  0 <= n -> n + Z.of_nat k < 2 ^ 53 ->
  Attendance.projected (lit n) k = lit (n + Z.of_nat k).
Proof.
  intros Hn. induction k as [|k IH]; intros Hb.
  - cbn. rewrite Z.add_0_r. reflexivity.
  - change (Attendance.projected (lit n) (S k))
      with (incr (Attendance.projected (lit n) k)).
    rewrite IH by lia. rewrite incr_lit by lia. f_equal. lia.
Qed.

End Exact.

(** ** Signs and classes of results *)

Section Classes.

Lemma nonneg_result_not_nan (x : number) : nonneg_result x -> is_nan x = false.
Proof.
  intros [->|[(p & e & -> & _)| ->]]; reflexivity.
Qed.

Lemma binary_round_aux_nonneg (m e : Z) (l : location) :
  0 <= m -> e <= fexp prec emax (Zdigits2 m + e) ->
  nonneg_result (binary_round_aux prec emax false m e l).
Proof.
  intros Hm He.
  destruct (binary_round_aux_spec false m e l Hm He) as (m1 & Hm1 & Hzero & Hpos).
  assert (H0 : 0 <= m1).
  { destruct (first_shift m e Hm He) as (Hms & _). destruct Hm1 as [->|[-> _]]; lia. }
  destruct (Z.eq_dec m1 0) as [Hz|Hz].
  - left. auto.
  - destruct (Hpos ltac:(lia)) as (p & e2 & _ & C & ->).
    destruct (rounded_cases false p e2) as [[Hb ->]|[_ ->]].
    + right. left. exists p, e2. auto.
    + right. right. reflexivity.
Qed.

Lemma div_posfin (x y : number) : posfin x -> posfin y -> nonneg_result (div x y).
Proof.
  intros (px & ex & -> & Cx & _) (py & ey & -> & Cy & _).
  unfold div. cbn [SFdiv]. rewrite SFdiv_core_binary_eq. cbn [xorb].
  destruct (div_core_spec (Zpos px) ex (Zpos py) ey ltac:(lia) ltac:(lia))
    as (Hq & Hexp & _).
  apply binary_round_aux_nonneg; assumption.
Qed.

Lemma mul_posfin (x y : number) : posfin x -> posfin y -> nonneg_result (mul x y).
Proof.
  intros (px & ex & -> & Cx & _) (py & ey & -> & Cy & _).
  change (mul (S754_finite false px ex) (S754_finite false py ey))
    with (binary_round_aux prec emax false (Zpos px * Zpos py) (ex + ey) loc_Exact).
  apply binary_round_aux_nonneg; [lia|].
  apply mul_exponent_ok; assumption.
Qed.

Lemma posfin_lit_100 : posfin (lit 100).
Proof.
  rewrite lit_100. exists 7036874417766400%positive, (-46).
  split; [reflexivity|]. split; [split; [lia|reflexivity]|]. vm_compute. discriminate.
Qed.

Lemma posfin_lit_1 : posfin (lit 1).
Proof.
  rewrite lit_1. exists 4503599627370496%positive, (-52).
  split; [reflexivity|]. split; [apply canon_one|]. vm_compute. discriminate.
Qed.

Lemma mul_nonneg_result_100 (x : number) :
  nonneg_result x -> nonneg_result (mul x (lit 100)).
Proof.
  intros [->|[Hx| ->]].
  - left. rewrite lit_100. reflexivity.
  - apply mul_posfin; [exact Hx|apply posfin_lit_100].
  - right. right. rewrite lit_100. reflexivity.
Qed.

(** A number of the format that is positive and finite. *)
Lemma posfin_intro (x : number) :
  valid x = true -> is_finite x = true -> lt (lit 0) x = true -> posfin x.
Proof.
  rewrite lit_0. unfold lt.
  destruct x as [s|s| |s p e]; cbn [SFcompare is_finite]; try discriminate.
  destruct s; [discriminate|]. intros Hv _ _.
  unfold valid in Hv. cbn [valid_binary] in Hv. unfold bounded in Hv.
  apply andb_prop in Hv as [Hc Hb].
  exists p, e. split; [reflexivity|]. split.
  - apply canonical_mantissa_canon. exact Hc.
  - apply Z.leb_le. exact Hb.
Qed.

(** A number of the format between 0 and a positive finite number is a
    zero or a positive finite number. *)
Lemma zero_or_posfin_intro (x y : number) :
  valid x = true -> posfin y -> le (lit 0) x = true -> le x y = true ->
  (exists s, x = S754_zero s) \/ posfin x.
Proof.
  intros Hv (py & ey & -> & _) H0 Hle. rewrite lit_0 in H0. unfold le, ge in *.
  destruct x as [s|s| |s p e]; cbn [SFcompare] in *; try discriminate.
  - left. eauto.
  - destruct s; discriminate.
  - destruct s; [discriminate|]. right.
    unfold valid in Hv. cbn [valid_binary] in Hv. unfold bounded in Hv.
    apply andb_prop in Hv as [Hc Hb].
    exists p, e. split; [reflexivity|]. split.
    + apply canonical_mantissa_canon. exact Hc.
    + apply Z.leb_le. exact Hb.
Qed.

Lemma projected_posfin (x : number) (k : nat) :
  posfin x -> posfin (Attendance.projected x k).
Proof.
  intros Hx. induction k as [|k IH]; [exact Hx|].
  change (Attendance.projected x (S k)) with (incr (Attendance.projected x k)).
  apply incr_posfin. exact IH.
Qed.

Lemma projected_zero_or_posfin (x : number) (k : nat) :
  (exists s, x = S754_zero s) \/ posfin x ->
  (exists s, Attendance.projected x k = S754_zero s)
  \/ posfin (Attendance.projected x k).
Proof.
  intros Hx. induction k as [|k IH]; [exact Hx|].
  right. change (Attendance.projected x (S k)) with (incr (Attendance.projected x k)).
  destruct IH as [[s Hs]|IH].
  - rewrite Hs. unfold incr, add. rewrite lit_1. cbn [SFadd]. rewrite <- lit_1.
    apply posfin_lit_1.
  - apply incr_posfin. exact IH.
Qed.

(** The percentage computed from a count that is a zero or a positive
    finite number and a total that is a positive finite number is never
    [NaN]. *)
Lemma percentage_not_nan (a t : number) :
  (exists s, a = S754_zero s) \/ posfin a -> posfin t ->
  is_nan (mul (div a t) (lit 100)) = false.
Proof.
  intros [[s ->]|Ha] Ht.
  - destruct Ht as (p & e & -> & _). rewrite lit_100. destruct s; reflexivity.
  - apply nonneg_result_not_nan, mul_nonneg_result_100, div_posfin; assumption.
Qed.

End Classes.

(** ** Strings and decimal numerals *)

Section StringFacts.
Import JSString.

Lemma string_app_cons (c : ascii) (a b : string) :
  String c a +:+ b = String c (a +:+ b).
Proof. reflexivity. Qed.

Lemma string_app_nil_r (s : string) : s +:+ "" = s.
Proof.
  induction s as [|c s IH]; [reflexivity|]. rewrite string_app_cons, IH. reflexivity.
Qed.

Lemma string_app_assoc (a b c : string) : (a +:+ b) +:+ c = a +:+ (b +:+ c).
Proof.
  induction a as [|x a IH]; [reflexivity|]. rewrite !string_app_cons, IH. reflexivity.
Qed.

Lemma string_length_app (a b : string) :
  String.length (a +:+ b) = (String.length a + String.length b)%nat.
Proof.
  induction a as [|x a IH]; [reflexivity|]. rewrite string_app_cons.
  cbn [String.length]. rewrite IH. reflexivity.
Qed.

Lemma substring_all (s : string) : String.substring 0 (String.length s) s = s.
Proof.
  induction s as [|c s IH]; [reflexivity|].
  cbn [String.length String.substring]. rewrite IH. reflexivity.
Qed.

Lemma substring_app_l (a b : string) :
  String.substring 0 (String.length a) (a +:+ b) = a.
Proof.
  induction a as [|x a IH].
  - destruct b; reflexivity.
  - rewrite string_app_cons. cbn [String.length String.substring]. rewrite IH.
    reflexivity.
Qed.

Lemma substring_app_r (a b : string) (n : nat) :
  String.substring (String.length a) n (a +:+ b) = String.substring 0 n b.
Proof.
  induction a as [|x a IH]; [reflexivity|].
  rewrite string_app_cons. cbn [String.length String.substring]. exact IH.
Qed.

(** [s.substring(0, |a|)] and [s.substring(|a|)] split [s = a + b]. *)
Lemma js_substring_app_l (a b : string) :
  substring (a +:+ b) 0 (String.length a) = a.
Proof.
  unfold substring. rewrite string_length_app.
  rewrite Nat.min_0_l, Nat.min_0_l, Nat.max_0_l, Nat.sub_0_r.
  rewrite Nat.min_l by lia. apply substring_app_l.
Qed.

Lemma js_substring_app_r (a b : string) :
  substring_from (a +:+ b) (String.length a) = b.
Proof.
  unfold substring_from, substring. rewrite string_length_app.
  rewrite (Nat.min_l (String.length a)) by lia. rewrite Nat.min_id.
  rewrite Nat.min_l, Nat.max_r by lia.
  replace (String.length a + String.length b - String.length a)%nat
    with (String.length b) by lia.
  rewrite substring_app_r. apply substring_all.
Qed.

(** *** Digits *)

Local Open Scope N_scope.

Lemma pretty_N_go_app (x : N) : forall s, pretty_N_go x s = pretty_N_go x "" +:+ s.
Proof.
  induction (N.lt_wf_0 x) as [x _ IH]. intros s.
  destruct (N.eq_dec x 0) as [->|Hx].
  - rewrite !pretty_N_go_0. reflexivity.
  - rewrite (pretty_N_go_step x s), (pretty_N_go_step x "") by lia.
    rewrite (IH (x `div` 10)%N) by (apply N.div_lt; lia).
    rewrite (IH (x `div` 10)%N ltac:(apply N.div_lt; lia) (String _ "")).
    rewrite string_app_assoc. reflexivity.
Qed.

Lemma pretty_N_pos (x : N) : (0 < x)%N -> pretty x = pretty_N_go x "".
Proof.
  intros Hx. unfold pretty, pretty_N. destruct (decide (x = 0%N)); [lia|reflexivity].
Qed.

Lemma digit_value_char (d : N) : (d < 10)%N -> digit_value (pretty_N_char d) = Some d.
Proof.
  intros Hd.
  assert (H : d = 0 \/ d = 1 \/ d = 2 \/ d = 3 \/ d = 4 \/ d = 5 \/ d = 6
              \/ d = 7 \/ d = 8 \/ d = 9) by lia.
  repeat (destruct H as [->|H]; [reflexivity|]). subst d. reflexivity.
Qed.

(** Reading back the digits that [pretty_N_go] puts before [s]. *)
Lemma digits_value_go (x : N) : forall s,
  digits_value (pretty_N_go x s) 0 = digits_value s x.
Proof.
  induction (N.lt_wf_0 x) as [x _ IH]. intros s.
  destruct (N.eq_dec x 0) as [->|Hx].
  - rewrite pretty_N_go_0. reflexivity.
  - rewrite pretty_N_go_step by lia.
    rewrite IH by (apply N.div_lt; lia). cbn [digits_value].
    rewrite digit_value_char by (apply N.mod_lt; lia).
    f_equal. rewrite N.add_comm. symmetry.
    rewrite N.add_comm. apply N.div_mod. lia.
Qed.

Lemma digits_value_pretty_app (q : N) (t : string) :
  digits_value (pretty q +:+ t) 0 = digits_value t q.
Proof.
  destruct (N.eq_dec q 0) as [->|Hq].
  - reflexivity.
  - rewrite pretty_N_pos by lia. rewrite <- pretty_N_go_app. apply digits_value_go.
Qed.

(** *** Strings without a point *)

Lemma pretty_N_char_no_point (d : N) : Ascii.eqb (pretty_N_char d) "." = false.
Proof. unfold pretty_N_char. repeat case_match; reflexivity. Qed.

Lemma no_point_go (x : N) : forall s, no_point s = true -> no_point (pretty_N_go x s) = true.
Proof.
  induction (N.lt_wf_0 x) as [x _ IH]. intros s Hs.
  destruct (N.eq_dec x 0) as [->|Hx].
  - rewrite pretty_N_go_0. exact Hs.
  - rewrite pretty_N_go_step by lia. apply IH; [apply N.div_lt; lia|].
    cbn [no_point]. rewrite pretty_N_char_no_point, Hs. reflexivity.
Qed.

Lemma no_point_pretty (q : N) : no_point (pretty q) = true.
Proof.
  destruct (N.eq_dec q 0) as [->|Hq]; [reflexivity|].
  rewrite pretty_N_pos by lia. apply no_point_go. reflexivity.
Qed.

Lemma split_cons (sep : ascii) (s : string) :
  exists piece pieces, split sep s = piece :: pieces.
Proof.
  induction s as [|c s (piece & pieces & IH)]; cbn [split]; [eauto|].
  destruct (Ascii.eqb c sep); [eauto|]. rewrite IH. eauto.
Qed.

Lemma split_no_point (a s : string) (piece : string) (pieces : list string) :
  no_point a = true ->
  split "." s = piece :: pieces ->
  split "." (a +:+ s) = (a +:+ piece) :: pieces.
Proof.
  intros Ha Hs. induction a as [|c a IH].
  - exact Hs.
  - cbn [no_point] in Ha. apply andb_prop in Ha as [Hc Ha].
    apply negb_true_iff in Hc.
    rewrite !string_app_cons. cbn [split]. rewrite Hc, (IH Ha). reflexivity.
Qed.

Lemma split_point (a b : string) :
  no_point a = true -> no_point b = true ->
  split "." (a +:+ "." +:+ b) = [a; b].
Proof.
  intros Ha Hb.
  assert (H : split "." b = [b]).
  { pose proof (split_no_point b "" "" [] Hb eq_refl) as H.
    rewrite string_app_nil_r in H. exact H. }
  rewrite (split_no_point a ("." +:+ b) "" [b] Ha).
  - rewrite string_app_nil_r. reflexivity.
  - change ("." +:+ b) with (String "." b). cbn [split].
    rewrite Ascii.eqb_refl, H. reflexivity.
Qed.

(** *** The digits [toFixed] prints *)

Lemma format_fixed_small :
  forallb (fun n : nat =>
    String.eqb (format_fixed (Z.of_nat n) 2)
      (pretty (N.of_nat n `div` 100)%N +:+ "." +:+ last_two (N.of_nat n)))
    (seq 0 100) = true.
Proof. vm_compute. reflexivity. Qed.

Lemma format_fixed_two (n : N) :
  format_fixed (Z.of_N n) 2 = pretty (n `div` 100)%N +:+ "." +:+ last_two n.
Proof.
  destruct (N.lt_ge_cases n 100) as [Hsmall|Hbig].
  - pose proof format_fixed_small as T. rewrite forallb_forall in T.
    specialize (T (N.to_nat n)). rewrite in_seq in T.
    specialize (T ltac:(lia)). apply String.eqb_eq in T.
    rewrite N_nat_Z, !N2Nat.id in T. exact T.
  - assert (H10 : (0 < n `div` 10)%N) by (apply N.div_str_pos; lia).
    assert (H100 : (0 < n `div` 100)%N) by (apply N.div_str_pos; lia).
    assert (Hm : pretty n = pretty (n `div` 100)%N +:+ last_two n).
    { rewrite (pretty_N_pos n) by lia. rewrite (pretty_N_pos (n `div` 100)) by lia.
      rewrite (pretty_N_go_step n) by lia.
      rewrite (pretty_N_go_step (n `div` 10)) by lia.
      rewrite N.Div0.div_div. change (10 * 10)%N with 100%N.
      rewrite pretty_N_go_app. reflexivity. }
    unfold format_fixed. rewrite N2Z.id. cbn [Nat.eqb].
    rewrite Hm.
    assert (Hlen : String.length (pretty (n `div` 100)%N +:+ last_two n)
                   = (String.length (pretty (n `div` 100)%N) + 2)%nat).
    { rewrite string_length_app. reflexivity. }
    assert (Hpos : (0 < String.length (pretty (n `div` 100)%N))%nat).
    { rewrite (pretty_N_pos (n `div` 100)) by lia.
      rewrite (pretty_N_go_step (n `div` 100)) by lia.
      rewrite pretty_N_go_app, string_length_app. cbn. lia. }
    rewrite Hlen.
    replace (String.length (pretty (n `div` 100)%N) + 2 <=? 2)%nat with false
      by (symmetry; apply Nat.leb_gt; lia).
    rewrite Hlen.
    replace (String.length (pretty (n `div` 100)%N) + 2 - 2)%nat
      with (String.length (pretty (n `div` 100)%N)) by lia.
    rewrite js_substring_app_l, js_substring_app_r. reflexivity.
Qed.

Lemma decimal_value_unsigned (s : string) :
  (forall s', s <> String "-" s') -> decimal_value s = unsigned_decimal_value s.
Proof.
  intros H. destruct s as [|c s]; [reflexivity|].
  destruct (Ascii.eqb_spec c "-") as [->|Hc].
  - exfalso. apply (H s). reflexivity.
  - unfold decimal_value.
    destruct c as [[] [] [] [] [] [] [] []]; try reflexivity.
    exfalso. apply Hc. reflexivity.
Qed.

Lemma format_fixed_not_dash (n : N) (s' : string) :
  format_fixed (Z.of_N n) 2 <> String "-" s'.
Proof.
  rewrite format_fixed_two. intros Hs.
  destruct (N.eq_dec (n `div` 100) 0) as [E|E].
  - rewrite E in Hs. discriminate.
  - rewrite pretty_N_pos in Hs by (apply N.neq_0_lt_0; exact E).
    rewrite <- pretty_N_go_app in Hs.
    revert Hs. apply (pretty_N_go_ne_dash _ _ s'). discriminate.
Qed.

(** The numeral that [toFixed] prints for the integer [n] and two
    fraction digits denotes [n / 100]. *)
Lemma unsigned_decimal_value_format_fixed (n : N) :
  unsigned_decimal_value (format_fixed (Z.of_N n) 2) = Some (Z.of_N n # 100).
Proof.
  rewrite format_fixed_two.
  assert (Hlast : no_point (last_two n) = true).
  { unfold last_two. cbn [no_point]. rewrite !pretty_N_char_no_point. reflexivity. }
  unfold unsigned_decimal_value.
  rewrite (split_point _ _ (no_point_pretty _) Hlast).
  assert (Hne : String.eqb (pretty (n `div` 100)%N +:+ last_two n) "" = false).
  { apply String.eqb_neq. intros E. apply (f_equal String.length) in E.
    rewrite string_length_app in E. cbn in E. lia. }
  rewrite Hne. rewrite digits_value_pretty_app.
  unfold last_two. cbn [digits_value].
  rewrite !digit_value_char by (apply N.mod_lt; lia).
  cbn [fmap option_fmap option_map String.length].
  f_equal. f_equal.
  pose proof (N.div_mod n 10 ltac:(lia)) as E1.
  pose proof (N.div_mod (n `div` 10) 10 ltac:(lia)) as E2.
  rewrite N.Div0.div_div in E2. change (10 * 10)%N with 100%N in E2. lia.
Qed.

Lemma decimal_value_format_fixed (n : N) :
  decimal_value (format_fixed (Z.of_N n) 2) = Some (Z.of_N n # 100).
Proof.
  rewrite decimal_value_unsigned by (intros s'; apply format_fixed_not_dash).
  apply unsigned_decimal_value_format_fixed.
Qed.

Lemma decimal_value_minus_format_fixed (n : N) :
  decimal_value ("-" +:+ format_fixed (Z.of_N n) 2) = Some (- Z.of_N n # 100).
Proof.
  change ("-" +:+ format_fixed (Z.of_N n) 2) with (String "-" (format_fixed (Z.of_N n) 2)).
  cbn [decimal_value]. rewrite unsigned_decimal_value_format_fixed. reflexivity.
Qed.

End StringFacts.

(** ** The attendance percentage *)

Section Percentage.
Import JSString.

(** On positive numbers of the format, [<=] is the order of the values. *)
Lemma le_value (pa : positive) (ea : Z) (pt : positive) (et : Z) :
  canon (Zpos pa) ea -> canon (Zpos pt) et ->
  le (S754_finite false pa ea) (S754_finite false pt et) = true ->
  (F (Zpos pa) ea <= F (Zpos pt) et)%Q.
Proof.
  intros Ca Ct. unfold le, ge. cbn [SFcompare].
  destruct (Z.compare_spec et ea) as [->|Hlt|Hgt].
  - rewrite compare_cont_Eq.
    destruct (Pos.compare_spec pt pa) as [->|Hlt|Hgt]; try discriminate; intros _.
    + apply Qle_refl.
    + apply F_le. lia.
  - discriminate.
  - intros _. apply Qlt_le_weak. apply canon_lt; assumption.
Qed.

Lemma F_100 : (F 7036874417766400 (-46) == 100)%Q.
Proof. vm_compute. reflexivity. Qed.

Lemma canon_100 : canon 7036874417766400 (-46).
Proof. split; [lia|reflexivity]. Qed.

(** For [0 <= attended <= total] with [total] positive and finite, the
    percentage [attended / total * 100] is a zero or a positive number of
    value at most 100. *)
Lemma percentage_range (a t : number) :
  (exists s, a = S754_zero s) \/ posfin a -> posfin t -> le a t = true ->
  (exists s, mul (div a t) (lit 100) = S754_zero s)
  \/ exists (p : positive) (e : Z),
       mul (div a t) (lit 100) = S754_finite false p e
       /\ (F (Zpos p) e <= 100)%Q.
Proof.
  intros [[s ->]|(pa & ea & -> & Ca & _)] (pt & et & -> & Ct & _) Hle.
  - left. exists s. rewrite lit_100. destruct s; reflexivity.
  - pose proof (le_value pa ea pt et Ca Ct Hle) as Hv.
    destruct (div_upper pa ea pt et 4503599627370496 (-52) canon_one)
      as [Hz|(q & eq & Hq & Cq & _ & Hq1)].
    + vm_compute. discriminate.
    + rewrite F_one. lra.
    + left. exists false. rewrite Hz, lit_100. reflexivity.
    + rewrite Hq, lit_100. rewrite F_one in Hq1.
      destruct (mul_upper q eq 7036874417766400 (-46) 7036874417766400 (-46)
                  Cq canon_100 canon_100)
        as [Hz|(r & er & Hr & _ & _ & Hr100)].
      * vm_compute. discriminate.
      * rewrite F_100. pose proof (F_pos (Zpos q) eq ltac:(lia)). nra.
      * left. exists false. exact Hz.
      * right. exists r, er. split; [exact Hr|]. rewrite <- F_100. exact Hr100.
Qed.

(** *** [toFixed] on finite numbers below [10 ^ 21] *)

Lemma Qle_bool_false (x y : Q) : Qle_bool x y = false <-> (y < x)%Q.
Proof.
  split.
  - intros H. apply Qnot_le_lt. intros Hle. apply Qle_bool_iff in Hle. congruence.
  - intros H. destruct (Qle_bool x y) eqn:E; [|reflexivity].
    apply Qle_bool_iff in E. exfalso. apply (Qlt_not_le _ _ H E).
Qed.

Lemma toFixed_nonneg `{Host} (x : number) (f : nat) :
  is_finite x = true -> (0 <= real_value x)%Q ->
  (real_value x < inject_Z (10 ^ 21))%Q ->
  toFixed x f
  = format_fixed (Qfloor (real_value x * inject_Z (10 ^ Z.of_nat f) + (1 # 2))) f.
Proof.
  intros Hfin H0 Hbig. apply Qle_bool_iff in H0. apply Qle_bool_false in Hbig.
  unfold toFixed. destruct x as [s|s| |s m e]; try discriminate.
  all: rewrite H0, Hbig; reflexivity.
Qed.

Lemma toFixed_neg `{Host} (x : number) (f : nat) :
  is_finite x = true -> (real_value x < 0)%Q ->
  (- real_value x < inject_Z (10 ^ 21))%Q ->
  toFixed x f
  = "-" +:+ format_fixed
              (Qfloor (- real_value x * inject_Z (10 ^ Z.of_nat f) + (1 # 2))) f.
Proof.
  intros Hfin H0 Hbig. apply Qle_bool_false in H0. apply Qle_bool_false in Hbig.
  unfold toFixed. destruct x as [s|s| |s m e]; try discriminate.
  all: rewrite H0, Hbig; reflexivity.
Qed.

Lemma nearest_integer_floor (w : Q) : nearest_integer (Qfloor (w + (1 # 2))) w.
Proof.
  unfold nearest_integer.
  pose proof (Qfloor_le (w + (1 # 2))) as Hle.
  pose proof (Qlt_floor (w + (1 # 2))) as Hlt.
  rewrite inject_Z_plus in Hlt. change (inject_Z 1) with 1%Q in Hlt.
  split; lra.
Qed.

Lemma Qfloor_nonneg (w : Q) : (0 <= w)%Q -> 0 <= Qfloor w.
Proof. intros H. apply (Qfloor_resp_le 0 w) in H. exact H. Qed.

End Percentage.

(** ** The document tree *)

Section TreeFacts.
Import DOM.
Local Open Scope nat_scope.

(** Induction on elements, with the property available for the
    children. *)
Lemma element_forest_ind (Q : element -> Prop) :
  (forall el, Forall Q (children el) -> Q el) -> forall el, Q el.
Proof.
  intros Hstep. fix IH 1. intros [t a s cs]. apply Hstep. cbn [children].
  induction cs as [|c cs IHcs]; constructor; [apply IH|exact IHcs].
Qed.

Lemma set_children_id (el : element) : set_children (children el) el = el.
Proof. destruct el; reflexivity. Qed.

Lemma alter_ext_lookup {A} (f g : A -> A) (i : nat) (l : list A) :
  (forall x, l !! i = Some x -> f x = g x) -> alter f i l = alter g i l.
Proof.
  revert i. induction l as [|y l IH]; intros [|i] H; cbn; [reflexivity..| |].
  - f_equal. apply H. reflexivity.
  - f_equal. apply IH. exact H.
Qed.

Lemma alter_id_lookup {A} (f : A -> A) (i : nat) (l : list A) :
  (forall x, l !! i = Some x -> f x = x) -> alter f i l = l.
Proof.
  revert i. induction l as [|y l IH]; intros [|i] H; cbn; [reflexivity..| |].
  - f_equal. apply H. reflexivity.
  - f_equal. apply IH. exact H.
Qed.

(** *** References *)

Lemma lookup_ref_cons (i : nat) (r : ref) (forest : list element) :
  lookup_ref (i :: r) forest
  = match forest !! i with
    | Some el => match r with [] => Some el | _ => lookup_ref r (children el) end
    | None => None
    end.
Proof. reflexivity. Qed.

Lemma update_ref_cons (f : element -> element) (i : nat) (r : ref)
    (forest : list element) :
  update_ref f (i :: r) forest = alter (update_in f r) i forest.
Proof. destruct r; reflexivity. Qed.

(** [update_ref] applies its function to the element referred to only. *)
Lemma update_ref_ext (f g : element -> element) (r : ref) : forall forest,
  (forall el, lookup_ref r forest = Some el -> f el = g el) ->
  update_ref f r forest = update_ref g r forest.
Proof.
  induction r as [|i r IH]; intros forest H; [reflexivity|].
  rewrite !update_ref_cons. apply alter_ext_lookup. intros el Hel.
  rewrite lookup_ref_cons, Hel in H. unfold update_in.
  destruct r as [|j r]; [apply H; reflexivity|].
  f_equal. apply IH. exact H.
Qed.

(** *** Selection *)

Lemma select_element_eq (P : element -> bool) (el : element) :
  select_element P el
  = (if P el then [ [] ] else []) ++ select_forest P 0 (children el).
Proof.
  destruct el as [t a s cs]. reflexivity.
Qed.

Lemma select_forest_app (P : element -> bool) (l1 l2 : list element) (i : nat) :
  select_forest P i (l1 ++ l2)
  = select_forest P i l1 ++ select_forest P (i + length l1) l2.
Proof.
  revert i. induction l1 as [|c l1 IH]; intros i; cbn [select_forest app length].
  - rewrite Nat.add_0_r. reflexivity.
  - replace (i + S (length l1)) with (S i + length l1) by lia.
    rewrite IH, <- app_assoc. reflexivity.
Qed.

(** *** [forEach] *)

Lemma forEach_app {A} (l1 l2 : list A) (f : A -> M unit) (d : document) :
  forEach (l1 ++ l2) f d
  = match forEach l1 f d with
    | Normal (_, d') => forEach l2 f d'
    | Throw e => Throw e
    end.
Proof.
  revert d. induction l1 as [|x l1 IH]; intros d; [reflexivity|].
  cbn [forEach app]. unfold bind. destruct (f x d) as [[[] d']|e]; [apply IH|reflexivity].
Qed.

(** A [forEach] whose body updates the element referred to is a fold of
    [update_ref]. *)
Lemma forEach_update (h : element -> element) (step : ref -> M unit) (rs : list ref) :
  (forall r d, step r d = Normal (tt, Document (cookie d) (update_ref h r (body d)))) ->
  forall d,
    forEach rs step d
    = Normal (tt, Document (cookie d)
                    (fold_left (fun forest r => update_ref h r forest) rs (body d))).
Proof.
  intros Hstep. induction rs as [|r rs IH]; intros d.
  - destruct d; reflexivity.
  - cbn [forEach fold_left]. unfold bind. rewrite Hstep, IH. reflexivity.
Qed.

(** *** A pass over the selected elements *)

Section Pass.
Variable P : element -> bool.
Variable h : element -> element.
Hypothesis h_children : forall el, children (h el) = children el.

Local Abbreviation g := (on_selected P h).
Local Abbreviation U := (update_at h).

Lemma fold_under (i : nat) (rs : list ref) : forall pre e post,
  length pre = i ->
  fold_left U ((i ::.) <$> rs) (pre ++ e :: post)
  = pre ++ fold_left (fun e r => update_in h r e) rs e :: post.
Proof.
  induction rs as [|r rs IH]; intros pre e post Hlen; [reflexivity|].
  cbn [fmap list_fmap fold_left]. unfold update_at at 2. rewrite update_ref_cons.
  rewrite <- Hlen, <- (Nat.add_0_r (length pre)), alter_app_r.
  cbn [alter list_alter]. rewrite Nat.add_0_r, Hlen. apply IH. exact Hlen.
Qed.

Lemma fold_update_in (rs : list ref) : forall e,
  Forall (fun r => r <> []) rs ->
  fold_left (fun e r => update_in h r e) rs e
  = set_children (fold_left U rs (children e)) e.
Proof.
  induction rs as [|r rs IH]; intros e Hne.
  - cbn. symmetry. apply set_children_id.
  - inversion Hne as [|? ? Hr Hrs]; subst. cbn [fold_left].
    rewrite (IH _ Hrs). unfold update_in. destruct r as [|j r]; [congruence|].
    destruct e; reflexivity.
Qed.

Lemma select_forest_nonempty (i : nat) (forest : list element) :
  Forall (fun r => r <> []) (select_forest P i forest).
Proof.
  revert i. induction forest as [|c cs IH]; intros i; cbn [select_forest].
  - constructor.
  - apply Forall_app. split; [|apply IH].
    apply Forall_fmap. apply Forall_forall. intros r _. discriminate.
Qed.

Lemma map_element_eq (el : element) :
  map_element g el = set_children (map (map_element g) (children el)) (g el).
Proof. destruct el; reflexivity. Qed.

Lemma pass_forest_of_elements (forest : list element) :
  Forall (fun el => forall pre post,
            fold_left U ((length pre ::.) <$> select_element P el) (pre ++ el :: post)
            = pre ++ map_element g el :: post) forest ->
  forall pre,
    fold_left U (select_forest P (length pre) forest) (pre ++ forest)
    = pre ++ map (map_element g) forest.
Proof.
  induction 1 as [|c cs Hc _ IH]; intros pre; [reflexivity|].
  cbn [select_forest map]. rewrite fold_left_app, Hc.
  replace (pre ++ map_element g c :: cs) with ((pre ++ [map_element g c]) ++ cs)
    by (rewrite <- app_assoc; reflexivity).
  replace (S (length pre)) with (length (pre ++ [map_element g c]))
    by (rewrite length_app; cbn; lia).
  rewrite IH, <- app_assoc. reflexivity.
Qed.

Lemma pass_element (el : element) : forall pre post,
  fold_left U ((length pre ::.) <$> select_element P el) (pre ++ el :: post)
  = pre ++ map_element g el :: post.
Proof.
  induction el as [el IH] using element_forest_ind. intros pre post.
  rewrite select_element_eq, fmap_app, fold_left_app.
  assert (Hch : children (g el) = children el).
  { unfold on_selected. destruct (P el); [apply h_children|reflexivity]. }
  assert (Hfirst : fold_left U ((length pre ::.) <$> (if P el then [ [] ] else []))
                     (pre ++ el :: post) = pre ++ g el :: post).
  { unfold on_selected. destruct (P el); [|reflexivity].
    cbn [fmap list_fmap fold_left]. unfold update_at. cbn [update_ref].
    rewrite <- (Nat.add_0_r (length pre)), alter_app_r. reflexivity. }
  etransitivity; [apply f_equal; exact Hfirst|].
  rewrite (fold_under (length pre)) by reflexivity.
  rewrite fold_update_in by apply select_forest_nonempty.
  rewrite Hch.
  pose proof (pass_forest_of_elements (children el) IH []) as Hcs.
  cbn [length app] in Hcs. rewrite Hcs, <- map_element_eq. reflexivity.
Qed.

(** Updating, in document order, every element that [P] selects is the
    same as mapping the update over the tree. *)
Lemma pass_forest (forest : list element) :
  fold_left U (select_forest P 0 forest) forest = map (map_element g) forest.
Proof.
  apply (pass_forest_of_elements forest) with (pre := []).
  apply Forall_forall. intros el _. apply pass_element.
Qed.

End Pass.

(** *** Mapping over the tree *)

Lemma lookup_ref_map (g : element -> element) (r : ref) : forall forest,
  lookup_ref r (map (map_element g) forest) = map_element g <$> lookup_ref r forest.
Proof.
  induction r as [|i r IH]; intros forest; [reflexivity|].
  rewrite !lookup_ref_cons, list_lookup_fmap.
  destruct (forest !! i) as [el|]; [|reflexivity]. cbn [fmap option_fmap option_map].
  destruct r as [|j r]; [reflexivity|].
  destruct el as [t a s cs]. cbn [map_element children]. apply IH.
Qed.

Lemma map_element_attributes (g : element -> element) (el : element) :
  attributes (map_element g el) = attributes (g el).
Proof. destruct el; reflexivity. Qed.

Lemma map_element_style (g : element -> element) (el : element) :
  style (map_element g el) = style (g el).
Proof. destruct el; reflexivity. Qed.

Lemma map_element_tagName (g : element -> element) (el : element) :
  tagName (map_element g el) = tagName (g el).
Proof. destruct el; reflexivity. Qed.

Lemma select_forest_map (Q : element -> bool) (g : element -> element) :
  (forall el, Q (map_element g el) = Q el) ->
  forall forest i,
    select_forest Q i (map (map_element g) forest) = select_forest Q i forest.
Proof.
  intros HQ.
  assert (Hel : forall el, select_element Q (map_element g el) = select_element Q el).
  { induction el as [el IH] using element_forest_ind.
    rewrite !select_element_eq, HQ. f_equal.
    destruct el as [t a s cs]. cbn [map_element children] in *.
    generalize 0. induction IH as [|c cs Hc _ IHcs]; intros i; [reflexivity|].
    cbn [map select_forest]. rewrite Hc, IHcs. reflexivity. }
  induction forest as [|c cs IH]; intros i; [reflexivity|].
  cbn [map select_forest]. rewrite Hel, IH. reflexivity.
Qed.

(** Mapping a function that changes nothing but the [display]
    declaration leaves the tree the same but for [display]. *)
Lemma same_but_display_map (g : element -> element) :
  (forall el, tagName (g el) = tagName el) ->
  (forall el, attributes (g el) = attributes el) ->
  (forall el, delete "display" (style (g el)) = delete "display" (style el)) ->
  forall forest, same_but_display (map (map_element g) forest) forest.
Proof.
  intros Ht Ha Hs forest. unfold same_but_display.
  assert (Hel : forall el,
             map_element erase_display (map_element g el) = map_element erase_display el).
  { induction el as [el IH] using element_forest_ind.
    destruct el as [t a s cs]. cbn [map_element children] in *.
    unfold erase_display at 1 2 3 5 6 7. cbn [tagName attributes style children].
    rewrite Ht, Ha, Hs. cbn [tagName attributes style]. f_equal.
    induction IH as [|c cs Hc _ IHcs]; [reflexivity|].
    cbn [map]. rewrite Hc, IHcs. reflexivity. }
  induction forest as [|c cs IH]; [reflexivity|].
  cbn [map]. rewrite Hel, IH. reflexivity.
Qed.

(** *** The filters *)

Lemma display_set_display (v : string) (el : element) :
  display (set_display v el) = v.
Proof.
  unfold display, set_display. cbn [style].
  destruct (String.eqb_spec v "") as [->|Hv].
  - rewrite lookup_delete_eq. reflexivity.
  - rewrite lookup_insert_eq. reflexivity.
Qed.

Lemma erase_set_display (v : string) (el : element) :
  delete "display" (style (set_display v el)) = delete "display" (style el).
Proof.
  unfold set_display. cbn [style]. destruct (String.eqb v "").
  - apply delete_delete_eq.
  - apply delete_insert_eq.
Qed.

(** The body of a filter's [forEach]. *)
Lemma filter_step (key v : string) (row : ref) (d : document) :
  bind (get_dataset row key) (fun row_value =>
    if String.eqb v "all" || bool_decide (row_value = Some v)
    then assign_display row ""
    else assign_display row "none") d
  = Normal (tt, Document (cookie d) (update_ref (row_action key v) row (body d))).
Proof.
  unfold bind, get_dataset.
  set (c := String.eqb v "all"
            || bool_decide (lookup_ref row (body d) ≫= (fun el => dataset el key) = Some v)).
  assert (H : update_ref (set_display (if c then "" else "none")) row (body d)
              = update_ref (row_action key v) row (body d)).
  { apply update_ref_ext. intros el Hel. unfold row_action, c. rewrite Hel. reflexivity. }
  destruct c; unfold assign_display; rewrite <- H; reflexivity.
Qed.

Lemma filter_pass (attr key v : string) (d : document) :
  bind (querySelectorAll (HasAttribute attr)) (fun rows =>
    forEach rows (fun row =>
      bind (get_dataset row key) (fun row_value =>
        if String.eqb v "all" || bool_decide (row_value = Some v)
        then assign_display row ""
        else assign_display row "none"))) d
  = Normal (tt, Document (cookie d)
                  (map (map_element (filter_element attr key v)) (body d))).
Proof.
  unfold bind at 1, querySelectorAll.
  rewrite (forEach_update (row_action key v)) by (intros; apply filter_step).
  rewrite (pass_forest (matches (HasAttribute attr)) (row_action key v))
    by (intros el; reflexivity).
  reflexivity.
Qed.

Lemma filter_element_tagName (attr key v : string) (el : element) :
  tagName (filter_element attr key v el) = tagName el.
Proof. unfold filter_element. destruct (matches _ el); reflexivity. Qed.

Lemma filter_element_attributes (attr key v : string) (el : element) :
  attributes (filter_element attr key v el) = attributes el.
Proof. unfold filter_element. destruct (matches _ el); reflexivity. Qed.

Lemma filter_element_erase (attr key v : string) (el : element) :
  delete "display" (style (filter_element attr key v el)) = delete "display" (style el).
Proof.
  unfold filter_element. destruct (matches _ el); [|reflexivity].
  apply erase_set_display.
Qed.

Lemma matches_map_element (sel : selector) (g : element -> element) :
  (forall el, attributes (g el) = attributes el) ->
  forall el, matches sel (map_element g el) = matches sel el.
Proof.
  intros Ha el. destruct sel; unfold matches; rewrite map_element_attributes, Ha;
    reflexivity.
Qed.

End TreeFacts.

(** *** The three filters *)

Section FilterFacts.
Import DOM.

Lemma filterByStatus_eq (status : string) (d : document) :
  filterByStatus status d
  = Normal (tt, Document (cookie d)
                  (map (map_element (filter_element "data-status" "status" status))
                     (body d))).
Proof. apply filter_pass. Qed.

Lemma filterByDay_eq (day : string) (d : document) :
  filterByDay day d
  = Normal (tt, Document (cookie d)
                  (map (map_element (filter_element "data-day" "day" day)) (body d))).
Proof. apply filter_pass. Qed.

Lemma filterBySemester_eq (semester : string) (d : document) :
  filterBySemester semester d
  = Normal (tt, Document (cookie d)
                  (map (map_element (filter_element "data-semester" "semester" semester))
                     (body d))).
Proof. apply filter_pass. Qed.

End FilterFacts.

(** ** Counting and removing selected elements *)

Lemma sum_delete {A} (g : A -> nat) (j : nat) (x : A) : forall l : list A,
  l !! j = Some x ->
  (sum_list (g <$> delete j l) + g x = sum_list (g <$> l))%nat.
Proof.
  induction j as [|j IH]; intros [|c cs] Hj; try discriminate.
  - injection Hj as ->. apply Nat.add_comm.
  - change ((g c + sum_list (g <$> delete j cs) + g x
             = g c + sum_list (g <$> cs))%nat).
    rewrite <- Nat.add_assoc. f_equal. apply IH. exact Hj.
Qed.

Lemma sum_alter {A} (g : A -> nat) (f : A -> A) (j : nat) (x : A) :
  forall l : list A,
  l !! j = Some x ->
  (sum_list (g <$> alter f j l) + g x = sum_list (g <$> l) + g (f x))%nat.
Proof.
  induction j as [|j IH]; intros [|c cs] Hj; try discriminate.
  - injection Hj as ->.
    change ((g (f x) + sum_list (g <$> cs) + g x
             = g x + sum_list (g <$> cs) + g (f x))%nat).
    rewrite (Nat.add_comm (g (f x))), (Nat.add_comm (g x)), <- !Nat.add_assoc.
    f_equal. apply Nat.add_comm.
  - change ((g c + sum_list (g <$> alter f j cs) + g x
             = g c + sum_list (g <$> cs) + g (f x))%nat).
    rewrite <- !Nat.add_assoc. f_equal. apply IH. exact Hj.
Qed.

Section Removal.
Import DOM.
Local Open Scope nat_scope.

Variable P : element -> bool.
Hypothesis P_children : forall cs el, P (set_children cs el) = P el.

Local Abbreviation w := (weight P).

Lemma select_forest_length (forest : list element) (i : nat) :
  length (select_forest P i forest) = sum_list (w <$> forest).
Proof.
  revert i. induction forest as [|c cs IH]; intros i; [reflexivity|].
  cbn [select_forest fmap list_fmap sum_list]. fold (fmap (M:=list) w cs).
  rewrite length_app, length_fmap, IH. reflexivity.
Qed.

Lemma elem_of_select_forest (r : ref) (forest : list element) (i : nat) :
  r ∈ select_forest P i forest ->
  exists j r' el,
    r = (i + j) :: r' /\ forest !! j = Some el /\ r' ∈ select_element P el.
Proof.
  revert i. induction forest as [|c cs IH]; intros i; cbn [select_forest].
  - intros Hr. apply elem_of_nil in Hr. destruct Hr.
  - intros Hr. apply elem_of_app in Hr. destruct Hr as [Hr|Hr].
    + apply list_elem_of_fmap in Hr. destruct Hr as (r' & -> & Hr').
      exists 0, r', c. rewrite Nat.add_0_r. auto.
    + apply IH in Hr. destruct Hr as (j & r' & el & -> & Hj & Hr').
      exists (S j), r', el. split; [f_equal; lia|]. auto.
Qed.

Lemma select_element_nil (el : element) :
  [] ∈ select_element P el -> P el = true.
Proof.
  rewrite select_element_eq. intros Hr. apply elem_of_app in Hr.
  destruct Hr as [Hr|Hr].
  - destruct (P el); [reflexivity|]. apply elem_of_nil in Hr. destruct Hr.
  - pose proof (select_forest_nonempty P 0 (children el)) as Hne.
    rewrite Forall_forall in Hne. destruct (Hne _ Hr). reflexivity.
Qed.

Lemma select_element_cons (k : nat) (r : ref) (el : element) :
  (k :: r) ∈ select_element P el -> (k :: r) ∈ select_forest P 0 (children el).
Proof.
  rewrite select_element_eq. intros Hr. apply elem_of_app in Hr.
  destruct Hr as [Hr|Hr]; [|exact Hr].
  destruct (P el).
  - apply list_elem_of_singleton in Hr. discriminate.
  - apply elem_of_nil in Hr. destruct Hr.
Qed.

Lemma weight_selected (el : element) : P el = true -> 1 <= w el.
Proof.
  intros HP. unfold weight. rewrite select_element_eq, HP. cbn [app length]. lia.
Qed.

Lemma weight_set_children (cs : list element) (el : element) :
  w (set_children cs el) + length (select_forest P 0 (children el))
  = w el + length (select_forest P 0 cs).
Proof.
  unfold weight. rewrite !select_element_eq, P_children, !length_app.
  cbn [children set_children].
  rewrite <- !Nat.add_assoc. f_equal. apply Nat.add_comm.
Qed.

Lemma remove_ref_cons (i : nat) (r : ref) (forest : list element) :
  remove_ref (i :: r) forest
  = match r with
    | [] => delete i forest
    | _ => alter (fun el => set_children (remove_ref r (children el)) el) i forest
    end.
Proof. destruct r; reflexivity. Qed.

Local Abbreviation removal := (removable P).

Lemma removal_step (forest : list element) :
  Forall (fun el => removal (children el)) forest -> removal forest.
Proof.
  intros Hforest r Hr.
  apply elem_of_select_forest in Hr. destruct Hr as (j & r' & el & -> & Hj & Hr').
  cbn [Nat.add]. rewrite lookup_ref_cons, remove_ref_cons, Hj.
  rewrite !select_forest_length.
  destruct r' as [|k r''].
  - exists el. split; [reflexivity|]. split; [apply select_element_nil; exact Hr'|].
    apply (sum_delete w). exact Hj.
  - apply select_element_cons in Hr'.
    rewrite Forall_lookup in Hforest. specialize (Hforest j el Hj (k :: r'') Hr').
    destruct Hforest as (el' & Hel' & HP & Hcount).
    exists el'. split; [exact Hel'|]. split; [exact HP|].
    pose proof (sum_alter w
      (fun el => set_children (remove_ref (k :: r'') (children el)) el) j el forest Hj)
      as Halter.
    pose proof (weight_set_children (remove_ref (k :: r'') (children el)) el) as Hw.
    cbv beta in Halter. lia.
Qed.

Lemma select_forest_remove (forest : list element) (r : ref) :
  r ∈ select_forest P 0 forest ->
  exists el : element,
    lookup_ref r forest = Some el /\ P el = true
    /\ length (select_forest P 0 (remove_ref r forest))
       + length (select_element P el)
       = length (select_forest P 0 forest).
Proof.
  revert r. change (removal forest). apply removal_step.
  apply Forall_forall. intros el _. revert el.
  apply (element_forest_ind (fun el => removal (children el))).
  intros el. apply removal_step.
Qed.

End Removal.

Lemma matches_set_children (sel : DOM.selector) (cs : list DOM.element) (el : DOM.element) :
  DOM.matches sel (DOM.set_children cs el) = DOM.matches sel el.
Proof. destruct sel; reflexivity. Qed.

(** ** The loading overlay *)

Section LoadingFacts.
Import DOM.

Lemma showLoading_eq (d : document) :
  showLoading d = Normal (tt, Document (cookie d) (body d ++ [overlay])).
Proof. reflexivity. Qed.

Lemma select_overlay :
  select_element (matches (HasId "loadingOverlay")) overlay = [ [] ].
Proof. vm_compute. reflexivity. Qed.

End LoadingFacts.

(** ** The cookie reader *)

Section CookieFacts.
Import JSString DOM.
Local Open Scope nat_scope.
Context `{Host}.

Lemma substring_min (n : nat) : forall s : string,
  String.substring 0 (Nat.min n (String.length s)) s = String.substring 0 n s.
Proof.
  induction n as [|n IH]; intros [|c s]; try reflexivity.
  cbn [String.length Nat.min String.substring]. rewrite IH. reflexivity.
Qed.

Lemma js_substring_0 (s : string) (n : nat) :
  substring s 0 n = String.substring 0 n s.
Proof.
  unfold substring. rewrite !Nat.min_0_l, Nat.max_0_l, Nat.sub_0_r.
  apply substring_min.
Qed.

(** The test of the loop, [cookie.substring(0, name.length + 1) === name + '='],
    holds exactly when [cookie] starts with [name=]. *)
Lemma substring_eqb_prefix (p s : string) :
  String.eqb (substring s 0 (String.length p)) p = String.prefix p s.
Proof.
  rewrite js_substring_0.
  destruct (String.prefix p s) eqn:Hp.
  - apply String.eqb_eq. apply String.prefix_correct. exact Hp.
  - apply String.eqb_neq. intros Heq. apply String.prefix_correct in Heq. congruence.
Qed.

Lemma prefix_app (p s : string) :
  String.prefix p s = true <-> exists rest : string, s = p +:+ rest.
Proof.
  split.
  - revert s. induction p as [|a p IH]; intros s Hp.
    + exists s. reflexivity.
    + destruct s as [|b s]; [discriminate|]. cbn [String.prefix] in Hp.
      destruct (ascii_dec a b) as [->|]; [|discriminate].
      destruct (IH s Hp) as [rest ->]. exists rest. reflexivity.
  - intros [rest ->]. apply String.prefix_correct. apply substring_app_l.
Qed.

Lemma name_eq_length (name : string) :
  String.length (name +:+ "=") = String.length name + 1.
Proof. apply string_length_app. Qed.

Lemma entry_matches_remainder (name entry : string) :
  entry_matches name entry = true ->
  trim entry
  = name +:+ "=" +:+ substring_from (trim entry) (String.length name + 1).
Proof.
  unfold entry_matches. intros Hm. apply prefix_app in Hm. destruct Hm as [rest Hrest].
  rewrite Hrest at 2. rewrite <- name_eq_length, js_substring_app_r.
  rewrite Hrest. apply string_app_assoc.
Qed.

Lemma entry_matches_empty (name : string) : entry_matches name "" = false.
Proof. destruct name; reflexivity. Qed.

Lemma getCookie_loop_cons (name entry : string) (cookies : list string) :
  getCookie_loop name (entry :: cookies)
  = if entry_matches name entry
    then match decodeURIComponent
                 (substring_from (trim entry) (String.length name + 1)) with
         | Normal cookieValue => Normal (Some cookieValue)
         | Throw e => Throw e
         end
    else getCookie_loop name cookies.
Proof.
  cbn [getCookie_loop]. rewrite <- name_eq_length, substring_eqb_prefix.
  reflexivity.
Qed.

Lemma getCookie_loop_skip (name : string) (before rest : list string) :
  Forall (fun e => entry_matches name e = false) before ->
  getCookie_loop name (before ++ rest) = getCookie_loop name rest.
Proof.
  induction 1 as [|e before He _ IH]; [reflexivity|].
  rewrite <- app_comm_cons, getCookie_loop_cons, He. exact IH.
Qed.

Lemma getCookie_eq (name : string) (d : document) :
  getCookie name d
  = match getCookie_loop name (split ";" (cookie d)) with
    | Normal v => Normal (v, d)
    | Throw e => Throw e
    end.
Proof.
  unfold getCookie, bind, document_cookie, lift, ret.
  destruct (String.eqb (cookie d) "") eqn:Hc; cbn [negb]; [|reflexivity].
  apply String.eqb_eq in Hc. rewrite Hc. cbn [split].
  rewrite getCookie_loop_cons, entry_matches_empty. reflexivity.
Qed.

End CookieFacts.

(** * Part IV: the stated properties *)

(** ** [calculateRequiredClasses] *)

Section RequiredClassesClaims.
Import Attendance.

(** C1, amended.  The percentage that the loop compares with the target
    is computed in double precision: after [k] additional attended
    classes, each of which increments both counts, it is
    [projectedPercentage t a k], the quotient
    [(currentAttended + k) / (currentTotal + k)] rounded to the nearest
    double, multiplied by 100 and rounded again.  For every finite
    [currentTotal > 0], every [currentAttended] with
    [0 <= currentAttended <= currentTotal] and every [targetPercentage]
    other than [NaN], [calculateRequiredClasses] returns the least [k]
    for which this computed percentage is [>= targetPercentage], and
    returns 100 when no [k < 100] satisfies this.  For whole counts
    below [2 ^ 53] the incremented counts are the exact sums.  The
    computed percentage can lie below the exact one:
    [calculateRequiredClasses(50, 29, 58)] is 1, the computed
    [29 / 50 * 100] being below 58.  In particular
    [calculateRequiredClasses(20, 14, 75)] is 4. *)
Theorem calculateRequiredClasses_minimum :
  (forall t a p : number,
      valid t = true -> valid a = true -> is_finite t = true ->
      lt (lit 0) t = true -> le (lit 0) a = true -> le a t = true ->
      is_nan p = false ->
      exists k : nat,
        (k <= 100)%nat
        /\ calculateRequiredClasses t a p = Some (lit (Z.of_nat k))
        /\ (forall j, (j < k)%nat -> ge (projectedPercentage t a j) p = false)
        /\ ((k < 100)%nat -> ge (projectedPercentage t a k) p = true)
        /\ ((forall j, (j < 100)%nat -> ge (projectedPercentage t a j) p = false)
            -> k = 100%nat))
  /\ (forall (n : Z) (k : nat),
        0 <= n -> n + Z.of_nat k < 2 ^ 53 ->
        projected (lit n) k = lit (n + Z.of_nat k))
  /\ (forall (t a : number) (k : nat),
        projectedPercentage t a k
        = mul (div (projected a k) (projected t k)) (lit 100))
  /\ (ge (projectedPercentage (lit 50) (lit 29) 0) (lit 58) = false
      /\ calculateRequiredClasses (lit 50) (lit 29) (lit 58) = Some (lit 1))
  /\ calculateRequiredClasses (lit 20) (lit 14) (lit 75) = Some (lit 4).
Proof.
  split; [|split; [exact projected_lit|]];
    [|split; [reflexivity|split; [split|]]; vm_compute; reflexivity].
  intros t a p Vt Va Ft Ht Ha Hat Hp.
  pose proof (posfin_intro t Vt Ft Ht) as Pt.
  pose proof (zero_or_posfin_intro a t Va Pt Ha Hat) as Pa.
  assert (Hnan : forall j, is_nan (projectedPercentage t a j) = false).
  { intros j. apply percentage_not_nan.
    - apply projected_zero_or_posfin. exact Pa.
    - apply projected_posfin. exact Pt. }
  destruct (calculateRequiredClasses_run t a p) as (k & Hk & Hrun & Hbefore & Hexit).
  exists k. split; [exact Hk|]. split; [apply Hrun; lia|].
  assert (Hat_k : (k < 100)%nat -> ge (projectedPercentage t a k) p = true).
  { intros Hlt. rewrite ge_negb_lt by auto. rewrite (Hexit Hlt). reflexivity. }
  split; [|split].
  - intros j Hj. apply lt_true_ge. apply Hbefore. exact Hj.
  - exact Hat_k.
  - intros Hnone. destruct (Nat.eq_dec k 100%nat) as [E|E]; [exact E|exfalso].
    assert (Hlt : (k < 100)%nat) by lia.
    rewrite (Hnone k Hlt) in Hat_k. specialize (Hat_k Hlt). discriminate.
Qed.

(** The hypotheses of C1 hold at [(20, 14, 75)]. *)
Lemma calculateRequiredClasses_minimum_witness :
  exists k : nat,
    (k <= 100)%nat
    /\ calculateRequiredClasses (lit 20) (lit 14) (lit 75) = Some (lit (Z.of_nat k))
    /\ (forall j, (j < k)%nat ->
          ge (projectedPercentage (lit 20) (lit 14) j) (lit 75) = false)
    /\ ((k < 100)%nat -> ge (projectedPercentage (lit 20) (lit 14) k) (lit 75) = true)
    /\ ((forall j, (j < 100)%nat ->
          ge (projectedPercentage (lit 20) (lit 14) j) (lit 75) = false)
        -> k = 100%nat).
Proof.
  apply (proj1 calculateRequiredClasses_minimum (lit 20) (lit 14) (lit 75));
    vm_compute; reflexivity.
Defined.

(** C1 as stated fails: [calculateRequiredClasses(20, 14, 75)] is 4, not
    2, since [(14 + 2) / (20 + 2) * 100] is below 75; for the target
    [NaN] the function returns 0 although no [k] reaches the target; and
    at [(50, 29, 58)], where [29 / 50 * 100] is 58 in exact arithmetic so
    that the least [k] of the statement is 0, the percentage computed in
    double precision is below 58 and the function returns 1. *)
Lemma calculateRequiredClasses_minimum_counterexample :
  calculateRequiredClasses (lit 20) (lit 14) (lit 75) = Some (lit 4)
  /\ lit 4 <> lit 2
  /\ ge (projectedPercentage (lit 20) (lit 14) 2) (lit 75) = false
  /\ calculateRequiredClasses (lit 20) (lit 14) NaN = Some (lit 0)
  /\ (forall k, ge (projectedPercentage (lit 20) (lit 14) k) NaN = false)
  /\ (real_value (lit 29) / real_value (lit 50) * real_value (lit 100)
      == real_value (lit 58))%Q
  /\ (real_value (projectedPercentage (lit 50) (lit 29) 0) < real_value (lit 58))%Q
  /\ calculateRequiredClasses (lit 50) (lit 29) (lit 58) = Some (lit 1)
  /\ lit 1 <> lit 0.
Proof.
  split; [vm_compute; reflexivity|]. split; [vm_compute; discriminate|].
  split; [vm_compute; reflexivity|]. split; [vm_compute; reflexivity|].
  split.
  - intros k. unfold ge.
    destruct (SFcompare (projectedPercentage (lit 20) (lit 14) k) NaN) eqn:E; [|reflexivity].
    exfalso. assert (H : SFcompare (projectedPercentage (lit 20) (lit 14) k) NaN = None).
    { apply SFcompare_None. right. reflexivity. }
    congruence.
  - split; [vm_compute; reflexivity|]. split; [vm_compute; reflexivity|].
    split; [vm_compute; reflexivity|vm_compute; discriminate].
Qed.

(** C3.  For every triple of arguments [calculateRequiredClasses]
    terminates, its loop body executing at most 100 times, and the value
    it returns is not greater than 100. *)
Theorem calculateRequiredClasses_terminates_capped (t a p : number) :
  exists r : number,
    calculateRequiredClasses t a p = Some r
    /\ (forall n, (100 <= n)%nat -> calculateRequiredClasses_within n t a p = Some r)
    /\ le r (lit 100) = true
    /\ lt (lit 100) r = false.
Proof.
  destruct (calculateRequiredClasses_run t a p) as (k & Hk & Hrun & _).
  destruct (counter_facts k Hk) as (_ & _ & Hle).
  exists (lit (Z.of_nat k)). split; [apply Hrun; lia|]. split; [exact Hrun|].
  split; [exact Hle|]. apply ge_true_lt. exact Hle.
Qed.

(** C10, amended.  For [currentTotal = +0], every [currentAttended] that
    is not negative (a zero, a positive number, [+Infinity] or [NaN]) and
    every [targetPercentage], the percentage in the loop condition is
    [NaN] or [+Infinity], the comparison is false, the loop body never
    executes and [calculateRequiredClasses] returns 0.  For a negative
    [currentAttended] the quotient is [-Infinity] and the loop runs as
    soon as the target is a number above [-Infinity]. *)
Theorem calculateRequiredClasses_zero_total :
  (forall a p : number,
      lt a (lit 0) = false ->
      (projectedPercentage (lit 0) a 0 = NaN
       \/ projectedPercentage (lit 0) a 0 = Infinity)
      /\ lt (projectedPercentage (lit 0) a 0) p = false
      /\ forall n, calculateRequiredClasses_within n (lit 0) a p = Some (lit 0))
  /\ (forall a p : number,
        lt a (lit 0) = true -> lt (S754_infinity true) p = true ->
        projectedPercentage (lit 0) a 0 = S754_infinity true
        /\ exists k : nat, (1 <= k <= 100)%nat
             /\ calculateRequiredClasses (lit 0) a p = Some (lit (Z.of_nat k))).
Proof.
  split.
  - intros a p Ha.
    assert (Hpct : projectedPercentage (lit 0) a 0 = NaN
                   \/ projectedPercentage (lit 0) a 0 = Infinity).
    { unfold projectedPercentage, projected. cbn [Nat.iter nat_rect].
      rewrite lit_0, lit_100. rewrite lit_0 in Ha. unfold lt in Ha.
      destruct a as [s|s| |s m e]; cbn [SFcompare] in Ha;
        try (destruct s; try discriminate); auto. }
    assert (Hcmp : lt (projectedPercentage (lit 0) a 0) p = false).
    { destruct Hpct as [->| ->]; [reflexivity|].
      unfold lt, Infinity. destruct p as [s|[|]| |s m e]; reflexivity. }
    split; [exact Hpct|]. split; [exact Hcmp|].
    intros n. unfold calculateRequiredClasses_within.
    rewrite (while_loop_exit _ _ 0%nat) by (try lia; try (intros; lia);
      cbn [Nat.iter nat_rect]; unfold loop_cond, loop_init;
      cbn [futureAttended futureTotal required];
      change (mul (div a (lit 0)) (lit 100)) with (projectedPercentage (lit 0) a 0);
      rewrite Hcmp; reflexivity).
    reflexivity.
  - intros a p Ha Hp.
    assert (Hpct : projectedPercentage (lit 0) a 0 = S754_infinity true).
    { unfold projectedPercentage, projected. cbn [Nat.iter nat_rect].
      rewrite lit_0, lit_100. rewrite lit_0 in Ha. unfold lt in Ha.
      destruct a as [s|s| |s m e]; cbn [SFcompare] in Ha;
        try discriminate; destruct s; try discriminate; reflexivity. }
    split; [exact Hpct|].
    destruct (calculateRequiredClasses_run (lit 0) a p) as (k & Hk & Hrun & _ & Hexit).
    exists k. split; [|apply Hrun; lia].
    destruct k as [|k]; [|lia].
    specialize (Hexit ltac:(lia)). rewrite Hpct in Hexit. congruence.
Qed.

(** The hypothesis of C10 holds at [currentAttended = 5]. *)
Lemma calculateRequiredClasses_zero_total_witness :
  (projectedPercentage (lit 0) (lit 5) 0 = NaN
   \/ projectedPercentage (lit 0) (lit 5) 0 = Infinity)
  /\ lt (projectedPercentage (lit 0) (lit 5) 0) (lit 75) = false
  /\ forall n, calculateRequiredClasses_within n (lit 0) (lit 5) (lit 75) = Some (lit 0).
Proof.
  apply (proj1 calculateRequiredClasses_zero_total (lit 5) (lit 75)).
  vm_compute. reflexivity.
Defined.

(** C10 as stated fails for a negative [currentAttended]:
    [calculateRequiredClasses(0, -1, 75)] is 4. *)
Lemma calculateRequiredClasses_zero_total_counterexample :
  calculateRequiredClasses (lit 0) (lit (-1)) (lit 75) = Some (lit 4)
  /\ lit 4 <> lit 0
  /\ div (lit (-1)) (lit 0) = S754_infinity true.
Proof.
  split; [vm_compute; reflexivity|]. split; [vm_compute; discriminate|].
  vm_compute. reflexivity.
Qed.

End RequiredClassesClaims.

(** ** [getAttendanceColor] *)

Section ColorClaims.
Import Attendance.

(** C6, amended.  For every percentage [p]: [getAttendanceColor(p)] is
    ['success'] if and only if [p >= 75], ['warning'] if and only if
    [65 <= p < 75], and ['danger'] if and only if [p < 65] or [p] is
    [NaN]; in particular it is ['success'] at 80, ['warning'] at 70 and
    ['danger'] at 50. *)
Theorem getAttendanceColor_thresholds (p : number) :
  (getAttendanceColor p = "success" <-> ge p (lit 75) = true)
  /\ (getAttendanceColor p = "warning"
      <-> le (lit 65) p = true /\ lt p (lit 75) = true)
  /\ (getAttendanceColor p = "danger" <-> lt p (lit 65) = true \/ is_nan p = true)
  /\ getAttendanceColor (lit 80) = "success"
  /\ getAttendanceColor (lit 70) = "warning"
  /\ getAttendanceColor (lit 50) = "danger".
Proof.
  split; [apply getAttendanceColor_success|].
  split; [apply getAttendanceColor_warning|].
  split; [apply getAttendanceColor_danger|].
  repeat split; vm_compute; reflexivity.
Qed.

(** C6 as stated fails at [NaN], which is classified ['danger'] although
    [NaN < 65] is false. *)
Lemma getAttendanceColor_thresholds_counterexample :
  ~ (getAttendanceColor NaN = "danger" <-> lt NaN (lit 65) = true).
Proof.
  intros [H _]. specialize (H eq_refl). vm_compute in H. discriminate.
Qed.

End ColorClaims.

(** ** [calculateAttendance] *)

Section AttendanceClaims.
Import JSString Attendance.

Lemma toFixed_two_nonneg `{Host} (x : number) :
  is_finite x = true ->
  (0 <= real_value x)%Q -> (real_value x < inject_Z (10 ^ 21))%Q ->
  exists n : Z,
    0 <= n
    /\ nearest_integer n (real_value x * 100)
    /\ toFixed x 2 = format_fixed n 2
    /\ decimal_value (toFixed x 2) = Some (n # 100).
Proof.
  intros Hfin H0 Hbig.
  set (n := Qfloor (real_value x * inject_Z (10 ^ Z.of_nat 2) + (1 # 2))).
  assert (Hn : 0 <= n).
  { apply Qfloor_nonneg. change (inject_Z (10 ^ Z.of_nat 2)) with 100%Q. lra. }
  exists n. split; [exact Hn|]. split; [apply nearest_integer_floor|].
  rewrite (toFixed_nonneg x 2 Hfin H0 Hbig). fold n. split; [reflexivity|].
  rewrite <- (Z2N.id n Hn). apply decimal_value_format_fixed.
Qed.

Lemma toFixed_two_neg `{Host} (x : number) :
  is_finite x = true ->
  (real_value x < 0)%Q -> (- real_value x < inject_Z (10 ^ 21))%Q ->
  exists n : Z,
    0 <= n
    /\ nearest_integer n (- real_value x * 100)
    /\ toFixed x 2 = "-" +:+ format_fixed n 2
    /\ decimal_value (toFixed x 2) = Some (- n # 100).
Proof.
  intros Hfin H0 Hbig.
  set (n := Qfloor (- real_value x * inject_Z (10 ^ Z.of_nat 2) + (1 # 2))).
  assert (Hn : 0 <= n).
  { apply Qfloor_nonneg. change (inject_Z (10 ^ Z.of_nat 2)) with 100%Q. lra. }
  exists n. split; [exact Hn|]. split; [apply nearest_integer_floor|].
  rewrite (toFixed_neg x 2 Hfin H0 Hbig). fold n. split; [reflexivity|].
  rewrite <- (Z2N.id n Hn). apply decimal_value_minus_format_fixed.
Qed.

Lemma nearest_integer_le (n : Z) (w : Q) (b : Z) :
  nearest_integer n w -> (w <= inject_Z b)%Q -> n <= b.
Proof.
  intros [_ Hn] Hw.
  assert (H : (inject_Z n < inject_Z (b + 1))%Q).
  { rewrite inject_Z_plus. change (inject_Z 1) with 1%Q. lra. }
  rewrite <- Zlt_Qlt in H. lia.
Qed.

(** C2, amended.  [calculateAttendance(total, attended)] returns the
    number 0 when [total === 0].  Otherwise it returns the string
    [(attended / total * 100).toFixed(2)]: when the percentage is finite
    and below [10 ^ 21] in magnitude, the decimal numeral with two
    fraction digits that denotes the multiple of 1/100 nearest to the
    percentage, so that [calculateAttendance(20, 15)] is ["75.00"].  For
    every finite [total >= 0] and [0 <= attended <= total] the result
    denotes a number in [[0, 100]]. *)
Theorem calculateAttendance_rounded_in_range `{Host} (total attended : number) :
  (strict_eq total (lit 0) = true ->
     calculateAttendance total attended = VNumber (lit 0))
  /\ (strict_eq total (lit 0) = false ->
        let p := mul (div attended total) (lit 100) in
        calculateAttendance total attended = VString (toFixed p 2)
        /\ (is_finite p = true ->
            (0 <= real_value p)%Q -> (real_value p < inject_Z (10 ^ 21))%Q ->
            exists n : Z,
              0 <= n /\ nearest_integer n (real_value p * 100)
              /\ toFixed p 2 = format_fixed n 2
              /\ decimal_value (toFixed p 2) = Some (n # 100))
        /\ (is_finite p = true ->
            (real_value p < 0)%Q -> (- real_value p < inject_Z (10 ^ 21))%Q ->
            exists n : Z,
              0 <= n /\ nearest_integer n (- real_value p * 100)
              /\ toFixed p 2 = "-" +:+ format_fixed n 2
              /\ decimal_value (toFixed p 2) = Some (- n # 100)))
  /\ calculateAttendance (lit 20) (lit 15) = VString "75.00"
  /\ (valid total = true -> valid attended = true -> is_finite total = true ->
      ge total (lit 0) = true -> le (lit 0) attended = true ->
      le attended total = true ->
      exists q : Q,
        numeric_value (calculateAttendance total attended) = Some q
        /\ (0 <= q)%Q /\ (q <= 100)%Q).
Proof.
  split; [|split; [|split]].
  - intros Hz. unfold calculateAttendance. rewrite Hz. reflexivity.
  - intros Hnz p. unfold calculateAttendance. rewrite Hnz. fold p.
    split; [reflexivity|]. split.
    + apply toFixed_two_nonneg.
    + apply toFixed_two_neg.
  - vm_compute. reflexivity.
  - intros Vt Va Ft Ht Ha Hat.
    destruct (strict_eq total (lit 0)) eqn:Hz.
    + exists 0%Q. unfold calculateAttendance. rewrite Hz.
      split; [reflexivity|]. split; [apply Qle_refl|discriminate].
    + assert (Pt : posfin total).
      { apply posfin_intro; auto. rewrite lit_0 in *.
        unfold ge, strict_eq, lt in *.
        destruct total as [s|s| |s m e]; cbn [SFcompare] in *; try discriminate.
        destruct s; [discriminate|reflexivity]. }
      pose proof (zero_or_posfin_intro attended total Va Pt Ha Hat) as Pa.
      unfold calculateAttendance. rewrite Hz. cbn [numeric_value].
      set (p := mul (div attended total) (lit 100)).
      assert (Hp : is_finite p = true /\ (0 <= real_value p)%Q /\ (real_value p <= 100)%Q).
      { destruct (percentage_range attended total Pa Pt Hat) as [[s Hs]|(m & e & Hm & Hb)];
          fold p in Hs || fold p in Hm.
        - rewrite Hs. split; [reflexivity|]. split; [apply Qle_refl|discriminate].
        - rewrite Hm. split; [reflexivity|]. split; [|exact Hb].
          apply F_nonneg. lia. }
      destruct Hp as (Hfin & H0 & H100).
      destruct (toFixed_two_nonneg p Hfin H0) as (n & Hn & Hnear & _ & Hval).
      { eapply Qle_lt_trans; [exact H100|]. reflexivity. }
      exists (n # 100). split; [exact Hval|].
      assert (Hn100 : n <= 10000).
      { apply (nearest_integer_le n (real_value p * 100)); [exact Hnear|].
        change (inject_Z 10000) with 10000%Q. lra. }
      unfold Qle. cbn [Qnum Qden]. lia.
Qed.

(** The hypotheses of C2 hold at [(20, 15)]. *)
Lemma calculateAttendance_rounded_in_range_witness :
  exists q : Q,
    numeric_value (@calculateAttendance sample_host (lit 20) (lit 15)) = Some q
    /\ (0 <= q)%Q /\ (q <= 100)%Q.
Proof.
  apply (proj2 (proj2 (proj2
           (@calculateAttendance_rounded_in_range sample_host (lit 20) (lit 15)))));
    vm_compute; reflexivity.
Defined.

(** C2 as stated fails at [total = attended = Infinity], which satisfy
    [total >= 0] and [0 <= attended <= total]: the percentage is [NaN]
    and the result is the string ["NaN"]. *)
Lemma calculateAttendance_rounded_in_range_counterexample :
  ge Infinity (lit 0) = true
  /\ le (lit 0) Infinity = true
  /\ le Infinity Infinity = true
  /\ @calculateAttendance sample_host Infinity Infinity = VString "NaN"
  /\ numeric_value (@calculateAttendance sample_host Infinity Infinity) = None.
Proof. repeat split; vm_compute; reflexivity. Qed.

End AttendanceClaims.

(** ** Row filters *)

Section FilterClaims.
Import DOM.
Local Open Scope nat_scope.

(** C4.  Whatever the rows that carry a [data-status] attribute,
    [filterByStatus('all')] makes each of them visible (it clears the
    [display] declaration of the row), and for any other status [s],
    [filterByStatus(s)] makes visible the rows whose [data-status] is
    [s] and hides all the others (it sets their [display] to [none]);
    the other attributes of a row, [data-day] and [data-semester] among
    them, play no part and are left as they were. *)
Theorem filterByStatus_visibility (status : string) (doc : document) :
  exists doc' : document,
    filterByStatus status doc = Normal (tt, doc')
    /\ forall (row : ref) (el : element),
         lookup_ref row (body doc) = Some el ->
         is_Some (attributes el !! "data-status") ->
         exists el' : element,
           lookup_ref row (body doc') = Some el'
           /\ attributes el' = attributes el
           /\ (status = "all" -> display el' = "")
           /\ (status <> "all" ->
               (attributes el !! "data-status" = Some status -> display el' = "")
               /\ (attributes el !! "data-status" <> Some status ->
                   display el' = "none")).
Proof.
  eexists. split; [apply filterByStatus_eq|]. cbn [body].
  intros row el Hel Hrow.
  rewrite lookup_ref_map, Hel. cbn [fmap option_fmap option_map].
  eexists. split; [reflexivity|].
  rewrite map_element_attributes, filter_element_attributes.
  split; [reflexivity|].
  unfold display. rewrite map_element_style.
  fold (display (filter_element "data-status" "status" status el)).
  unfold filter_element, matches. rewrite bool_decide_eq_true_2 by exact Hrow.
  unfold row_action. rewrite display_set_display.
  change (dataset el "status") with (attributes el !! "data-status").
  split.
  - intros ->. reflexivity.
  - intros Hne. apply String.eqb_neq in Hne. rewrite Hne. cbn [orb]. split.
    + intros Hs. rewrite bool_decide_eq_true_2 by exact Hs. reflexivity.
    + intros Hs. rewrite bool_decide_eq_false_2 by exact Hs. reflexivity.
Qed.

(** C5.  Each of [filterByDay], [filterByStatus] and [filterBySemester]
    returns normally and changes nothing but [display] declarations:
    after the call the document holds the same elements in the same
    order, with the same tags, attributes and other style declarations,
    and every selector on those finds the same rows in the same
    order. *)
Theorem filters_change_display_only (v : string) (doc : document) :
  changes_display_only (filterByDay v) doc
  /\ changes_display_only (filterByStatus v) doc
  /\ changes_display_only (filterBySemester v) doc.
Proof.
  assert (H : forall attr key,
             changes_display_only
               (fun d => Normal (tt, Document (cookie d)
                  (map (map_element (filter_element attr key v)) (body d)))) doc).
  { intros attr key. eexists. split; [reflexivity|]. cbn [cookie body].
    split; [reflexivity|]. split.
    - apply same_but_display_map.
      + apply filter_element_tagName.
      + apply filter_element_attributes.
      + apply filter_element_erase.
    - intros sel _. apply select_forest_map. apply matches_map_element.
      apply filter_element_attributes. }
  unfold changes_display_only in *.
  split; [|split].
  - rewrite filterByDay_eq. apply (H "data-day" "day").
  - rewrite filterByStatus_eq. apply (H "data-status" "status").
  - rewrite filterBySemester_eq. apply (H "data-semester" "semester").
Qed.

Example filterByStatus_absent :
  displays (filterByStatus "absent" sample_table) = [ ["none"; ""; ""; ""] ].
Proof. vm_compute. reflexivity. Qed.

Example filterByStatus_all :
  displays (filterByStatus "all" sample_table) = [ [""; ""; ""; ""] ].
Proof. vm_compute. reflexivity. Qed.

Example filterByDay_tue :
  displays (filterByDay "tue" sample_table) = [ ["none"; "none"; ""; ""] ].
Proof. vm_compute. reflexivity. Qed.

End FilterClaims.

(** ** The loading overlay *)

Section LoadingClaims.
Import DOM.
Local Open Scope nat_scope.

(** C8.  [showLoading] appends the overlay element, whose [id] is
    [loadingOverlay], at the end of the body whatever the document holds;
    two calls in a row append two of them, so that two more elements
    carry that [id] than before. *)
Theorem showLoading_twice_duplicates (doc : document) :
  attributes overlay !! "id" = Some "loadingOverlay"
  /\ showLoading doc = Normal (tt, Document (cookie doc) (body doc ++ [overlay]))
  /\ exists doc' : document,
       bind showLoading (fun _ => showLoading) doc = Normal (tt, doc')
       /\ cookie doc' = cookie doc
       /\ body doc' = body doc ++ [overlay; overlay]
       /\ select_forest (matches (HasId "loadingOverlay")) 0 (body doc')
          = select_forest (matches (HasId "loadingOverlay")) 0 (body doc)
            ++ [ [length (body doc)]; [S (length (body doc))] ]
       /\ count (HasId "loadingOverlay") doc'
          = count (HasId "loadingOverlay") doc + 2.
Proof.
  split; [vm_compute; reflexivity|]. split; [reflexivity|].
  exists (Document (cookie doc) (body doc ++ [overlay; overlay])).
  split.
  { unfold bind. rewrite showLoading_eq, showLoading_eq. cbn [cookie body].
    rewrite <- app_assoc. reflexivity. }
  split; [reflexivity|]. split; [reflexivity|].
  assert (Hsel : select_forest (matches (HasId "loadingOverlay")) 0
                   (body doc ++ [overlay; overlay])
                 = select_forest (matches (HasId "loadingOverlay")) 0 (body doc)
                   ++ [ [length (body doc)]; [S (length (body doc))] ]).
  { rewrite select_forest_app. cbn [select_forest Nat.add].
    rewrite select_overlay. reflexivity. }
  split; [exact Hsel|].
  unfold count. cbn [body]. rewrite Hsel, length_app. reflexivity.
Qed.

(** C9.  When no element of the document has the [id] [loadingOverlay],
    [hideLoading] returns normally and leaves the document as it was;
    when exactly one has it, [hideLoading] removes that element, and no
    element of the document has that [id] afterwards. *)
Theorem hideLoading_absent_or_single (doc : document) :
  (count (HasId "loadingOverlay") doc = 0 -> hideLoading doc = Normal (tt, doc))
  /\ (count (HasId "loadingOverlay") doc = 1 ->
      exists (r : ref) (el : element),
        select_forest (matches (HasId "loadingOverlay")) 0 (body doc) = [r]
        /\ lookup_ref r (body doc) = Some el
        /\ attributes el !! "id" = Some "loadingOverlay"
        /\ hideLoading doc
           = Normal (tt, Document (cookie doc) (remove_ref r (body doc)))
        /\ count (HasId "loadingOverlay")
             (Document (cookie doc) (remove_ref r (body doc))) = 0).
Proof.
  unfold count, hideLoading, bind, getElementById.
  destruct (select_forest (matches (HasId "loadingOverlay")) 0 (body doc))
    as [|r rs] eqn:Hsel; cbn [length head].
  - split; [|discriminate]. intros _. unfold ret. destruct doc; reflexivity.
  - split; [discriminate|]. intros Hone.
    destruct rs; [|discriminate].
    destruct (select_forest_remove (matches (HasId "loadingOverlay"))
                (matches_set_children _) (body doc) r) as (el & Hel & HP & Hcount).
    { rewrite Hsel. apply list_elem_of_singleton. reflexivity. }
    exists r, el. split; [reflexivity|]. split; [exact Hel|].
    split; [apply bool_decide_eq_true in HP; exact HP|].
    split; [reflexivity|]. cbn [body].
    rewrite Hsel in Hcount. cbn [length] in Hcount.
    assert (1 <= length (select_element (matches (HasId "loadingOverlay")) el)).
    { rewrite select_element_eq, HP. cbn [app length]. lia. }
    lia.
Qed.

(** C9 at the empty document and at a document that holds the overlay
    only. *)
Lemma hideLoading_absent_or_single_witness :
  hideLoading (Document "" []) = Normal (tt, Document "" [])
  /\ hideLoading (Document "" [overlay]) = Normal (tt, Document "" []).
Proof.
  split.
  - apply (hideLoading_absent_or_single (Document "" [])). reflexivity.
  - destruct (hideLoading_absent_or_single (Document "" [overlay])) as [_ H].
    destruct (H eq_refl) as (r & el & Hr & _ & _ & Hhide & _).
    vm_compute in Hr. injection Hr as <-. exact Hhide.
Defined.

Example showLoading_hideLoading :
  bind showLoading (fun _ => hideLoading) sample_table = Normal (tt, sample_table).
Proof. vm_compute. reflexivity. Qed.

(** With two overlays in the document [hideLoading] removes the first
    one only. *)
Example showLoading_twice_hideLoading :
  bind showLoading (fun _ => bind showLoading (fun _ => hideLoading)) sample_table
  = showLoading sample_table.
Proof. vm_compute. reflexivity. Qed.

End LoadingClaims.

(** ** The cookie reader *)

Section CookieClaims.
Import JSString DOM.
Local Open Scope nat_scope.
Context `{Host}.

(** C7, amended.  The cookie string is cut at its semicolons.  If one
    of the entries, trimmed, starts with [name=], then for the first
    such entry [getCookie(name)] completes as [decodeURIComponent] does
    on what follows [name=] in it: it returns the decoded text when
    [decodeURIComponent] returns it, and throws the [URIError] that
    [decodeURIComponent] throws when that text holds a malformed
    escape; the entries after this one are not read.  If no entry
    starts with [name=], and in particular if the cookie string is
    empty, [getCookie(name)] returns [null].  The document is left as
    it was. *)
Theorem getCookie_first_entry (name : string) (doc : document) :
  (forall (before : list string) (entry : string) (after : list string),
     split ";" (cookie doc) = before ++ entry :: after ->
     Forall (fun e => entry_matches name e = false) before ->
     entry_matches name entry = true ->
     exists remainder : string,
       trim entry = name +:+ "=" +:+ remainder
       /\ getCookie name doc
          = match decodeURIComponent remainder with
            | Normal cookieValue => Normal (Some cookieValue, doc)
            | Throw e => Throw e
            end)
  /\ (Forall (fun e => entry_matches name e = false) (split ";" (cookie doc)) ->
      getCookie name doc = Normal (None, doc))
  /\ (cookie doc = "" -> getCookie name doc = Normal (None, doc))
  /\ (forall entry : string,
        entry_matches name entry = true
        <-> exists remainder : string, trim entry = name +:+ "=" +:+ remainder).
Proof.
  split; [|split; [|split]].
  - intros before entry after Hsplit Hbefore Hentry.
    exists (substring_from (trim entry) (String.length name + 1)).
    split; [apply entry_matches_remainder; exact Hentry|].
    rewrite getCookie_eq, Hsplit, getCookie_loop_skip by exact Hbefore.
    rewrite getCookie_loop_cons, Hentry.
    destruct (decodeURIComponent _); reflexivity.
  - intros Hnone. rewrite getCookie_eq.
    rewrite <- (app_nil_r (split ";" (cookie doc))).
    rewrite getCookie_loop_skip by exact Hnone. reflexivity.
  - intros Hc. rewrite getCookie_eq, Hc. cbn [split].
    rewrite getCookie_loop_cons, entry_matches_empty. reflexivity.
  - intros entry. unfold entry_matches. rewrite prefix_app. split.
    + intros [rest ->]. exists rest. apply string_app_assoc.
    + intros [rest ->]. exists rest. symmetry. apply string_app_assoc.
Qed.

End CookieClaims.

(** C7 at a cookie string with two [csrftoken] entries, and at one with
    none. *)
Lemma getCookie_first_entry_witness :
  @DOM.getCookie sample_host "csrftoken"
    (DOM.Document "theme=dark; csrftoken=abc123; csrftoken=other" [])
  = Normal (Some "abc123",
            DOM.Document "theme=dark; csrftoken=abc123; csrftoken=other" [])
  /\ @DOM.getCookie sample_host "csrftoken" (DOM.Document "theme=dark" [])
     = Normal (None, DOM.Document "theme=dark" []).
Proof.
  split.
  - destruct (@getCookie_first_entry sample_host "csrftoken"
                (DOM.Document "theme=dark; csrftoken=abc123; csrftoken=other" []))
      as [Hfirst _].
    destruct (Hfirst ["theme=dark"] " csrftoken=abc123" [" csrftoken=other"])
      as (remainder & Hrem & Hget).
    + reflexivity.
    + repeat constructor.
    + reflexivity.
    + vm_compute in Hrem. injection Hrem as <-. exact Hget.
  - destruct (@getCookie_first_entry sample_host "csrftoken"
                (DOM.Document "theme=dark" [])) as (_ & Hnone & _).
    apply Hnone. repeat constructor.
Defined.

(** C7 as stated fails: in the cookie string [b=1; a=%zz; a=2] the first
    entry that starts with [a=] is [a=%zz].  What follows [a=] in it is a
    malformed escape, on which [decodeURIComponent] throws a [URIError]:
    [getCookie("a")] throws it and returns no text, neither a decoded
    remainder of this entry nor the [2] of the entry after it. *)
Lemma getCookie_first_entry_counterexample :
  JSString.split ";" "b=1; a=%zz; a=2" = ["b=1"; " a=%zz"; " a=2"]
  /\ Tree.entry_matches "a" "b=1" = false
  /\ Tree.entry_matches "a" " a=%zz" = true
  /\ JSString.trim " a=%zz" = "a" +:+ "=" +:+ "%zz"
  /\ @decodeURIComponent Cookies.escape_host "%zz" = Throw "URIError"
  /\ @DOM.getCookie Cookies.escape_host "a" (DOM.Document "b=1; a=%zz; a=2" [])
     = Throw "URIError"
  /\ (forall value : option string,
        @DOM.getCookie Cookies.escape_host "a" (DOM.Document "b=1; a=%zz; a=2" [])
        <> Normal (value, DOM.Document "b=1; a=%zz; a=2" [])).
Proof.
  repeat (split; [vm_compute; reflexivity|]).
  intros value. vm_compute. discriminate.
Qed.

(** * Part V: further properties of the script *)

(** ** The order of numbers *)

Section OrderFacts.
Import Order.

Lemma SFcompare_key (x y : number) :
  SFcompare x y
  = match key x, key y with
    | Some a, Some b => Some (key_compare a b)
    | _, _ => None
    end.
Proof.
  destruct x as [sx|sx| |sx mx ex], y as [sy|sy| |sy my ey];
    try destruct sx; try destruct sy; try reflexivity.
  cbn [SFcompare key key_compare]. rewrite Z.compare_opp.
  change (-1 ?= -1) with Eq. cbv iota.
  rewrite (Z.compare_antisym ex ey).
  destruct (ex ?= ey); reflexivity.
Qed.

Lemma key_lt_iff (a1 a2 a3 b1 b2 b3 : Z) :
  key_lt (a1, a2, a3) (b1, b2, b3)
  <-> a1 < b1 \/ (a1 = b1 /\ (a2 < b2 \/ (a2 = b2 /\ a3 < b3))).
Proof.
  unfold key_lt, key_compare.
  destruct (Z.compare_spec a1 b1); [|intuition (congruence || lia)..].
  destruct (Z.compare_spec a2 b2); [|intuition (congruence || lia)..].
  destruct (Z.compare_spec a3 b3); intuition (congruence || lia).
Qed.

Lemma key_le_iff (a1 a2 a3 b1 b2 b3 : Z) :
  key_le (a1, a2, a3) (b1, b2, b3)
  <-> a1 < b1 \/ (a1 = b1 /\ (a2 < b2 \/ (a2 = b2 /\ a3 <= b3))).
Proof.
  unfold key_le, key_compare.
  destruct (Z.compare_spec a1 b1); [|intuition (congruence || lia)..].
  destruct (Z.compare_spec a2 b2); [|intuition (congruence || lia)..].
  destruct (Z.compare_spec a3 b3); intuition (congruence || lia).
Qed.

Lemma key_compare_antisym (a b : Z * Z * Z) :
  key_compare b a = CompOpp (key_compare a b).
Proof.
  destruct a as [[a1 a2] a3], b as [[b1 b2] b3]. unfold key_compare.
  rewrite (Z.compare_antisym a1 b1), (Z.compare_antisym a2 b2),
    (Z.compare_antisym a3 b3).
  destruct (a1 ?= b1), (a2 ?= b2), (a3 ?= b3); reflexivity.
Qed.

Lemma lt_key (x y : number) :
  lt x y = true
  <-> exists a b, key x = Some a /\ key y = Some b /\ key_lt a b.
Proof.
  unfold lt, key_lt. rewrite SFcompare_key.
  destruct (key x) as [a|], (key y) as [b|]; split;
    try discriminate; try (intros (a' & b' & Ha & Hb & _); discriminate).
  - intros H. exists a, b. split; [reflexivity|]. split; [reflexivity|].
    destruct (key_compare a b); congruence.
  - intros (a' & b' & [= <-] & [= <-] & ->). reflexivity.
Qed.

Lemma ge_key (x y : number) :
  ge x y = true
  <-> exists a b, key x = Some a /\ key y = Some b /\ key_le b a.
Proof.
  unfold ge, key_le. rewrite SFcompare_key.
  destruct (key x) as [a|], (key y) as [b|]; split;
    try discriminate; try (intros (a' & b' & Ha & Hb & _); discriminate).
  - intros H. exists a, b. split; [reflexivity|]. split; [reflexivity|].
    rewrite key_compare_antisym. destruct (key_compare a b); cbn; congruence.
  - intros (a' & b' & [= <-] & [= <-] & Hle).
    rewrite key_compare_antisym in Hle.
    destruct (key_compare a b); cbn in Hle; congruence.
Qed.

(** [x >= y] and [y >= z] give [x >= z]. *)
Lemma ge_trans (x y z : number) :
  ge x y = true -> ge y z = true -> ge x z = true.
Proof.
  rewrite !ge_key.
  intros (a & b & Ha & Hb & Hab) (b' & c & Hb' & Hc & Hbc).
  rewrite Hb in Hb'. injection Hb' as <-.
  exists a, c. split; [exact Ha|]. split; [exact Hc|].
  destruct a as [[a1 a2] a3], b as [[b1 b2] b3], c as [[c1 c2] c3].
  rewrite key_le_iff in *. lia.
Qed.

(** [x < y] and [z >= y] give [x < z]. *)
Lemma lt_ge_trans (x y z : number) :
  lt x y = true -> ge z y = true -> lt x z = true.
Proof.
  rewrite !lt_key, ge_key.
  intros (a & b & Ha & Hb & Hab) (c & b' & Hc & Hb' & Hbc).
  rewrite Hb in Hb'. injection Hb' as <-.
  exists a, c. split; [exact Ha|]. split; [exact Hc|].
  destruct a as [[a1 a2] a3], b as [[b1 b2] b3], c as [[c1 c2] c3].
  rewrite key_le_iff in Hbc. rewrite key_lt_iff in *. lia.
Qed.

(** [y >= x] and [y < z] give [x < z]. *)
Lemma ge_lt_trans (x y z : number) :
  ge y x = true -> lt y z = true -> lt x z = true.
Proof.
  rewrite !lt_key, ge_key.
  intros (b & a & Hb & Ha & Hab) (b' & c & Hb' & Hc & Hbc).
  rewrite Hb in Hb'. injection Hb' as <-.
  exists a, c. split; [exact Ha|]. split; [exact Hc|].
  destruct a as [[a1 a2] a3], b as [[b1 b2] b3], c as [[c1 c2] c3].
  rewrite key_le_iff in Hab. rewrite key_lt_iff in *. lia.
Qed.

End OrderFacts.

(** ** The status classifier *)

Section StatusFacts.
Import Attendance Utility Order.

(** X1.  [getAttendanceStatus(p)] is ['Good'] if and only if [p >= 75],
    ['Warning'] if and only if [65 <= p < 75], and ['Critical'] if and
    only if [p < 65] or [p] is [NaN]; it is the status that goes with
    the colour [getAttendanceColor(p)]: ['Good'] with ['success'],
    ['Warning'] with ['warning'], ['Critical'] with ['danger']. *)
Theorem getAttendanceStatus_thresholds (p : number) :
  (getAttendanceStatus p = "Good" <-> ge p (lit 75) = true)
  /\ (getAttendanceStatus p = "Warning"
      <-> le (lit 65) p = true /\ lt p (lit 75) = true)
  /\ (getAttendanceStatus p = "Critical"
      <-> lt p (lit 65) = true \/ is_nan p = true)
  /\ (getAttendanceStatus p = "Good" <-> getAttendanceColor p = "success")
  /\ (getAttendanceStatus p = "Warning" <-> getAttendanceColor p = "warning")
  /\ (getAttendanceStatus p = "Critical" <-> getAttendanceColor p = "danger").
Proof.
  assert (Hs : getAttendanceStatus p = "Good" <-> getAttendanceColor p = "success").
  { unfold getAttendanceStatus, getAttendanceColor.
    destruct (ge p (lit 75)); [tauto|].
    destruct (ge p (lit 65)); split; discriminate. }
  assert (Hw : getAttendanceStatus p = "Warning" <-> getAttendanceColor p = "warning").
  { unfold getAttendanceStatus, getAttendanceColor.
    destruct (ge p (lit 75)); [split; discriminate|].
    destruct (ge p (lit 65)); [tauto|split; discriminate]. }
  assert (Hd : getAttendanceStatus p = "Critical" <-> getAttendanceColor p = "danger").
  { unfold getAttendanceStatus, getAttendanceColor.
    destruct (ge p (lit 75)); [split; discriminate|].
    destruct (ge p (lit 65)); [split; discriminate|tauto]. }
  split; [rewrite Hs; apply getAttendanceColor_success|].
  split; [rewrite Hw; apply getAttendanceColor_warning|].
  split; [rewrite Hd; apply getAttendanceColor_danger|].
  auto.
Qed.

(** X2.  A higher percentage never gets a worse class: for [p <= q],
    the colour and the status of [q] are those of [p] or better ones
    (['danger'] below ['warning'] below ['success'], ['Critical'] below
    ['Warning'] below ['Good']). *)
Theorem classification_monotone (p q : number) :
  le p q = true ->
  (color_rank (getAttendanceColor p) <= color_rank (getAttendanceColor q))%nat
  /\ (status_rank (getAttendanceStatus p) <= status_rank (getAttendanceStatus q))%nat.
Proof.
  unfold le. intros Hpq.
  unfold getAttendanceColor, getAttendanceStatus.
  destruct (ge p (lit 75)) eqn:H75.
  - rewrite (ge_trans q p (lit 75) Hpq H75). split; cbn; lia.
  - destruct (ge p (lit 65)) eqn:H65.
    + rewrite (ge_trans q p (lit 65) Hpq H65).
      destruct (ge q (lit 75)); split; cbn; lia.
    + destruct (ge q (lit 75)); [split; cbn; lia|].
      destruct (ge q (lit 65)); split; cbn; lia.
Qed.

(** X2 at the percentages 64 and 70. *)
Lemma classification_monotone_witness :
  (color_rank (getAttendanceColor (lit 64)) <= color_rank (getAttendanceColor (lit 70)))%nat
  /\ (status_rank (getAttendanceStatus (lit 64))
      <= status_rank (getAttendanceStatus (lit 70)))%nat.
Proof.
  apply (classification_monotone (lit 64) (lit 70)). vm_compute. reflexivity.
Defined.

End StatusFacts.

(** ** More on strings *)

Section SplitFacts.
Import JSString Text.

Lemma split_without (sep : ascii) (a s piece : string) (pieces : list string) :
  without sep a = true ->
  split sep s = piece :: pieces ->
  split sep (a +:+ s) = (a +:+ piece) :: pieces.
Proof.
  intros Ha Hs. induction a as [|c a IH].
  - exact Hs.
  - cbn [without] in Ha. apply andb_prop in Ha as [Hc Ha].
    apply negb_true_iff in Hc.
    rewrite !string_app_cons. cbn [split]. rewrite Hc, (IH Ha). reflexivity.
Qed.

(** The first piece of a split has no separator in it, and the
    separator follows it in the string when there is a second piece. *)
Lemma split_first (sep : ascii) (s k : string) (pieces : list string) :
  split sep s = k :: pieces ->
  without sep k = true
  /\ (pieces <> [] -> exists rest, s = k +:+ String sep rest).
Proof.
  revert k pieces. induction s as [|c s IH]; intros k pieces; cbn [split].
  - intros [= <- <-]. split; [reflexivity|]. intros Hne. destruct Hne. reflexivity.
  - destruct (Ascii.eqb_spec c sep) as [->|Hc].
    + intros [= <- <-]. split; [reflexivity|]. intros _. exists s. reflexivity.
    + destruct (split sep s) as [|p ps] eqn:Hs.
      * intros [= <- <-]. split.
        -- cbn [without]. apply Ascii.eqb_neq in Hc. rewrite Hc. reflexivity.
        -- intros Hne. destruct Hne. reflexivity.
      * intros [= <- <-]. destruct (IH p ps eq_refl) as [Hw Hrest]. split.
        -- cbn [without]. apply Ascii.eqb_neq in Hc. rewrite Hc, Hw. reflexivity.
        -- intros Hne. destruct (Hrest Hne) as [rest ->]. exists rest. reflexivity.
Qed.

Lemma split_single (sep : ascii) (a : string) :
  without sep a = true -> split sep a = [a].
Proof.
  intros Ha. pose proof (split_without sep a "" "" [] Ha eq_refl) as Hs.
  rewrite string_app_nil_r in Hs. exact Hs.
Qed.

Lemma split_head (sep : ascii) (a rest : string) :
  without sep a = true ->
  split sep (a +:+ String sep rest) = a :: split sep rest.
Proof.
  intros Ha. destruct (split_cons sep rest) as (p & ps & Hs).
  rewrite (split_without sep a (String sep rest) "" (split sep rest) Ha).
  - rewrite string_app_nil_r. reflexivity.
  - cbn [split]. rewrite Ascii.eqb_refl. reflexivity.
Qed.

End SplitFacts.

(** ** More on the attendance calculator *)

Section CalculatorFacts.
Import JSString Attendance Utility Order.

(** On positive numbers of the format, the order of the values is [<=]. *)
Lemma value_le (pa : positive) (ea : Z) (pt : positive) (et : Z) :
  canon (Zpos pa) ea -> canon (Zpos pt) et ->
  (F (Zpos pa) ea <= F (Zpos pt) et)%Q ->
  le (S754_finite false pa ea) (S754_finite false pt et) = true.
Proof.
  intros Ca Ct Hv. unfold le, ge. cbn [SFcompare].
  destruct (Z.compare_spec et ea) as [->|Hlt|Hgt].
  - rewrite compare_cont_Eq.
    destruct (Pos.compare_spec pt pa) as [->|Hlt|Hgt]; try reflexivity.
    apply F_le_inv in Hv. lia.
  - exfalso. pose proof (canon_lt _ _ _ _ Ct Ca Hlt) as H.
    apply (Qlt_not_le _ _ H Hv).
  - reflexivity.
Qed.

(** For [0 <= attended <= total] with [total] positive and finite, the
    percentage is at most 100 in the order of the script. *)
Lemma percentage_le_100 (a t : number) :
  (exists s, a = S754_zero s) \/ posfin a -> posfin t -> le a t = true ->
  le (mul (div a t) (lit 100)) (lit 100) = true.
Proof.
  intros [[s ->]|(pa & ea & -> & Ca & _)] (pt & et & -> & Ct & _) Hle.
  - rewrite lit_100. destruct s; reflexivity.
  - pose proof (le_value pa ea pt et Ca Ct Hle) as Hv.
    destruct (div_upper pa ea pt et 4503599627370496 (-52) canon_one)
      as [Hz|(q & eq & Hq & Cq & _ & Hq1)].
    + vm_compute. discriminate.
    + rewrite F_one. lra.
    + rewrite Hz, lit_100. reflexivity.
    + rewrite Hq, lit_100. rewrite F_one in Hq1.
      destruct (mul_upper q eq 7036874417766400 (-46) 7036874417766400 (-46)
                  Cq canon_100 canon_100)
        as [Hz|(r & er & Hr & Cr & _ & Hr100)].
      * vm_compute. discriminate.
      * rewrite F_100. pose proof (F_pos (Zpos q) eq ltac:(lia)). nra.
      * rewrite Hz. reflexivity.
      * rewrite Hr. apply value_le; [exact Cr|exact canon_100|exact Hr100].
Qed.

(** A positive number of the format divided by itself is 1. *)
Lemma div_self (x : number) : posfin x -> div x x = lit 1.
Proof.
  intros (p & e & -> & C & He). rewrite lit_1.
  unfold div. cbn [SFdiv]. rewrite SFdiv_core_binary_eq. cbn [xorb].
  destruct (div_core_spec (Zpos p) e (Zpos p) e ltac:(lia) ltac:(lia))
    as (Hq & Hexp & _).
  set (e' := div_exponent (Zpos p) e (Zpos p) e) in *.
  assert (Hs : 0 <= e - e - e') by (unfold e', div_exponent; lia).
  set (s := e - e - e') in *.
  assert (Hdiv : Zpos p * 2 ^ s / Zpos p = 2 ^ s).
  { rewrite Z.mul_comm. apply Z.div_mul. lia. }
  assert (Hmod : (Zpos p * 2 ^ s) mod Zpos p = 0).
  { rewrite Z.mul_comm. apply Z.mod_mul. lia. }
  rewrite Hdiv in *. rewrite Hmod.
  apply binary_round_aux_exact.
  - apply Z.pow_nonneg. lia.
  - exact Hexp.
  - exact canon_one.
  - vm_compute. discriminate.
  - rewrite F_one. rewrite <- (Z.mul_1_l (2 ^ s)), F_shift by exact Hs.
    replace (e' + s) with 0 by (unfold s; lia). reflexivity.
  - unfold new_location, new_location_even, new_location_odd.
    destruct (Z.even (Zpos p)); reflexivity.
Qed.

Lemma lit_counter_nonzero :
  forallb (fun k => negb (bool_decide (lit (Z.of_nat k) = lit 0))) (seq 1 100) = true.
Proof. vm_compute. reflexivity. Qed.

Lemma lit_counter_zero (k : nat) :
  (k <= 100)%nat -> lit (Z.of_nat k) = lit 0 -> k = 0%nat.
Proof.
  intros Hk Heq. destruct (Nat.eq_dec k 0%nat) as [E|E]; [exact E|exfalso].
  pose proof lit_counter_nonzero as T. rewrite forallb_forall in T.
  specialize (T k ltac:(apply in_seq; lia)).
  apply negb_true_iff, bool_decide_eq_false in T. contradiction.
Qed.

(** Whole numbers below [2 ^ 53] are numbers of the format, in the
    order of the integers. *)
Lemma lit_whole (n : Z) :
  0 < n -> n < 2 ^ 53 ->
  exists (p : positive) (e : Z),
    lit n = S754_finite false p e /\ canon (Zpos p) e /\ e <= emax - prec
    /\ (F (Zpos p) e == inject_Z n)%Q.
Proof.
  intros Hn Hb. destruct n as [|n|n]; try lia.
  destruct (integer_canon n Hb) as (p & e & C & He & Hv).
  exists p, e. split; [apply lit_pos; assumption|]. auto.
Qed.

Lemma lit_posfin (n : Z) : 0 < n -> n < 2 ^ 53 -> posfin (lit n).
Proof.
  intros Hn Hb. destruct (lit_whole n Hn Hb) as (p & e & Hl & C & He & _).
  exists p, e. auto.
Qed.

Lemma lit_le (m n : Z) :
  0 <= m -> m <= n -> n < 2 ^ 53 -> le (lit m) (lit n) = true.
Proof.
  intros Hm Hmn Hn.
  destruct (Z.eq_dec m 0) as [->|Hm0].
  - destruct (Z.eq_dec n 0) as [->|Hn0]; [reflexivity|].
    destruct (lit_whole n ltac:(lia) Hn) as (p & e & -> & _). reflexivity.
  - destruct (lit_whole m ltac:(lia) ltac:(lia)) as (pm & em & -> & Cm & _ & Vm).
    destruct (lit_whole n ltac:(lia) Hn) as (pn & en & -> & Cn & _ & Vn).
    apply value_le; [exact Cm|exact Cn|].
    rewrite Vm, Vn. rewrite <- Zle_Qle. exact Hmn.
Qed.

(** X3.  For a finite [currentTotal > 0], [0 <= currentAttended <=
    currentTotal] and a target of at least 75: when
    [calculateRequiredClasses] returns a count [k] below its cap of 100,
    the attendance after [k] more attended classes is classified
    ['success'] by [getAttendanceColor] and ['Good'] by
    [getAttendanceStatus]. *)
Theorem required_classes_reach_success (t a p : number) :
  valid t = true -> valid a = true -> is_finite t = true ->
  lt (lit 0) t = true -> le (lit 0) a = true -> le a t = true ->
  ge p (lit 75) = true ->
  exists k : nat,
    (k <= 100)%nat
    /\ calculateRequiredClasses t a p = Some (lit (Z.of_nat k))
    /\ ((k < 100)%nat ->
        getAttendanceColor (projectedPercentage t a k) = "success"
        /\ getAttendanceStatus (projectedPercentage t a k) = "Good").
Proof.
  intros Vt Va Ft Ht Ha Hat Hp.
  pose proof (posfin_intro t Vt Ft Ht) as Pt.
  pose proof (zero_or_posfin_intro a t Va Pt Ha Hat) as Pa.
  destruct (calculateRequiredClasses_run t a p) as (k & Hk & Hrun & _ & Hexit).
  exists k. split; [exact Hk|]. split; [apply Hrun; lia|].
  intros Hlt. specialize (Hexit Hlt).
  assert (Hnan : is_nan (projectedPercentage t a k) = false).
  { apply percentage_not_nan.
    - apply projected_zero_or_posfin. exact Pa.
    - apply projected_posfin. exact Pt. }
  destruct (ge_not_nan _ _ Hp) as [Hpn _].
  assert (Hge : ge (projectedPercentage t a k) p = true).
  { rewrite ge_negb_lt by assumption. rewrite Hexit. reflexivity. }
  pose proof (ge_trans _ _ _ Hge Hp) as H75.
  unfold getAttendanceColor, getAttendanceStatus. rewrite H75. auto.
Qed.

(** X3 at 14 classes attended out of 20 and the target 80. *)
Lemma required_classes_reach_success_witness :
  exists k : nat,
    (k <= 100)%nat
    /\ calculateRequiredClasses (lit 20) (lit 14) (lit 80) = Some (lit (Z.of_nat k))
    /\ ((k < 100)%nat ->
        getAttendanceColor (projectedPercentage (lit 20) (lit 14) k) = "success"
        /\ getAttendanceStatus (projectedPercentage (lit 20) (lit 14) k) = "Good").
Proof.
  apply (required_classes_reach_success (lit 20) (lit 14) (lit 80));
    vm_compute; reflexivity.
Defined.

(** X4.  For whole counts [0 <= currentAttended <= currentTotal] with
    [currentTotal > 0] (and below [2 ^ 53 - 100]), a target above 100 is
    never reached: the loop runs to its cap and
    [calculateRequiredClasses] returns 100. *)
Theorem required_classes_unreachable_target (n m : Z) (p : number) :
  0 < n -> 0 <= m -> m <= n -> n + 100 < 2 ^ 53 ->
  lt (lit 100) p = true ->
  calculateRequiredClasses (lit n) (lit m) p = Some (lit 100).
Proof.
  intros Hn Hm Hmn Hb Hp.
  destruct (calculateRequiredClasses_run (lit n) (lit m) p)
    as (k & Hk & Hrun & _ & Hexit).
  destruct (Nat.eq_dec k 100%nat) as [->|Hne]; [apply Hrun; lia|exfalso].
  specialize (Hexit ltac:(lia)).
  assert (Hle : le (projectedPercentage (lit n) (lit m) k) (lit 100) = true).
  { unfold projectedPercentage. rewrite !projected_lit by lia.
    apply percentage_le_100.
    - destruct (Z.eq_dec (m + Z.of_nat k) 0) as [->|H0].
      + left. exists false. reflexivity.
      + right. apply lit_posfin; lia.
    - apply lit_posfin; lia.
    - apply lit_le; lia. }
  unfold le in Hle.
  rewrite (ge_lt_trans _ _ _ Hle Hp) in Hexit. discriminate.
Qed.

(** X4 at 14 classes attended out of 20 and the target 101. *)
Lemma required_classes_unreachable_target_witness :
  calculateRequiredClasses (lit 20) (lit 14) (lit 101) = Some (lit 100).
Proof.
  apply (required_classes_unreachable_target 20 14 (lit 101));
    try lia; vm_compute; reflexivity.
Defined.

(** X5.  No more class is required exactly when the current percentage
    is not below the target: [calculateRequiredClasses] returns 0 if
    and only if [currentAttended / currentTotal * 100 < targetPercentage]
    is false, which it also is when either side is [NaN]. *)
Theorem required_classes_zero_iff (t a p : number) :
  calculateRequiredClasses t a p = Some (lit 0)
  <-> lt (mul (div a t) (lit 100)) p = false.
Proof.
  change (mul (div a t) (lit 100)) with (projectedPercentage t a 0).
  destruct (calculateRequiredClasses_run t a p) as (k & Hk & Hrun & Hbefore & Hexit).
  unfold calculateRequiredClasses. rewrite (Hrun 100%nat) by lia. split.
  - intros [= Heq]. apply lit_counter_zero in Heq; [|exact Hk]. subst k.
    apply Hexit. lia.
  - intros H0. destruct k as [|k]; [reflexivity|].
    rewrite (Hbefore 0%nat) in H0 by lia. discriminate.
Qed.

(** X6.  Raising the target never lowers the answer: for
    [targetPercentage <= targetPercentage'] and any counts,
    [calculateRequiredClasses] returns for the first target a count that
    is at most the count it returns for the second. *)
Theorem required_classes_monotone (t a p p' : number) :
  le p p' = true ->
  exists k k' : nat,
    calculateRequiredClasses t a p = Some (lit (Z.of_nat k))
    /\ calculateRequiredClasses t a p' = Some (lit (Z.of_nat k'))
    /\ (k <= k')%nat /\ (k' <= 100)%nat.
Proof.
  intros Hpp.
  destruct (calculateRequiredClasses_run t a p) as (k & Hk & Hrun & Hbefore & _).
  destruct (calculateRequiredClasses_run t a p') as (k' & Hk' & Hrun' & _ & Hexit').
  exists k, k'. split; [apply Hrun; lia|]. split; [apply Hrun'; lia|].
  split; [|exact Hk'].
  destruct (le_lt_dec k k') as [Hle|Hlt]; [exact Hle|exfalso].
  specialize (Hbefore k' Hlt). specialize (Hexit' ltac:(lia)).
  unfold le in Hpp.
  rewrite (lt_ge_trans _ _ _ Hbefore Hpp) in Hexit'. discriminate.
Qed.

(** X6 at 14 classes attended out of 20 and the targets 75 and 80. *)
Lemma required_classes_monotone_witness :
  exists k k' : nat,
    calculateRequiredClasses (lit 20) (lit 14) (lit 75) = Some (lit (Z.of_nat k))
    /\ calculateRequiredClasses (lit 20) (lit 14) (lit 80) = Some (lit (Z.of_nat k'))
    /\ (k <= k')%nat /\ (k' <= 100)%nat.
Proof.
  apply (required_classes_monotone (lit 20) (lit 14) (lit 75) (lit 80)).
  vm_compute. reflexivity.
Defined.

(** X7.  Full attendance is reported as ["100.00"] and no attendance as
    ["0.00"]: [calculateAttendance(t, t)] is ["100.00"] for every
    positive finite [t], and [calculateAttendance(t, 0)] is ["0.00"] for
    every [t] other than zero and [NaN]. *)
Theorem calculateAttendance_full_and_none `{Host} (t : number) :
  (valid t = true -> is_finite t = true -> lt (lit 0) t = true ->
   calculateAttendance t t = VString "100.00")
  /\ (strict_eq t (lit 0) = false -> is_nan t = false ->
      calculateAttendance t (lit 0) = VString "0.00").
Proof.
  split.
  - intros Vt Ft Ht. pose proof (posfin_intro t Vt Ft Ht) as Pt.
    unfold calculateAttendance. rewrite (div_self t Pt).
    destruct Pt as (p & e & -> & _).
    change (strict_eq (S754_finite false p e) (lit 0)) with false. cbv iota.
    vm_compute. reflexivity.
  - intros Hz Hn. unfold calculateAttendance. rewrite Hz.
    destruct t as [s|s| |s p e]; try discriminate; destruct s; vm_compute; reflexivity.
Qed.

End CalculatorFacts.

(** ** More on the row filters *)

Section FilterMore.
Import DOM Rows.
Local Open Scope nat_scope.

Lemma run_filter_eq (f : filter) (v : string) (d : document) :
  run_filter f v d
  = Normal (tt, Document (cookie d)
                  (map (map_element
                          (filter_element (filter_attribute f) (filter_key f) v))
                     (body d))).
Proof.
  destruct f; [apply filterByDay_eq|apply filterByStatus_eq|apply filterBySemester_eq].
Qed.

Lemma dataset_filter_key (f : filter) (el : element) :
  dataset el (filter_key f) = attributes el !! filter_attribute f.
Proof. destruct f; reflexivity. Qed.

Lemma filter_element_style_row (attr key v : string) (el : element) :
  is_Some (attributes el !! attr) ->
  style (filter_element attr key v el)
  = style (set_display
             (if String.eqb v "all" || bool_decide (dataset el key = Some v)
              then "" else "none") el).
Proof.
  intros Hrow. unfold filter_element, matches.
  rewrite bool_decide_eq_true_2 by exact Hrow. reflexivity.
Qed.

Lemma filter_element_other (attr key v : string) (el : element) :
  attributes el !! attr = None -> filter_element attr key v el = el.
Proof.
  intros Hnone. unfold filter_element, matches.
  rewrite bool_decide_eq_false_2; [reflexivity|].
  rewrite Hnone. intros [x Hx]. discriminate.
Qed.

Lemma element_eq (e1 e2 : element) :
  tagName e1 = tagName e2 -> attributes e1 = attributes e2 ->
  style e1 = style e2 -> children e1 = children e2 -> e1 = e2.
Proof. destruct e1, e2. cbn. intros -> -> -> ->. reflexivity. Qed.

Lemma map_filter_idempotent (attr key v : string) (el : element) :
  map_element (filter_element attr key v)
    (map_element (filter_element attr key v) el)
  = map_element (filter_element attr key v) el.
Proof.
  induction el as [el IH] using element_forest_ind.
  assert (Ha : attributes (map_element (filter_element attr key v) el)
               = attributes el).
  { rewrite map_element_attributes. apply filter_element_attributes. }
  apply element_eq.
  - rewrite !map_element_tagName, !filter_element_tagName.
    rewrite map_element_tagName. apply filter_element_tagName.
  - rewrite map_element_attributes, filter_element_attributes. reflexivity.
  - rewrite map_element_style.
    destruct (attributes el !! attr) as [x|] eqn:Hrow.
    + rewrite filter_element_style_row by (rewrite Ha, Hrow; eauto).
      unfold dataset. rewrite Ha. unfold set_display at 1. cbn [style].
      rewrite !map_element_style.
      rewrite filter_element_style_row by (rewrite Hrow; eauto).
      unfold dataset, set_display. cbn [style].
      destruct (String.eqb _ "").
      * apply delete_delete_eq.
      * apply insert_insert_eq.
    + rewrite filter_element_other by (rewrite Ha; exact Hrow).
      reflexivity.
  - destruct el as [t a s cs]. cbn [map_element children] in *.
    rewrite map_map. apply map_ext_Forall. exact IH.
Qed.

(** X8.  Each filter is idempotent: calling [filterByDay],
    [filterByStatus] or [filterBySemester] a second time with the same
    argument leaves the document as the first call made it. *)
Theorem filter_idempotent (f : filter) (v : string) (doc : document) :
  bind (run_filter f v) (fun _ => run_filter f v) doc = run_filter f v doc.
Proof.
  unfold bind. rewrite !run_filter_eq. cbn [cookie body].
  rewrite map_map. do 3 f_equal.
  apply map_ext. intros el. apply map_filter_idempotent.
Qed.

(** X9.  The filters do not combine: after a call of one filter and
    then a call of a second one, the second alone decides the display
    of its rows.  A row that the first filter has hidden is shown again
    when it matches the second. *)
Theorem filter_overrides (f g : filter) (u v : string) (doc : document) :
  exists doc' : document,
    bind (run_filter f u) (fun _ => run_filter g v) doc = Normal (tt, doc')
    /\ forall (row : ref) (el : element),
         lookup_ref row (body doc) = Some el ->
         is_Some (attributes el !! filter_attribute g) ->
         exists el' : element,
           lookup_ref row (body doc') = Some el'
           /\ display el' = if shown g v el then "" else "none".
Proof.
  eexists. split.
  { unfold bind. rewrite !run_filter_eq. cbn [cookie body]. reflexivity. }
  cbn [body]. intros row el Hel Hrow.
  rewrite !lookup_ref_map, Hel. cbn [fmap option_fmap option_map].
  eexists. split; [reflexivity|].
  set (X := map_element (filter_element (filter_attribute f) (filter_key f) u) el).
  assert (Ha : attributes X = attributes el).
  { unfold X. rewrite map_element_attributes. apply filter_element_attributes. }
  unfold display. rewrite map_element_style.
  rewrite filter_element_style_row by (rewrite Ha; exact Hrow).
  rewrite dataset_filter_key, Ha.
  fold (display (set_display
          (if String.eqb v "all"
              || bool_decide (attributes el !! filter_attribute g = Some v)
           then "" else "none") X)).
  rewrite display_set_display. reflexivity.
Qed.

(** X10.  A filter leaves alone the elements that do not carry its
    attribute: their tag, attributes and whole inline style, [display]
    included, are after the call what they were before. *)
Theorem filter_leaves_other_elements (f : filter) (v : string) (doc : document) :
  exists doc' : document,
    run_filter f v doc = Normal (tt, doc')
    /\ forall (r : ref) (el : element),
         lookup_ref r (body doc) = Some el ->
         attributes el !! filter_attribute f = None ->
         exists el' : element,
           lookup_ref r (body doc') = Some el'
           /\ tagName el' = tagName el
           /\ attributes el' = attributes el
           /\ style el' = style el.
Proof.
  eexists. split; [apply run_filter_eq|].
  cbn [body]. intros r el Hel Hnone.
  rewrite lookup_ref_map, Hel. cbn [fmap option_fmap option_map].
  eexists. split; [reflexivity|].
  rewrite map_element_tagName, map_element_attributes, map_element_style.
  rewrite filter_element_other by exact Hnone. auto.
Qed.

End FilterMore.

(** ** More on the loading overlay *)

Section LoadingMore.
Import DOM.
Local Open Scope nat_scope.

Lemma delete_length_app {A} (l1 l2 : list A) (x : A) :
  delete (length l1) (l1 ++ x :: l2) = l1 ++ l2.
Proof.
  induction l1 as [|y l1 IH]; [reflexivity|].
  change (y :: delete (length l1) (l1 ++ x :: l2) = y :: (l1 ++ l2)).
  rewrite IH. reflexivity.
Qed.

Lemma select_nil_count (d : document) :
  count (HasId "loadingOverlay") d = 0 ->
  select_forest (matches (HasId "loadingOverlay")) 0 (body d) = [].
Proof. unfold count. apply length_zero_iff_nil. Qed.

Lemma hideLoading_after_showLoading (c : string) (forest rest : list element) :
  select_forest (matches (HasId "loadingOverlay")) 0 forest = [] ->
  hideLoading (Document c (forest ++ overlay :: rest))
  = Normal (tt, Document c (forest ++ rest)).
Proof.
  intros Hnone. unfold hideLoading, bind, getElementById. cbn [body].
  rewrite select_forest_app, Hnone. cbn [select_forest app Nat.add].
  rewrite select_overlay. cbn [fmap list_fmap app head].
  unfold remove. cbn [cookie body remove_ref].
  rewrite delete_length_app. reflexivity.
Qed.

(** X11.  In a document without an element of [id] [loadingOverlay],
    [showLoading] followed by [hideLoading] gives the document back as
    it was. *)
Theorem showLoading_hideLoading_restores (doc : document) :
  count (HasId "loadingOverlay") doc = 0 ->
  bind showLoading (fun _ => hideLoading) doc = Normal (tt, doc).
Proof.
  intros Hnone. apply select_nil_count in Hnone.
  unfold bind. rewrite showLoading_eq.
  rewrite (hideLoading_after_showLoading (cookie doc) (body doc) []) by exact Hnone.
  rewrite app_nil_r. destruct doc; reflexivity.
Qed.

(** X11 at the sample table. *)
Lemma showLoading_hideLoading_restores_witness :
  bind showLoading (fun _ => hideLoading) sample_table = Normal (tt, sample_table).
Proof. apply showLoading_hideLoading_restores. reflexivity. Defined.

(** X12.  [hideLoading] removes one overlay only: in a document without
    an element of [id] [loadingOverlay], two calls of [showLoading]
    followed by one call of [hideLoading] leave the document as one
    call of [showLoading] makes it, with an overlay in it; a second
    call of [hideLoading] gives the document back as it was. *)
Theorem hideLoading_removes_one_overlay (doc : document) :
  count (HasId "loadingOverlay") doc = 0 ->
  bind showLoading (fun _ => bind showLoading (fun _ => hideLoading)) doc
  = showLoading doc
  /\ bind showLoading (fun _ => bind showLoading (fun _ => hideLoading)) doc
     = Normal (tt, Document (cookie doc) (body doc ++ [overlay]))
  /\ count (HasId "loadingOverlay") (Document (cookie doc) (body doc ++ [overlay])) = 1
  /\ bind showLoading (fun _ =>
       bind showLoading (fun _ => bind hideLoading (fun _ => hideLoading))) doc
     = Normal (tt, doc).
Proof.
  intros Hnone. apply select_nil_count in Hnone.
  assert (Hthree :
    bind showLoading (fun _ => bind showLoading (fun _ => hideLoading)) doc
    = Normal (tt, Document (cookie doc) (body doc ++ [overlay]))).
  { unfold bind. rewrite !showLoading_eq. cbn [cookie body].
    rewrite <- app_assoc. cbn [app].
    apply (hideLoading_after_showLoading (cookie doc) (body doc) [overlay]).
    exact Hnone. }
  split; [rewrite Hthree, showLoading_eq; reflexivity|].
  split; [exact Hthree|]. split.
  - unfold count. cbn [body]. rewrite select_forest_app, Hnone.
    cbn [select_forest app Nat.add]. rewrite select_overlay. reflexivity.
  - unfold bind in *. rewrite !showLoading_eq in *. cbn [cookie body] in *.
    rewrite <- app_assoc in *. cbn [app] in *.
    rewrite (hideLoading_after_showLoading (cookie doc) (body doc) [overlay])
      by exact Hnone.
    rewrite (hideLoading_after_showLoading (cookie doc) (body doc) []) by exact Hnone.
    rewrite app_nil_r. destruct doc; reflexivity.
Qed.

(** X12 at the sample table. *)
Lemma hideLoading_removes_one_overlay_witness :
  bind showLoading (fun _ => bind showLoading (fun _ => hideLoading)) sample_table
  = showLoading sample_table.
Proof. apply hideLoading_removes_one_overlay. reflexivity. Defined.

End LoadingMore.

(** ** More on the cookie reader *)

Section EscapeFacts.
Import Text Cookies.
Local Open Scope nat_scope.

(** On a string without [%] the decoder of [escape_host] returns the
    string, as that of [sample_host] does. *)
Lemma decode_plain (s : string) :
  occurrences "%" s = 0 -> decode s = Normal s.
Proof.
  induction s as [|c s IH]; [reflexivity|].
  cbn [occurrences decode]. destruct (Ascii.eqb c "%"); [discriminate|].
  intros Hs. rewrite IH by exact Hs. reflexivity.
Qed.

(** A [%] that ends the string, or that one character follows, makes
    the decoder throw wherever it stands. *)
Lemma decode_truncated (s : string) (tail : string) :
  occurrences "%" s = 0 -> (String.length tail <= 1) ->
  decode (s +:+ String "%" tail) = Throw "URIError".
Proof.
  intros Hs Htail. induction s as [|c s IH].
  - change ("" +:+ String "%" tail) with (String "%" tail).
    cbn [decode]. rewrite Ascii.eqb_refl.
    destruct tail as [|x [|y tail]]; [reflexivity|reflexivity|].
    cbn [String.length] in Htail. lia.
  - change (String c s +:+ String "%" tail) with (String c (s +:+ String "%" tail)).
    cbn [occurrences] in Hs. cbn [decode].
    destruct (Ascii.eqb c "%"); [discriminate|].
    rewrite IH by exact Hs. reflexivity.
Qed.

End EscapeFacts.

Section CookieMore.
Import JSString DOM Text Cookies.
Local Open Scope nat_scope.
Context `{Host}.

(** For a name without [=], the entries [getCookie] takes are those
    whose own name is exactly that name. *)
Lemma entry_matches_cookie_key (name entry : string) :
  without "=" name = true ->
  entry_matches name entry = true <-> cookie_key entry = Some name.
Proof.
  intros Hname. unfold entry_matches, cookie_key. rewrite prefix_app. split.
  - intros [rest Hrest]. rewrite Hrest, string_app_assoc.
    destruct (split_cons "=" rest) as (p & ps & Hs).
    rewrite (split_without "=" name ("=" +:+ rest) "" (p :: ps) Hname).
    + rewrite string_app_nil_r. reflexivity.
    + change ("=" +:+ rest) with (String "=" rest). cbn [split].
      rewrite Ascii.eqb_refl, Hs. reflexivity.
  - destruct (split "=" (trim entry)) as [|k [|p ps]] eqn:Hs; try discriminate.
    intros [= ->]. destruct (split_first _ _ _ _ Hs) as [_ Hrest].
    destruct Hrest as [rest ->]; [discriminate|].
    exists rest. symmetry. apply string_app_assoc.
Qed.

(** X13.  [getCookie] matches names exactly.  For a name without [=],
    an entry of the cookie string is taken if and only if the text
    before its first [=], once the entry is trimmed, is that name; when
    no entry has that name, be it a longer or a shorter one,
    [getCookie(name)] returns [null]. *)
Theorem getCookie_exact_name (name : string) (doc : document) :
  without "=" name = true ->
  (forall entry : string,
     entry_matches name entry = true <-> cookie_key entry = Some name)
  /\ (Forall (fun entry => cookie_key entry <> Some name) (split ";" (cookie doc)) ->
      getCookie name doc = Normal (None, doc)).
Proof.
  intros Hname. split; [intros entry; apply entry_matches_cookie_key; exact Hname|].
  intros Hnone. rewrite getCookie_eq.
  rewrite <- (app_nil_r (split ";" (cookie doc))).
  rewrite getCookie_loop_skip; [reflexivity|].
  eapply Forall_impl; [exact Hnone|]. intros entry Hk. cbv beta in Hk.
  destruct (entry_matches name entry) eqn:Hm; [|reflexivity].
  apply entry_matches_cookie_key in Hm; [contradiction|exact Hname].
Qed.

End CookieMore.

(** X13 at a cookie string whose names hold [csrftoken] or a part of it. *)
Lemma getCookie_exact_name_witness :
  @DOM.getCookie sample_host "csrftoken"
    (DOM.Document "xcsrftoken=a; csrftoken2=b; csrf=c" [])
  = Normal (None, DOM.Document "xcsrftoken=a; csrftoken2=b; csrf=c" []).
Proof.
  apply (@getCookie_exact_name sample_host "csrftoken"
           (DOM.Document "xcsrftoken=a; csrftoken2=b; csrf=c" [])).
  - reflexivity.
  - replace (JSString.split ";"
               (DOM.cookie (DOM.Document "xcsrftoken=a; csrftoken2=b; csrf=c" [])))
      with ["xcsrftoken=a"; " csrftoken2=b"; " csrf=c"] by (vm_compute; reflexivity).
    repeat (constructor; [vm_compute; discriminate|]). constructor.
Defined.

(** ** Regular expressions *)

Section RegExpFacts.
Import RegExp Text Language.
Local Open Scope nat_scope.

Lemma string_app_nil_inv (a b : string) : a +:+ b = "" -> a = "" /\ b = "".
Proof. destruct a; [auto|discriminate]. Qed.

Lemma lang_class_inv (cls : ascii -> bool) (s : string) :
  lang (Class cls) s <-> exists c, s = String c "" /\ cls c = true.
Proof.
  split.
  - intros H. inversion H; subst. eauto.
  - intros (c & -> & Hc). constructor. exact Hc.
Qed.

Lemma lang_seq_inv (r1 r2 : regex) (s : string) :
  lang (Seq r1 r2) s <-> exists s1 s2, s = s1 +:+ s2 /\ lang r1 s1 /\ lang r2 s2.
Proof.
  split.
  - intros H. inversion H; subst. eauto.
  - intros (s1 & s2 & -> & H1 & H2). constructor; assumption.
Qed.

Lemma lang_alt_inv (r1 r2 : regex) (s : string) :
  lang (Alt r1 r2) s <-> lang r1 s \/ lang r2 s.
Proof.
  split.
  - intros H. inversion H; subst; auto.
  - intros [H|H]; [apply lang_alt_l|apply lang_alt_r]; exact H.
Qed.

Lemma nullable_lang (r : regex) : nullable r = true <-> lang r "".
Proof.
  induction r as [| |cls|r1 IH1 r2 IH2|r1 IH1 r2 IH2|r IH]; cbn [nullable].
  - split; [discriminate|]. intros H. inversion H.
  - split; [intros _; constructor|reflexivity].
  - split; [discriminate|]. intros H. inversion H.
  - rewrite andb_true_iff, IH1, IH2, lang_seq_inv. split.
    + intros [H1 H2]. exists "", "". auto.
    + intros (s1 & s2 & Heq & H1 & H2). symmetry in Heq.
      apply string_app_nil_inv in Heq. destruct Heq; subst. auto.
  - rewrite orb_true_iff, IH1, IH2, lang_alt_inv. reflexivity.
  - split; [intros _; constructor|reflexivity].
Qed.

(** A non-empty match of [r*] starts with a non-empty match of [r]. *)
Lemma lang_star_head (r : regex) (s : string) :
  lang (Star r) s ->
  forall c s', s = String c s' ->
  exists s1 s2, s' = s1 +:+ s2 /\ lang r (String c s1) /\ lang (Star r) s2.
Proof.
  intros H. remember (Star r) as r' eqn:Hr. revert r Hr.
  induction H as [| | | | |r0|r0 s1 s2 H1 _ H2 IH2]; intros r Hr; try discriminate.
  injection Hr as ->. intros c s' Heq.
  destruct s1 as [|x s1].
  - apply (IH2 r eq_refl c s'). exact Heq.
  - rewrite string_app_cons in Heq. injection Heq as -> <-.
    exists s1, s2. auto.
Qed.

Lemma derivative_lang (r : regex) : forall (c : ascii) (s : string),
  lang (derivative c r) s <-> lang r (String c s).
Proof.
  induction r as [| |cls|r1 IH1 r2 IH2|r1 IH1 r2 IH2|r IH]; intros c s;
    cbn [derivative].
  - split; intros H; inversion H.
  - split; intros H; inversion H.
  - rewrite lang_class_inv. destruct (cls c) eqn:Hc; split.
    + intros H. inversion H. exists c. auto.
    + intros (x & Heq & _). injection Heq as _ ->. constructor.
    + intros H. inversion H.
    + intros (x & Heq & Hx). injection Heq as -> _. congruence.
  - assert (Hseq : lang (Seq (derivative c r1) r2) s
                   <-> exists s1 s2, s = s1 +:+ s2 /\ lang r1 (String c s1)
                                     /\ lang r2 s2).
    { rewrite lang_seq_inv. split.
      - intros (s1 & s2 & -> & H1 & H2). exists s1, s2. rewrite <- IH1. auto.
      - intros (s1 & s2 & -> & H1 & H2). exists s1, s2. rewrite IH1. auto. }
    assert (Hsplit : lang (Seq r1 r2) (String c s)
                     <-> (exists s1 s2, s = s1 +:+ s2 /\ lang r1 (String c s1)
                                        /\ lang r2 s2)
                         \/ (lang r1 "" /\ lang r2 (String c s))).
    { rewrite lang_seq_inv. split.
      - intros (s1 & s2 & Heq & H1 & H2). destruct s1 as [|x s1].
        + right. change ("" +:+ s2) with s2 in Heq. subst. auto.
        + left. rewrite string_app_cons in Heq. injection Heq as -> ->.
          exists s1, s2. auto.
      - intros [(s1 & s2 & -> & H1 & H2)|[H1 H2]].
        + exists (String c s1), s2. auto.
        + exists "", (String c s). auto. }
    rewrite Hsplit. destruct (nullable r1) eqn:Hn.
    + rewrite lang_alt_inv, Hseq, IH2. split.
      * intros [H|H]; [left; exact H|right].
        split; [apply nullable_lang; exact Hn|exact H].
      * intros [H|[_ H]]; auto.
    + rewrite Hseq. split; [auto|]. intros [H|[H _]]; [exact H|].
      apply nullable_lang in H. congruence.
  - rewrite !lang_alt_inv, IH1, IH2. reflexivity.
  - rewrite lang_seq_inv. split.
    + intros (s1 & s2 & -> & H1 & H2).
      change (String c (s1 +:+ s2)) with (String c s1 +:+ s2).
      constructor; [apply IH; exact H1|exact H2].
    + intros H.
      destruct (lang_star_head r _ H c s eq_refl) as (s1 & s2 & -> & H1 & H2).
      exists s1, s2. rewrite IH. auto.
Qed.

(** [test] decides whether the pattern matches the whole string. *)
Lemma test_lang (r : regex) (s : string) : test r s = true <-> lang r s.
Proof.
  revert r. induction s as [|c s IH]; intros r; cbn [test].
  - apply nullable_lang.
  - rewrite IH. apply derivative_lang.
Qed.

(** *** Repeated classes *)

Lemma all_app (cls : ascii -> bool) (a b : string) :
  all cls (a +:+ b) = all cls a && all cls b.
Proof.
  induction a as [|x a IH]; [reflexivity|].
  rewrite string_app_cons. cbn [all]. rewrite IH. apply andb_assoc.
Qed.

Lemma lang_star_class (cls : ascii -> bool) (s : string) :
  lang (Star (Class cls)) s <-> all cls s = true.
Proof.
  split.
  - intros H. remember (Star (Class cls)) as r eqn:Hr.
    induction H as [| | | | |r0|r0 s1 s2 H1 _ H2 IH2]; try discriminate.
    + reflexivity.
    + injection Hr as ->. apply lang_class_inv in H1. destruct H1 as (c & -> & Hc).
      change (String c "" +:+ s2) with (String c s2). cbn [all].
      rewrite Hc. apply IH2. reflexivity.
  - induction s as [|c s IH]; cbn [all].
    + intros _. constructor.
    + intros Hc. apply andb_prop in Hc as [Hc Hs].
      change (String c s) with (String c "" +:+ s).
      constructor; [constructor; exact Hc|apply IH; exact Hs].
Qed.

Lemma lang_plus_class (cls : ascii -> bool) (s : string) :
  lang (Plus (Class cls)) s <-> s <> "" /\ all cls s = true.
Proof.
  unfold Plus. rewrite lang_seq_inv. split.
  - intros (s1 & s2 & -> & H1 & H2).
    apply lang_class_inv in H1. destruct H1 as (c & -> & Hc).
    apply lang_star_class in H2.
    change (String c "" +:+ s2) with (String c s2). split; [discriminate|].
    cbn [all]. rewrite Hc. exact H2.
  - intros [Hne Hall]. destruct s as [|c s]; [contradiction|].
    cbn [all] in Hall. apply andb_prop in Hall as [Hc Hs].
    exists (String c ""), s. split; [reflexivity|].
    split; [constructor; exact Hc|apply lang_star_class; exact Hs].
Qed.

Lemma lang_repeat_class (cls : ascii -> bool) (n : nat) (s : string) :
  lang (Repeat n (Class cls)) s <-> String.length s = n /\ all cls s = true.
Proof.
  revert s. induction n as [|n IH]; intros s; cbn [Repeat].
  - split.
    + intros H. inversion H. auto.
    + intros [Hl _]. destruct s; [constructor|discriminate].
  - rewrite lang_seq_inv. split.
    + intros (s1 & s2 & -> & H1 & H2).
      apply lang_class_inv in H1. destruct H1 as (c & -> & Hc).
      apply IH in H2. destruct H2 as [Hl Hs].
      change (String c "" +:+ s2) with (String c s2).
      cbn [all String.length]. rewrite Hc, Hl. auto.
    + intros [Hl Hall]. destruct s as [|c s]; [discriminate|].
      cbn [all] in Hall. apply andb_prop in Hall as [Hc Hs].
      exists (String c ""), s. split; [reflexivity|].
      split; [constructor; exact Hc|]. apply IH. cbn in Hl. split; [lia|exact Hs].
Qed.

Lemma lang_char (c : ascii) (s : string) : lang (Char c) s <-> s = String c "".
Proof.
  unfold Char. rewrite lang_class_inv. split.
  - intros (x & -> & Hx). apply Ascii.eqb_eq in Hx. subst. reflexivity.
  - intros ->. exists c. split; [reflexivity|apply Ascii.eqb_refl].
Qed.

End RegExpFacts.

(** ** Data validation *)

Section ValidationFacts.
Import JSString RegExp Text Language Validation.
Local Open Scope nat_scope.

(** X14.  [validatePhone(phone)] is true exactly for the strings of
    ten characters that are all digits [0] to [9]: no sign, space or
    separator is accepted, and no other length. *)
Theorem validatePhone_ten_digits (phone : string) :
  validatePhone phone = true
  <-> String.length phone = 10 /\ all digit phone = true.
Proof.
  unfold validatePhone, phone_pattern. rewrite test_lang.
  apply lang_repeat_class.
Qed.

(** X15.  [validateRollNumber(rollNumber)] is true exactly for the
    non-empty strings of upper-case letters [A] to [Z] and digits; in
    particular the empty string and lower-case letters are refused. *)
Theorem validateRollNumber_upper_digits (rollNumber : string) :
  validateRollNumber rollNumber = true
  <-> rollNumber <> "" /\ all upper_or_digit rollNumber = true.
Proof.
  unfold validateRollNumber, roll_number_pattern. rewrite test_lang.
  apply lang_plus_class.
Qed.

Lemma email_shape (email : string) :
  validateEmail email = true
  <-> exists a b c : string,
        email = a +:+ "@" +:+ b +:+ "." +:+ c /\ word a /\ word b /\ word c.
Proof.
  unfold validateEmail, email_pattern, word. rewrite test_lang. split.
  - intros H.
    apply lang_seq_inv in H. destruct H as (a & s1 & -> & Ha & H).
    apply lang_seq_inv in H. destruct H as (at_ & s2 & -> & Hat & H).
    apply lang_seq_inv in H. destruct H as (b & s3 & -> & Hb & H).
    apply lang_seq_inv in H. destruct H as (dot & c & -> & Hdot & Hc).
    apply lang_char in Hat, Hdot. subst.
    apply lang_plus_class in Ha, Hb, Hc.
    exists a, b, c. auto.
  - intros (a & b & c & -> & Ha & Hb & Hc).
    apply lang_seq; [apply lang_plus_class; exact Ha|].
    apply (lang_seq _ _ "@"); [apply lang_char; reflexivity|].
    apply lang_seq; [apply lang_plus_class; exact Hb|].
    apply (lang_seq _ _ "."); [apply lang_char; reflexivity|].
    apply lang_plus_class; exact Hc.
Qed.

(** X16.  [validateEmail(email)] is true exactly for the strings of the
    form [a@b.c] in which [a], [b] and [c] are non-empty and hold
    neither white space nor [@]. *)
Theorem validateEmail_shape (email : string) :
  validateEmail email = true
  <-> exists a b c : string,
        email = a +:+ "@" +:+ b +:+ "." +:+ c /\ word a /\ word b /\ word c.
Proof. apply email_shape. Qed.

Lemma occurrences_app (c : ascii) (a b : string) :
  occurrences c (a +:+ b) = occurrences c a + occurrences c b.
Proof.
  induction a as [|x a IH]; [reflexivity|].
  rewrite string_app_cons. cbn [occurrences]. rewrite IH. lia.
Qed.

Lemma word_no_at (w : string) :
  all not_space_or_at w = true -> occurrences "@" w = 0.
Proof.
  induction w as [|x w IH]; [reflexivity|]. cbn [all occurrences].
  intros Hw. apply andb_prop in Hw as [Hx Hw]. rewrite (IH Hw).
  unfold not_space_or_at in Hx. apply negb_true_iff, orb_false_elim in Hx as [_ Hx].
  rewrite Hx. reflexivity.
Qed.

Lemma word_no_space (w : string) :
  all not_space_or_at w = true ->
  all (fun c => negb (is_white_space c)) w = true.
Proof.
  induction w as [|x w IH]; [reflexivity|]. cbn [all].
  intros Hw. apply andb_prop in Hw as [Hx Hw]. rewrite (IH Hw).
  unfold not_space_or_at in Hx. apply negb_true_iff, orb_false_elim in Hx as [Hx _].
  rewrite Hx. reflexivity.
Qed.

Lemma word_length (w : string) : w <> "" -> 1 <= String.length w.
Proof. destruct w; [contradiction|]. cbn. lia. Qed.

(** X17.  An address that [validateEmail] accepts holds exactly one
    [@] and no white space, and has at least five characters. *)
Theorem validateEmail_one_at (email : string) :
  validateEmail email = true ->
  occurrences "@" email = 1
  /\ all (fun c => negb (is_white_space c)) email = true
  /\ 5 <= String.length email.
Proof.
  intros Hv. apply email_shape in Hv.
  destruct Hv as (a & b & c & -> & [Na Wa] & [Nb Wb] & [Nc Wc]).
  split; [|split].
  - rewrite !occurrences_app.
    rewrite (word_no_at a), (word_no_at b), (word_no_at c) by assumption.
    reflexivity.
  - rewrite !all_app.
    rewrite (word_no_space a), (word_no_space b), (word_no_space c) by assumption.
    reflexivity.
  - rewrite !string_length_app.
    pose proof (word_length a Na). pose proof (word_length b Nb).
    pose proof (word_length c Nc). cbn [String.length]. lia.
Qed.

(** X17 at an address that is accepted. *)
Lemma validateEmail_one_at_witness :
  occurrences "@" "student@college.edu" = 1
  /\ all (fun c => negb (is_white_space c)) "student@college.edu" = true
  /\ 5 <= String.length "student@college.edu".
Proof. apply validateEmail_one_at. vm_compute. reflexivity. Defined.

End ValidationFacts.

(** ** Time formatting *)

Section TimeFacts.
Import JSString Text Utility Clock.
Context `{Host}.

Lemma formatTime_hour (h : nat) (hh minutes : string) (pieces : list string)
    (timeString : string) :
  (h < 24)%nat -> hh = two_digits h \/ hh = pretty h ->
  split ":" timeString = hh :: minutes :: pieces ->
  formatTime timeString
  = pretty (hour12 h) +:+ ":" +:+ minutes +:+ " " +:+ meridiem h.
Proof.
  intros Hh Hhh Hsplit. unfold formatTime. rewrite Hsplit.
  change (default "undefined" ((hh :: minutes :: pieces) !! 0%nat)) with hh.
  change (default "undefined" ((hh :: minutes :: pieces) !! 1%nat)) with minutes.
  clear Hsplit.
  destruct Hhh as [-> | ->];
    do 24 (destruct h as [|h]; [vm_compute; reflexivity|]); lia.
Qed.

Lemma two_digits_without (h : nat) :
  (h < 24)%nat -> without ":" (two_digits h) = true /\ without ":" (pretty h) = true.
Proof.
  intros Hh. do 24 (destruct h as [|h]; [vm_compute; split; reflexivity|]). lia.
Qed.

(** X18.  A time of the 24-hour clock is turned into the 12-hour
    clock: for an hour [h] from 0 to 23, written with or without a
    leading zero, [formatTime("h:mm")] is the hour [h mod 12], with 12
    in place of 0, then the minutes as they were given, then [AM]
    before noon and [PM] from noon on.  Seconds and whatever follows a
    second colon are dropped. *)
Theorem formatTime_24_hour_clock (h : nat) (minutes rest : string) :
  (h < 24)%nat -> without ":" minutes = true ->
  formatTime (two_digits h +:+ ":" +:+ minutes)
  = pretty (hour12 h) +:+ ":" +:+ minutes +:+ " " +:+ meridiem h
  /\ formatTime (pretty h +:+ ":" +:+ minutes)
     = pretty (hour12 h) +:+ ":" +:+ minutes +:+ " " +:+ meridiem h
  /\ formatTime (two_digits h +:+ ":" +:+ minutes +:+ ":" +:+ rest)
     = pretty (hour12 h) +:+ ":" +:+ minutes +:+ " " +:+ meridiem h.
Proof.
  intros Hh Hm. destruct (two_digits_without h Hh) as [H2 H1].
  split; [|split].
  - apply (formatTime_hour h (two_digits h) minutes []); auto.
    change (":" +:+ minutes) with (String ":" minutes).
    rewrite split_head, split_single by assumption. reflexivity.
  - apply (formatTime_hour h (pretty h) minutes []); auto.
    change (":" +:+ minutes) with (String ":" minutes).
    rewrite split_head, split_single by assumption. reflexivity.
  - apply (formatTime_hour h (two_digits h) minutes (split ":" rest)); auto.
    change (":" +:+ minutes +:+ ":" +:+ rest)
      with (String ":" (minutes +:+ String ":" rest)).
    rewrite !split_head by assumption. reflexivity.
Qed.

(** *** Hours of any size *)

Lemma radix_digit_decimal (c : ascii) (d : N) :
  digit_value c = Some d -> radix_digit 10 c = Some d.
Proof.
  unfold digit_value, radix_digit.
  destruct ((48 <=? Ascii.N_of_ascii c) && (Ascii.N_of_ascii c <=? 57))%N eqn:Hc;
    [|discriminate].
  intros [= <-]. apply andb_prop in Hc as [H1 H2].
  apply N.leb_le in H1, H2.
  assert (Hlt : (Ascii.N_of_ascii c - 48 <? 10)%N = true) by (apply N.ltb_lt; lia).
  rewrite Hlt. reflexivity.
Qed.

Lemma leading_digits_value (s : string) : forall (acc : option N) (v : N),
  digits_value s (default 0%N acc) = Some v ->
  s <> "" \/ is_Some acc ->
  leading_digits 10 s acc = Some v.
Proof.
  induction s as [|c s IH]; intros acc v Hv Hne.
  - cbn [digits_value] in Hv. cbn [leading_digits].
    destruct Hne as [Hne|[a ->]]; [contradiction|]. exact Hv.
  - cbn [digits_value] in Hv. cbn [leading_digits].
    destruct (digit_value c) as [d|] eqn:Hd; [|discriminate].
    rewrite (radix_digit_decimal c d Hd).
    apply IH; [exact Hv|right; eauto].
Qed.

Lemma pretty_N_go_head (x : N) : forall s : string,
  (0 < x)%N ->
  exists (d : N) (rest : string),
    (0 < d < 10)%N /\ pretty_N_go x s = String (pretty_N_char d) rest.
Proof.
  induction (N.lt_wf_0 x) as [x _ IH]. intros s Hx.
  rewrite pretty_N_go_step by exact Hx.
  destruct (N.eq_dec (x `div` 10)%N 0%N) as [Hq|Hq].
  - rewrite Hq, pretty_N_go_0. exists (x `mod` 10)%N, s. split; [|reflexivity].
    pose proof (N.div_mod x 10%N ltac:(lia)). pose proof (N.mod_lt x 10%N ltac:(lia)).
    lia.
  - apply IH; [apply N.div_lt; lia|apply N.neq_0_lt_0; exact Hq].
Qed.

Lemma pretty_N_not_empty (n : N) : pretty n <> "".
Proof.
  destruct (N.eq_dec n 0%N) as [->|Hn]; [discriminate|].
  rewrite pretty_N_pos by lia.
  destruct (pretty_N_go_head n "" ltac:(lia)) as (d & rest & _ & ->). discriminate.
Qed.

(** [parseInt] reads back the decimal digits of a whole number. *)
Lemma parseInt_pretty (n : N) : parseInt (pretty n) = lit (Z.of_N n).
Proof.
  assert (Hdigits : leading_digits 10 (pretty n) None = Some n).
  { apply leading_digits_value; [|left; apply pretty_N_not_empty].
    pose proof (digits_value_pretty_app n "") as Hd.
    rewrite string_app_nil_r in Hd. exact Hd. }
  destruct (N.eq_dec n 0%N) as [->|Hn]; [reflexivity|].
  rewrite pretty_N_pos in * by lia.
  destruct (pretty_N_go_head n "" ltac:(lia)) as (d & rest & Hd & Heq).
  rewrite Heq in *.
  assert (Hparse : parseInt (String (pretty_N_char d) rest)
                   = match leading_digits 10 (String (pretty_N_char d) rest) None with
                     | None => NaN
                     | Some N0 => S754_zero false
                     | Some (Npos mathInt) =>
                         binary_normalize prec emax (Zpos mathInt) 0 false
                     end).
  { clear Heq Hdigits. rewrite <- (N2Nat.id d).
    assert (Hm : (0 < N.to_nat d < 10)%nat) by lia.
    destruct (N.to_nat d) as [|m]; [lia|].
    do 9 (destruct m as [|m]; [reflexivity|]). lia. }
  rewrite Hparse, Hdigits. destruct n as [|p]; [lia|]. reflexivity.
Qed.

Lemma F_whole (m : Z) : (F m 0 == inject_Z m)%Q.
Proof. unfold F. change (2 ^ 0)%Q with 1%Q. ring. Qed.

Lemma F_inj (a b e : Z) : (F a e == F b e)%Q -> a = b.
Proof.
  intros Heq. apply Z.le_antisymm; apply (F_le_inv _ _ e); rewrite Heq; apply Qle_refl.
Qed.

(** A mantissa and an exponent that stand for a whole number below
    [2 ^ 53] are normalized to that number. *)
Lemma normalize_whole (q : positive) (e : Z) (n : positive) :
  Zpos n < 2 ^ 53 -> (F (Zpos q) e == inject_Z (Zpos n))%Q ->
  binary_normalize prec emax (Zpos q) e false = lit (Zpos n).
Proof.
  intros Hn Hv. cbn [binary_normalize].
  destruct (binary_round_eq false q e) as (m' & e' & -> & Hv' & Hexp).
  destruct (integer_canon n Hn) as (p & ep & C & He & Hp).
  rewrite (lit_pos n p ep C He Hp).
  apply binary_round_aux_exact; [lia|exact Hexp|exact C|exact He| |reflexivity].
  rewrite Hv', Hv, Hp. reflexivity.
Qed.

Lemma lit_12 : lit 12 = S754_finite false 6755399441055744 (-49).
Proof. vm_compute. reflexivity. Qed.

Lemma F_12 : (F 6755399441055744 (-49) == inject_Z 12)%Q.
Proof. vm_compute. reflexivity. Qed.

(** The remainder of a whole number by 12. *)
Lemma rem_lit_12 (n : Z) :
  0 <= n -> n < 2 ^ 53 -> rem (lit n) (lit 12) = lit (n mod 12).
Proof.
  intros Hn Hb. destruct (Z.eq_dec n 0) as [->|Hn0]; [reflexivity|].
  destruct (lit_whole n ltac:(lia) Hb) as (p & e & Hl & C & He & Hv).
  rewrite Hl, lit_12. unfold rem.
  set (e0 := Z.min e (-49)).
  assert (He0 : e0 <= 0) by (unfold e0; lia).
  assert (HK : 0 < 2 ^ (- e0)) by (apply Z.pow_pos_nonneg; lia).
  assert (HA : Zpos p * 2 ^ (e - e0) = n * 2 ^ (- e0)).
  { apply (F_inj _ _ e0). rewrite !F_shift by (unfold e0; lia).
    replace (e0 + (e - e0)) with e by lia. replace (e0 + - e0) with 0 by lia.
    rewrite Hv, F_whole. reflexivity. }
  assert (HB : 6755399441055744 * 2 ^ (-49 - e0) = 12 * 2 ^ (- e0)).
  { apply (F_inj _ _ e0). rewrite !F_shift by (unfold e0; lia).
    replace (e0 + (-49 - e0)) with (-49) by lia. replace (e0 + - e0) with 0 by lia.
    rewrite F_12, F_whole. reflexivity. }
  rewrite HA, HB, Z.mul_mod_distr_r by lia.
  pose proof (Z.mod_pos_bound n 12 ltac:(lia)) as Hmod.
  destruct (n mod 12) as [|k|k] eqn:Hk; try lia.
  - reflexivity.
  - cbn [cond_Zopp]. destruct (Zpos k * 2 ^ (- e0)) as [|q|q] eqn:Hq; try lia.
    apply normalize_whole; [lia|].
    rewrite <- Hq, F_shift by lia. replace (e0 + - e0) with 0 by lia.
    apply F_whole.
Qed.

Lemma ge_lit_12 (n : Z) :
  0 <= n -> n < 2 ^ 53 -> ge (lit n) (lit 12) = (12 <=? n).
Proof.
  intros Hn Hb. destruct (Z.leb_spec 12 n) as [Hge|Hlt].
  - apply (lit_le 12 n); lia.
  - rewrite <- (Z2Nat.id n) by exact Hn.
    assert (Hm : (Z.to_nat n < 12)%nat) by lia.
    destruct (Z.to_nat n) as [|m]; [vm_compute; reflexivity|].
    do 11 (destruct m as [|m]; [vm_compute; reflexivity|]). lia.
Qed.

Lemma display_hour_text (k : Z) :
  0 <= k < 12 ->
  toString (if truthy (lit k) then lit k else lit 12)
  = pretty (if k =? 0 then 12 else k).
Proof.
  intros Hk.
  rewrite <- (Z2Nat.id k) by lia.
  assert (Hm : (Z.to_nat k < 12)%nat) by lia.
  destruct (Z.to_nat k) as [|m]; [vm_compute; reflexivity|].
  do 11 (destruct m as [|m]; [vm_compute; reflexivity|]). lia.
Qed.

Lemma pretty_N_char_not_colon (d : N) : Ascii.eqb (pretty_N_char d) ":" = false.
Proof. unfold pretty_N_char. repeat case_match; reflexivity. Qed.

Lemma without_colon_go (x : N) : forall s,
  without ":" s = true -> without ":" (pretty_N_go x s) = true.
Proof.
  induction (N.lt_wf_0 x) as [x _ IH]. intros s Hs.
  destruct (N.eq_dec x 0%N) as [->|Hx].
  - rewrite pretty_N_go_0. exact Hs.
  - rewrite pretty_N_go_step by lia. apply IH; [apply N.div_lt; lia|].
    cbn [without]. rewrite pretty_N_char_not_colon, Hs. reflexivity.
Qed.

Lemma without_colon_pretty (n : N) : without ":" (pretty n) = true.
Proof.
  destruct (N.eq_dec n 0%N) as [->|Hn]; [reflexivity|].
  rewrite pretty_N_pos by lia. apply without_colon_go. reflexivity.
Qed.

(** X19.  [formatTime] does not check the hour: every whole number
    [n] below [2 ^ 53] before the colon is accepted and printed as
    [n mod 12], with 12 in place of 0, followed by [PM] as soon as [n]
    is 12 or more, so that [formatTime("25:00")] is ["1:00 PM"]. *)
Theorem formatTime_any_hour (n : N) (minutes : string) :
  (n < 2 ^ 53)%N -> without ":" minutes = true ->
  formatTime (pretty n +:+ ":" +:+ minutes)
  = pretty (if (n mod 12 =? 0)%N then 12%N else (n mod 12)%N)
    +:+ ":" +:+ minutes +:+ " " +:+ (if (n <? 12)%N then "AM" else "PM").
Proof.
  intros Hn Hm. unfold formatTime.
  change (":" +:+ minutes) with (String ":" minutes).
  rewrite split_head, split_single by (try apply without_colon_pretty; exact Hm).
  change (default "undefined" ([pretty n; minutes] !! 0%nat)) with (pretty n).
  change (default "undefined" ([pretty n; minutes] !! 1%nat)) with minutes.
  rewrite parseInt_pretty.
  rewrite ge_lit_12, rem_lit_12 by lia.
  pose proof (Z.mod_pos_bound (Z.of_N n) 12 ltac:(lia)) as Hmod.
  rewrite display_hour_text by lia.
  assert (Hk : Z.of_N n mod 12 = Z.of_N (n mod 12)%N).
  { rewrite N2Z.inj_mod. reflexivity. }
  rewrite Hk in *.
  assert (Hhour : pretty (if Z.of_N (n mod 12)%N =? 0 then 12 else Z.of_N (n mod 12)%N)
                  = pretty (if (n mod 12 =? 0)%N then 12%N else (n mod 12)%N)).
  { destruct (n mod 12)%N as [|k]; reflexivity. }
  assert (Hampm : (if 12 <=? Z.of_N n then "PM" else "AM")
                  = (if (n <? 12)%N then "AM" else "PM")).
  { destruct (Z.leb_spec 12 (Z.of_N n)), (N.ltb_spec n 12); try reflexivity; lia. }
  rewrite Hhour, Hampm. reflexivity.
Qed.

(** X20.  A time string whose hour part is not a number is not
    refused: when [parseInt] finds no number in the text before the
    first colon, [formatTime] returns the hour 12 and [AM], followed by
    the minutes part, or by [undefined] when there is no colon. *)
Theorem formatTime_unparsable_hour (timeString hours : string)
    (pieces : list string) :
  split ":" timeString = hours :: pieces ->
  parseInt hours = NaN ->
  formatTime timeString = "12:" +:+ default "undefined" (head pieces) +:+ " AM".
Proof.
  intros Hsplit Hnan. unfold formatTime. rewrite Hsplit.
  change (default "undefined" ((hours :: pieces) !! 0%nat)) with hours.
  rewrite Hnan.
  destruct pieces as [|minutes pieces]; vm_compute; reflexivity.
Qed.

(** X21.  A time string without a colon has no minutes part, and
    [formatTime] prints [undefined] in its place: the result is an hour
    text followed by [:undefined AM] or [:undefined PM]. *)
Theorem formatTime_without_colon (timeString : string) :
  without ":" timeString = true ->
  exists hourText : string,
    formatTime timeString = hourText +:+ ":undefined AM"
    \/ formatTime timeString = hourText +:+ ":undefined PM".
Proof.
  intros Hw. unfold formatTime. rewrite (split_single ":" timeString Hw).
  change (default "undefined" ([timeString] !! 0%nat)) with timeString.
  change (default "undefined" ([timeString] !! 1%nat)) with "undefined".
  eexists.
  destruct (ge (parseInt timeString) (lit 12)); [right|left]; reflexivity.
Qed.

End TimeFacts.

(** X18 at a morning, an evening and a midnight time. *)
Lemma formatTime_24_hour_clock_witness :
  @Utility.formatTime sample_host "07:45" = "7:45 AM"
  /\ @Utility.formatTime sample_host "19:45" = "7:45 PM"
  /\ @Utility.formatTime sample_host "00:05:59" = "12:05 AM".
Proof.
  split; [|split].
  - apply (@formatTime_24_hour_clock sample_host 7 "45" ""); [lia|reflexivity].
  - apply (proj1 (proj2 (@formatTime_24_hour_clock sample_host 19 "45" "" ltac:(lia) eq_refl))).
  - apply (proj2 (proj2 (@formatTime_24_hour_clock sample_host 0 "05" "59" ltac:(lia) eq_refl))).
Defined.

(** X20 at an hour that is a word. *)
Lemma formatTime_unparsable_hour_witness :
  @Utility.formatTime sample_host "noon:15" = "12:15 AM".
Proof.
  apply (@formatTime_unparsable_hour sample_host "noon:15" "noon" ["15"]);
    vm_compute; reflexivity.
Defined.

(** X21 at four digits without a colon. *)
Lemma formatTime_without_colon_witness :
  exists hourText : string,
    @Utility.formatTime sample_host "1830" = hourText +:+ ":undefined AM"
    \/ @Utility.formatTime sample_host "1830" = hourText +:+ ":undefined PM".
Proof.
  apply (@formatTime_without_colon sample_host "1830"). reflexivity.
Defined.

(** X19 at the hour 25. *)
Lemma formatTime_any_hour_witness :
  @Utility.formatTime sample_host "25:00" = "1:00 PM".
Proof.
  apply (@formatTime_any_hour sample_host 25%N "00"); reflexivity.
Defined.

(** ** Updates by reference *)

Section UpdateFacts.
Import DOM Shape.
Local Open Scope nat_scope.

Variable P : element -> bool.
Variable f : element -> element.
Hypothesis f_children : forall el, children (f el) = children el.
Hypothesis P_f : forall el, P (f el) = P el.
Hypothesis P_children : forall cs el, P (set_children cs el) = P el.

Lemma select_forest_alter (g : element -> element) :
  (forall el, select_element P (g el) = select_element P el) ->
  forall (forest : list element) (i k : nat),
    select_forest P k (alter g i forest) = select_forest P k forest.
Proof.
  intros Hg. induction forest as [|c cs IH]; intros i k; [reflexivity|].
  destruct i as [|i].
  - change (alter g 0 (c :: cs)) with (g c :: cs). cbn [select_forest].
    rewrite Hg. reflexivity.
  - change (alter g (S i) (c :: cs)) with (c :: alter g i cs). cbn [select_forest].
    rewrite IH. reflexivity.
Qed.

Lemma select_element_update_in (r : ref) : forall el : element,
  select_element P (update_in f r el) = select_element P el.
Proof.
  induction r as [|i r IH]; intros el.
  - cbn [update_in]. rewrite !select_element_eq, P_f, f_children. reflexivity.
  - change (update_in f (i :: r) el)
      with (set_children (update_ref f (i :: r) (children el)) el).
    rewrite !select_element_eq, P_children. f_equal.
    change (children (set_children (update_ref f (i :: r) (children el)) el))
      with (update_ref f (i :: r) (children el)).
    rewrite update_ref_cons. apply select_forest_alter. exact IH.
Qed.

(** An update that changes neither the children nor what the selector
    tests leaves the selection as it was. *)
Lemma select_forest_update_ref (r : ref) (forest : list element) (k : nat) :
  select_forest P k (update_ref f r forest) = select_forest P k forest.
Proof.
  destruct r as [|i r]; [reflexivity|].
  rewrite update_ref_cons. apply select_forest_alter.
  apply select_element_update_in.
Qed.

(** The fields of the elements after an update by reference: those of
    [f el] at the reference, unchanged elsewhere. *)
Lemma fields_update_ref (r' : ref) : forall (r : ref) (forest : list element),
  fields <$> lookup_ref r (update_ref f r' forest)
  = (fun el => if bool_decide (r = r') then fields (f el) else fields el)
      <$> lookup_ref r forest.
Proof.
  induction r' as [|i r' IH]; intros r forest.
  - cbn [update_ref]. destruct r as [|j r]; [reflexivity|].
    destruct (lookup_ref (j :: r) forest); reflexivity.
  - destruct r as [|j r]; [reflexivity|].
    rewrite update_ref_cons, !lookup_ref_cons.
    destruct (decide (j = i)) as [->|Hji].
    + rewrite list_lookup_alter_eq.
      destruct (forest !! i) as [el0|]; [|reflexivity].
      cbn [fmap option_fmap option_map].
      destruct r as [|k r].
      * cbn [fmap option_fmap option_map]. f_equal.
        destruct r' as [|k' r'].
        -- rewrite bool_decide_eq_true_2 by reflexivity. reflexivity.
        -- rewrite bool_decide_eq_false_2 by discriminate. reflexivity.
      * destruct r' as [|k' r'].
        -- cbn [update_in]. rewrite f_children.
           destruct (lookup_ref (k :: r) (children el0)); [|reflexivity].
           cbn [fmap option_fmap option_map].
           rewrite bool_decide_eq_false_2 by discriminate. reflexivity.
        -- change (children (update_in f (k' :: r') el0))
             with (update_ref f (k' :: r') (children el0)).
           rewrite IH.
           destruct (lookup_ref (k :: r) (children el0)); [|reflexivity].
           cbn [fmap option_fmap option_map]. f_equal.
           destruct (decide (k :: r = k' :: r')) as [Heq|Hne].
           ++ rewrite !bool_decide_eq_true_2 by congruence. reflexivity.
           ++ rewrite !bool_decide_eq_false_2 by congruence. reflexivity.
    + rewrite list_lookup_alter_ne by congruence.
      destruct (forest !! j) as [el0|]; [|reflexivity].
      destruct r as [|k r].
      * cbn [fmap option_fmap option_map].
        rewrite bool_decide_eq_false_2 by congruence. reflexivity.
      * destruct (lookup_ref (k :: r) (children el0)); [|reflexivity].
        cbn [fmap option_fmap option_map].
        rewrite bool_decide_eq_false_2 by congruence. reflexivity.
Qed.

End UpdateFacts.

(** ** The sidebar *)

Section SidebarFacts.
Import DOM Shape Sidebar.
Local Open Scope nat_scope.








End SidebarFacts.

(** ** Class lists *)

Section ClassFacts.
Import DOM Shape Sidebar Text Classes.
Local Open Scope nat_scope.

Lemma pieces_cons (s : string) : exists w ws, pieces s = w :: ws.
Proof.
  induction s as [|c s (w & ws & IH)]; cbn [pieces]; [eauto|].
  destruct (is_ascii_space c); [eauto|]. rewrite IH. eauto.
Qed.

Lemma pieces_app (t s w : string) (ws : list string) :
  all (fun c => negb (is_ascii_space c)) t = true ->
  pieces s = w :: ws ->
  pieces (t +:+ s) = (t +:+ w) :: ws.
Proof.
  intros Ht Hs. induction t as [|c t IH]; [exact Hs|].
  cbn [all] in Ht. apply andb_prop in Ht as [Hc Ht]. apply negb_true_iff in Hc.
  rewrite !string_app_cons. cbn [pieces]. rewrite Hc, (IH Ht). reflexivity.
Qed.

Lemma pieces_name (t : string) :
  all (fun c => negb (is_ascii_space c)) t = true -> pieces t = [t].
Proof.
  intros Ht. pose proof (pieces_app t "" "" [] Ht eq_refl) as Hp.
  rewrite string_app_nil_r in Hp. exact Hp.
Qed.

Lemma pieces_name_space (t s : string) :
  all (fun c => negb (is_ascii_space c)) t = true ->
  pieces (t +:+ " " +:+ s) = t :: pieces s.
Proof.
  intros Ht. destruct (pieces_cons s) as (w & ws & Hs).
  rewrite (pieces_app t (" " +:+ s) "" (pieces s) Ht).
  - rewrite string_app_nil_r. reflexivity.
  - change (" " +:+ s) with (String " " s). cbn [pieces].
    change (is_ascii_space " ") with true. reflexivity.
Qed.

(** The pieces of a string hold no white space. *)
Lemma pieces_no_space (s : string) :
  Forall (fun w => all (fun c => negb (is_ascii_space c)) w = true) (pieces s).
Proof.
  induction s as [|c s IH]; cbn [pieces].
  - repeat constructor.
  - destruct (is_ascii_space c) eqn:Hc.
    + constructor; [reflexivity|exact IH].
    + destruct (pieces s) as [|w ws].
      * repeat constructor. cbn [all]. rewrite Hc. reflexivity.
      * inversion IH as [|? ? Hw Hws]; subst. constructor; [|exact Hws].
        cbn [all]. rewrite Hc, Hw. reflexivity.
Qed.

Lemma split_on_space_valid (s : string) : Forall valid_name (split_on_space s).
Proof.
  unfold split_on_space. apply Forall_forall. intros w Hw.
  apply list_elem_of_filter in Hw as [Hne Hin].
  split; [exact Hne|].
  pose proof (pieces_no_space s) as Hp. rewrite Forall_forall in Hp. auto.
Qed.

(** Names joined by spaces are read back as they were. *)
Lemma split_on_space_serialize (set : list string) :
  Forall valid_name set -> split_on_space (serialize set) = set.
Proof.
  unfold split_on_space. induction 1 as [|t set [Hne Ht] Hset IH]; [reflexivity|].
  destruct set as [|t2 set].
  - cbn [serialize]. rewrite (pieces_name t Ht).
    rewrite filter_cons_True by exact Hne. reflexivity.
  - change (serialize (t :: t2 :: set))
      with (t +:+ " " +:+ serialize (t2 :: set)).
    rewrite (pieces_name_space t _ Ht).
    rewrite filter_cons_True by exact Hne. rewrite IH. reflexivity.
Qed.

Lemma ordered_set_from (l acc : list string) :
  NoDup acc ->
  let set := fold_left (fun set t => if bool_decide (t ∈ set) then set else set ++ [t])
               l acc in
  NoDup set
  /\ (forall t, t ∈ set <-> t ∈ acc \/ t ∈ l)
  /\ (NoDup (acc ++ l) -> set = acc ++ l).
Proof.
  revert acc. induction l as [|x l IH]; intros acc Hacc; cbn [fold_left].
  - split; [exact Hacc|]. split.
    + intros t. rewrite elem_of_nil. tauto.
    + intros _. rewrite app_nil_r. reflexivity.
  - destruct (decide (x ∈ acc)) as [Hin|Hnin].
    + rewrite bool_decide_eq_true_2 by exact Hin.
      destruct (IH acc Hacc) as (Hnd & Hmem & Heq). split; [exact Hnd|]. split.
      * intros t. rewrite Hmem, elem_of_cons.
        split; [tauto|]. intros [?|[->|?]]; auto.
      * intros Hnodup. exfalso. apply NoDup_app in Hnodup as (_ & Hdisj & _).
        apply (Hdisj x Hin). left.
    + rewrite bool_decide_eq_false_2 by exact Hnin.
      assert (Hacc' : NoDup (acc ++ [x])).
      { apply NoDup_app. split; [exact Hacc|]. split.
        - intros y Hy Hy'. apply list_elem_of_singleton in Hy'. subst. contradiction.
        - apply NoDup_singleton. }
      destruct (IH (acc ++ [x]) Hacc') as (Hnd & Hmem & Heq).
      split; [exact Hnd|]. split.
      * intros t. rewrite Hmem, elem_of_app, list_elem_of_singleton, elem_of_cons.
        tauto.
      * intros Hnodup. rewrite Heq; rewrite <- app_assoc; [reflexivity|exact Hnodup].
Qed.

Lemma ordered_set_spec (l : list string) :
  NoDup (ordered_set l)
  /\ (forall t, t ∈ ordered_set l <-> t ∈ l)
  /\ (NoDup l -> ordered_set l = l).
Proof.
  destruct (ordered_set_from l [] (NoDup_nil_2)) as (Hnd & Hmem & Heq).
  split; [exact Hnd|]. split.
  - intros t. unfold ordered_set. rewrite Hmem, elem_of_nil. tauto.
  - exact Heq.
Qed.

Lemma classList_valid (el : element) : valid_set (classList el).
Proof.
  unfold classList, valid_set.
  destruct (ordered_set_spec
              (split_on_space (default "" (attributes el !! "class"))))
    as (Hnd & Hmem & _).
  split; [exact Hnd|]. apply Forall_forall. intros t Ht. apply Hmem in Ht.
  pose proof (split_on_space_valid (default "" (attributes el !! "class"))) as Hv.
  rewrite Forall_forall in Hv. auto.
Qed.

(** Round trip: the class list of an element whose [class] attribute
    is the serialization of a set of names is that set. *)
Lemma classList_serialize (set : list string) (el : element) :
  valid_set set -> classList (set_attribute "class" (serialize set) el) = set.
Proof.
  intros [Hnd Hv]. unfold classList, set_attribute. cbn [attributes].
  rewrite lookup_insert_eq.
  change (default "" (Some (serialize set))) with (serialize set).
  rewrite split_on_space_serialize by exact Hv.
  apply ordered_set_spec. exact Hnd.
Qed.

Lemma classList_toggle_spec (token : string) (el : element) :
  valid_name token ->
  classList (classList_toggle token el)
  = if bool_decide (token ∈ classList el)
    then filter (fun t => t <> token) (classList el)
    else classList el ++ [token].
Proof.
  intros Htoken. destruct (classList_valid el) as [Hnd Hv].
  unfold classList_toggle.
  destruct (bool_decide (token ∈ classList el)) eqn:Hin.
  - apply classList_serialize. split.
    + apply NoDup_filter. exact Hnd.
    + apply Forall_forall. intros t Ht. apply list_elem_of_filter in Ht as [_ Ht].
      rewrite Forall_forall in Hv. auto.
  - apply classList_serialize. apply bool_decide_eq_false in Hin. split.
    + apply NoDup_app. split; [exact Hnd|]. split.
      * intros y Hy Hy'. apply list_elem_of_singleton in Hy'. subst. contradiction.
      * apply NoDup_singleton.
    + apply Forall_app. split; [exact Hv|]. constructor; [exact Htoken|constructor].
Qed.

Lemma valid_name_active : valid_name "active".
Proof. split; [discriminate|reflexivity]. Qed.

(** Toggling a name flips its membership and no other. *)
Lemma classList_toggle_elem_of (token t : string) (el : element) :
  valid_name token ->
  t ∈ classList (classList_toggle token el)
  <-> if bool_decide (t = token) then token ∉ classList el else t ∈ classList el.
Proof.
  intros Htoken. rewrite classList_toggle_spec by exact Htoken.
  destruct (decide (token ∈ classList el)) as [Hin|Hnin].
  - rewrite (bool_decide_eq_true_2 _ Hin), list_elem_of_filter.
    destruct (decide (t = token)) as [->|Hne].
    + rewrite bool_decide_eq_true_2 by reflexivity. tauto.
    + rewrite bool_decide_eq_false_2 by exact Hne. tauto.
  - rewrite (bool_decide_eq_false_2 _ Hnin), elem_of_app, list_elem_of_singleton.
    destruct (decide (t = token)) as [->|Hne].
    + rewrite bool_decide_eq_true_2 by reflexivity. tauto.
    + rewrite bool_decide_eq_false_2 by exact Hne. tauto.
Qed.

End ClassFacts.

(** ** The mobile menu *)

Section MobileMenuFacts.
Import DOM Shape Sidebar Text Classes.
Local Open Scope nat_scope.

Lemma classList_attributes (e1 e2 : element) :
  attributes e1 = attributes e2 -> classList e1 = classList e2.
Proof. unfold classList. intros ->. reflexivity. Qed.

Lemma has_class_toggle (name token : string) (el : element) :
  valid_name token -> name <> token ->
  has_class name (classList_toggle token el) = has_class name el.
Proof.
  intros Htoken Hne. unfold has_class. apply bool_decide_ext.
  rewrite classList_toggle_elem_of by exact Htoken.
  rewrite bool_decide_eq_false_2 by exact Hne. reflexivity.
Qed.

Lemma classList_toggle_children (token : string) (el : element) :
  children (classList_toggle token el) = children el.
Proof.
  unfold classList_toggle. destruct (bool_decide (token ∈ classList el)); reflexivity.
Qed.

Lemma toggleMobileMenu_step (doc : document) (r : ref) (el : element) :
  querySelector_class "sidebar" doc = Some r ->
  lookup_ref r (body doc) = Some el ->
  exists (doc' : document) (el' : element),
    toggleMobileMenu doc = Normal (tt, doc')
    /\ cookie doc' = cookie doc
    /\ lookup_ref r (body doc') = Some el'
    /\ ("active" ∈ classList el' <-> "active" ∉ classList el)
    /\ (forall t, t <> "active" -> (t ∈ classList el' <-> t ∈ classList el))
    /\ querySelector_class "sidebar" doc' = Some r.
Proof.
  intros Hq Hel. unfold toggleMobileMenu. rewrite Hq.
  pose proof (fields_update_ref (classList_toggle "active")
                (classList_toggle_children "active") r r (body doc)) as Hf.
  rewrite Hel, bool_decide_eq_true_2 in Hf by reflexivity.
  cbn [fmap option_fmap option_map] in Hf.
  destruct (lookup_ref r (update_ref (classList_toggle "active") r (body doc)))
    as [el'|] eqn:Hel'; [|discriminate].
  cbn [fmap option_fmap option_map] in Hf. injection Hf as _ Ha _.
  apply classList_attributes in Ha.
  eexists. exists el'. split; [reflexivity|]. cbn [cookie body].
  split; [reflexivity|]. split; [exact Hel'|]. rewrite Ha. split; [|split].
  - rewrite classList_toggle_elem_of by exact valid_name_active.
    rewrite bool_decide_eq_true_2 by reflexivity. reflexivity.
  - intros t Ht. rewrite classList_toggle_elem_of by exact valid_name_active.
    rewrite bool_decide_eq_false_2 by exact Ht. reflexivity.
  - unfold querySelector_class in *. cbn [body].
    rewrite select_forest_update_ref; [exact Hq| | |].
    + apply classList_toggle_children.
    + intros x. apply has_class_toggle; [exact valid_name_active|discriminate].
    + reflexivity.
Qed.

(** X24.  [toggleMobileMenu] throws a [TypeError] when the page has no
    element of class [sidebar].  Otherwise it returns, and in the class
    list of the first such element the name [active] is present after
    the call if and only if it was absent before; every other name is
    kept, so that the element is still the one the selector finds. *)
Theorem toggleMobileMenu_flips_active (doc : document) :
  (querySelector_class "sidebar" doc = None ->
   toggleMobileMenu doc = Throw "TypeError")
  /\ (forall (r : ref) (el : element),
        querySelector_class "sidebar" doc = Some r ->
        lookup_ref r (body doc) = Some el ->
        exists (doc' : document) (el' : element),
          toggleMobileMenu doc = Normal (tt, doc')
          /\ cookie doc' = cookie doc
          /\ lookup_ref r (body doc') = Some el'
          /\ ("active" ∈ classList el' <-> "active" ∉ classList el)
          /\ (forall t, t <> "active" -> (t ∈ classList el' <-> t ∈ classList el))
          /\ querySelector_class "sidebar" doc' = Some r).
Proof.
  split.
  - intros Hq. unfold toggleMobileMenu. rewrite Hq. reflexivity.
  - apply toggleMobileMenu_step.
Qed.

(** X25.  Two calls of [toggleMobileMenu] give the sidebar its class
    names back: the same names are in its class list after the second
    call as before the first. *)
Theorem toggleMobileMenu_twice (doc : document) (r : ref) (el : element) :
  querySelector_class "sidebar" doc = Some r ->
  lookup_ref r (body doc) = Some el ->
  exists (doc'' : document) (el'' : element),
    bind toggleMobileMenu (fun _ => toggleMobileMenu) doc = Normal (tt, doc'')
    /\ lookup_ref r (body doc'') = Some el''
    /\ forall t, t ∈ classList el'' <-> t ∈ classList el.
Proof.
  intros Hq Hel.
  destruct (toggleMobileMenu_step doc r el Hq Hel)
    as (doc' & el' & Hrun & _ & Hel' & Hact & Hoth & Hq').
  destruct (toggleMobileMenu_step doc' r el' Hq' Hel')
    as (doc'' & el'' & Hrun' & _ & Hel'' & Hact' & Hoth' & _).
  exists doc'', el''. split; [|split; [exact Hel''|]].
  - unfold bind. rewrite Hrun. exact Hrun'.
  - intros t. destruct (decide (t = "active")) as [->|Hne].
    + rewrite Hact', Hact. destruct (decide ("active" ∈ classList el)); tauto.
    + rewrite (Hoth' t Hne). apply Hoth. exact Hne.
Qed.

End MobileMenuFacts.


(** X25 at the document of the sample page. *)
Lemma toggleMobileMenu_twice_witness :
  exists (doc'' : DOM.document) (el'' : DOM.element),
    DOM.bind Sidebar.toggleMobileMenu (fun _ => Sidebar.toggleMobileMenu)
      (Sidebar.page_document Classes.sample_page) = Normal (tt, doc'')
    /\ DOM.lookup_ref [0%nat] (DOM.body doc'') = Some el''
    /\ forall t, t ∈ Sidebar.classList el''
                 <-> t ∈ Sidebar.classList
                       (DOM.set_attribute "class" "sidebar" (DOM.createElement "nav")).
Proof.
  apply (toggleMobileMenu_twice (Sidebar.page_document Classes.sample_page) [0%nat]);
    vm_compute; reflexivity.
Defined.
